(** * keycap_playground: scripts/ft-ergodox.py

    A shallow embedding of the batch script: the catalog of keycap
    configuration objects built by the [ergodox_ft_*] class hierarchy, the
    generation of render commands by the [__main__] block, and the
    semaphore-bounded command runner. *)

From Stdlib Require Import Floats ZArith Lia.
From stdpp Require Import gmap strings list relations.

Set Warnings "-inexact-float,-register-all".

Open Scope string_scope.
Open Scope list_scope.

(** ** Python values, exceptions and results *)

(** The values stored in attributes and passed as keyword arguments.  A
    float is an IEEE binary64 number, as in Python. *)
Inductive val :=
| VNone
| VBool (b : bool)
| VInt (z : Z)
| VFloat (f : float)
| VStr (s : string)
| VPath (p : string)
| VList (l : list val).
Arguments VInt z%_Z.
Arguments VFloat f%_float.

(** An object is its attribute dictionary. *)
Abbreviation obj := (gmap string val).

Inductive exn :=
| CalledProcessError (returncode : Z) (output : string)
| NameError (name : string)
| AttributeError (attr : string)
| IndexError
| TypeError
| ValueError
| UnicodeDecodeError
| OSError
| SystemExit (code : Z).

Inductive result (A : Type) :=
| Ok (a : A)
| Raise (e : exn).
Arguments Ok {A} a.
Arguments Raise {A} e.

#[global] Instance result_ret : MRet result := @Ok.
#[global] Instance result_bind : MBind result := λ A B f m,
  match m with
  | Ok a => f a
  | Raise e => Raise e
  end.
#[global] Instance result_fmap : FMap result := λ A B f m,
  match m with
  | Ok a => Ok (f a)
  | Raise e => Raise e
  end.

(** The exit status of the interpreter for a script that ended normally or
    with the given uncaught exception. *)
Definition exit_status {A} (r : result A) : Z :=
  match r with
  | Ok _ => 0
  | Raise (SystemExit code) => code
  | Raise _ => 1
  end.

Definition is_ok {A} (r : result A) : bool :=
  match r with Ok _ => true | Raise _ => false end.

(** ** The command runner *)

(** The life of one [run_command_on_loop] coroutine, wrapped in a task by
    [asyncio.as_completed], and of the [process_result] task that
    [run_all_commands] schedules for its result. *)
Inductive tstate :=
| TCreated                      (* coroutine object in [fs], not started *)
| TWaiting                      (* blocked in [async with SEM] *)
| TRunning                      (* holds SEM; [run_command] is in the executor *)
| TSleeping (output : string)   (* holds SEM; in [asyncio.sleep(1)] *)
| TDone (output : string)       (* returned [output]; SEM released *)
| TCollected (res : string)     (* [process_result(result)] scheduled *)
| TPrinted                      (* [print(result)] done *)
| TFailed (e : exn).            (* the coroutine raised [e] *)

(** [r_SEM] is the module global [SEM]: [None] while the name is unbound,
    [Some v] for a semaphore whose counter is [v].  [r_executed] logs the
    commands whose [run_command] call has ended, by a return or by an
    exception. *)
Record rstate := {
  r_SEM : option Z;
  r_tasks : list (string * tstate);
  r_executed : list string;
  r_stdout : list string;
  r_raised : option exn
}.

Definition set_task (i : nat) (c : string) (t : tstate) (s : rstate) : rstate :=
  {| r_SEM := r_SEM s; r_tasks := <[i := (c, t)]> (r_tasks s);
     r_executed := r_executed s; r_stdout := r_stdout s; r_raised := r_raised s |}.

Definition set_sem (v : Z) (s : rstate) : rstate :=
  {| r_SEM := Some v; r_tasks := r_tasks s;
     r_executed := r_executed s; r_stdout := r_stdout s; r_raised := r_raised s |}.

Definition log_executed (c : string) (s : rstate) : rstate :=
  {| r_SEM := r_SEM s; r_tasks := r_tasks s;
     r_executed := r_executed s ++ [c]; r_stdout := r_stdout s; r_raised := r_raised s |}.

Definition print_line (line : string) (s : rstate) : rstate :=
  {| r_SEM := r_SEM s; r_tasks := r_tasks s;
     r_executed := r_executed s; r_stdout := r_stdout s ++ [line]; r_raised := r_raised s |}.

Definition set_raised (e : exn) (s : rstate) : rstate :=
  {| r_SEM := r_SEM s; r_tasks := r_tasks s;
     r_executed := r_executed s; r_stdout := r_stdout s; r_raised := Some e |}.

(** [asyncio.Semaphore(value)]. *)
Definition Semaphore (value : Z) : result Z :=
  if (value <? 0)%Z then Raise ValueError else Ok value.

(** Tasks that hold the semaphore, and tasks whose command is in the
    executor. *)
Definition holds_sem (t : tstate) : bool :=
  match t with TRunning | TSleeping _ => true | _ => false end.

Definition is_running (t : tstate) : bool :=
  match t with TRunning => true | _ => false end.

Definition in_flight (s : rstate) : nat :=
  length (filter (λ ct, is_running ct.2 = true) (r_tasks s)).

Definition holders (s : rstate) : nat :=
  length (filter (λ ct, holds_sem ct.2 = true) (r_tasks s)).

Definition all_printed (s : rstate) : Prop :=
  Forall (λ ct, ct.2 = TPrinted) (r_tasks s).

(** What can keep [subprocess.check_output] from an exit status and a text:
    the process cannot be started ([os.getcwd()], the pipes or the fork
    fail with [OSError]), or what the process wrote is not text in the
    locale's encoding ([universal_newlines=True] decodes it, which raises
    [UnicodeDecodeError]). *)
Inductive popen_error :=
| CannotStart
| UndecodableOutput.

(** A command line with a NUL character cannot be passed to [/bin/sh -c]:
    [Popen] raises [ValueError] (embedded null byte). *)
Fixpoint embedded_null (cmd : string) : bool :=
  match cmd with
  | EmptyString => false
  | String c rest => Ascii.eqb c Ascii.zero || embedded_null rest
  end.

Section Runner.
(** The shell: the exit status and the combined stdout/stderr text of a
    command line that was run and whose output is text. *)
Variable shell : string → Z * string.
(** The platform: whether [Popen] or the decoding of the output fails for
    a command line. *)
Variable popen_fails : string → option popen_error.

(** [subprocess.check_output(cmd, stderr=STDOUT, universal_newlines=True,
    shell=True, cwd=os.getcwd())]. *)
Definition check_output (cmd : string) : result string :=
  match popen_fails cmd with
  | Some CannotStart => Raise OSError
  | fails =>
    if embedded_null cmd then Raise ValueError
    else
      match fails with
      | Some _ => Raise UnicodeDecodeError
      | None =>
        let '(returncode, output) := shell cmd in
        if (returncode =? 0)%Z then Ok output
        else Raise (CalledProcessError returncode output)
      end
  end.

Definition run_command (cmd : string) : result string :=
  match check_output cmd with
  | Ok output => Ok output
  | Raise (CalledProcessError _ output) => Ok output
  | Raise e => Raise e
  end.

(** One step of task [i] under the event loop; [None] when the task cannot
    move.  Nothing moves once [run_all_commands] has raised. *)
Definition advance (i : nat) (s : rstate) : option rstate :=
  match r_raised s with
  | Some _ => None
  | None =>
    match r_tasks s !! i with
    | None => None
    | Some (c, t) =>
      match t with
      | TCreated =>
        (* async with SEM: *)
        match r_SEM s with
        | None => Some (set_task i c (TFailed (NameError "SEM")) s)
        | Some v =>
          if (0 <? v)%Z then Some (set_task i c TRunning (set_sem (v - 1) s))
          else Some (set_task i c TWaiting s)
        end
      | TWaiting =>
        match r_SEM s with
        | Some v =>
          if (0 <? v)%Z then Some (set_task i c TRunning (set_sem (v - 1) s))
          else None
        | None => None
        end
      | TRunning =>
        (* output = await loop.run_in_executor(None, runner) *)
        match run_command c, r_SEM s with
        | Ok output, _ => Some (set_task i c (TSleeping output) (log_executed c s))
        | Raise e, Some v =>
          Some (set_task i c (TFailed e) (set_sem (v + 1) (log_executed c s)))
        | Raise e, None => None
        end
      | TSleeping output =>
        (* await asyncio.sleep(1); return output *)
        match r_SEM s with
        | Some v => Some (set_task i c (TDone output) (set_sem (v + 1) s))
        | None => None
        end
      | TDone output =>
        (* result = yield from f; ensure_future(process_result(result)) *)
        Some (set_task i c (TCollected output) s)
      | TCollected res =>
        (* print(result) *)
        Some (set_task i c TPrinted (print_line res s))
      | TPrinted => None
      | TFailed e =>
        (* result = yield from f  re-raises in run_all_commands *)
        Some (set_raised e s)
      end
    end
  end.

Definition step (s s' : rstate) : Prop := ∃ i, advance i s = Some s'.

Definition stuck (s : rstate) : Prop := ∀ i, advance i s = None.

(** [run_all_commands(command_list)] entered with the global [SEM] as it is
    at the call. *)
Definition run_all_commands (sem : option Z) (command_list : list string)
    (out : list string) : rstate :=
  {| r_SEM := sem; r_tasks := (λ c, (c, TCreated)) <$> command_list;
     r_executed := []; r_stdout := out; r_raised := None |}.

(** A scheduler that moves the listed tasks in turn. *)
Fixpoint run_schedule (sched : list nat) (s : rstate) : rstate :=
  match sched with
  | [] => s
  | i :: rest =>
    match advance i s with
    | Some s' => run_schedule rest s'
    | None => run_schedule rest s
    end
  end.

End Runner.

(** ** Building a keycap object *)

(** The state of a running [__init__]: the object under construction, the
    keyword arguments as the callers' dictionaries now hold them (their
    values are shared by reference through every [super().__init__( **kwargs)]),
    and, for an attribute whose value is the very list object stored under a
    keyword, that keyword. *)
Record cstate := {
  self : obj;
  kwargs : gmap string val;
  alias : gmap string string
}.

Definition get_attr (a : string) (st : cstate) : result val :=
  match self st !! a with
  | Some v => Ok v
  | None => Raise (AttributeError a)
  end.

(** [self.a[i]] *)
Definition get_item (a : string) (i : nat) (st : cstate) : result val :=
  v ← get_attr a st;
  match v with
  | VList l =>
    match l !! i with
    | Some x => Ok x
    | None => Raise IndexError
    end
  | _ => Raise TypeError
  end.

(** [self.a = v] for a value [v] built by the right-hand side. *)
Definition set_attr (a : string) (v : val) (st : cstate) : result cstate :=
  Ok {| self := <[a := v]> (self st); kwargs := kwargs st;
        alias := delete a (alias st) |}.

(** [self.a = rhs] where the right-hand side reads [self]. *)
Definition assign (a : string) (rhs : cstate → result val) (st : cstate)
    : result cstate :=
  v ← rhs st; set_attr a v st.

(** [self.a[i] = x]: the list object is updated in place, so the update
    shows in the keyword arguments and in every attribute that hold the
    same object. *)
Definition set_item (a : string) (i : nat) (x : val) (st : cstate)
    : result cstate :=
  v ← get_attr a st;
  match v with
  | VList l =>
    if decide (i < length l)%nat then
      let l' := VList (<[i := x]> l) in
      match alias st !! a with
      | None =>
        Ok {| self := <[a := l']> (self st); kwargs := kwargs st;
              alias := alias st |}
      | Some k =>
        Ok {| self := map_imap (λ b w, if decide (alias st !! b = Some k)
                                       then Some l' else Some w) (self st);
              kwargs := <[k := l']> (kwargs st);
              alias := alias st |}
      end
    else Raise IndexError
  | _ => Raise TypeError
  end.

(** [self.a = self.b] *)
Definition copy_attr (a b : string) (st : cstate) : result cstate :=
  v ← get_attr b st;
  Ok {| self := <[a := v]> (self st); kwargs := kwargs st;
        alias := match alias st !! b with
                 | Some k => <[a := k]> (alias st)
                 | None => delete a (alias st)
                 end |}.

(** [self.a, self.b = self.b, self.a] *)
Definition swap_attrs (a b : string) (st : cstate) : result cstate :=
  vb ← get_attr b st;
  va ← get_attr a st;
  let al := alias st in
  let put (x : string) (k : option string) (m : gmap string string) :=
    match k with Some k => <[x := k]> m | None => delete x m end in
  Ok {| self := <[b := va]> (<[a := vb]> (self st)); kwargs := kwargs st;
        alias := put b (al !! a) (put a (al !! b) al) |}.

(** Modelled from the spec: [Keycap.postinit] (keycap.py is not under src/).
    The spec has the records "built via shallow inheritance + keyword
    overrides": every keyword becomes the attribute of that name.
    [shared] tells whether the dictionary is the caller's [kwargs] (the
    attribute then holds the keyword's own list object) or a deep copy. *)
Definition postinit (kw : gmap string val) (shared : bool) (st : cstate)
    : result cstate :=
  Ok {| self := kw ∪ self st; kwargs := kwargs st;
        alias := if shared then map_imap (λ k _, Some k) kw ∪ alias st
                 else filter (λ ak, kw !! ak.1 = None) (alias st) |}.

(** [kwargs_copy = deepcopy(kwargs)], in scope for the rest of the body. *)
Definition with_kwargs_copy (body : gmap string val → cstate → result cstate)
    (st : cstate) : result cstate :=
  body (kwargs st) st.

(** [self.postinit( **kwargs)] in a subclass, which received every keyword. *)
Definition postinit_kwargs (st : cstate) : result cstate :=
  postinit (kwargs st) true st.

Definition seq (f g : cstate → result cstate) (st : cstate) : result cstate :=
  f st ≫= g.
Infix ">>" := seq (at level 61, left associativity).

(** Python's truth value of an object. *)
Definition truthy (v : val) : bool :=
  match v with
  | VNone => false
  | VBool b => b
  | VInt z => negb (z =? 0)%Z
  | VFloat f => negb (PrimFloat.eqb f 0%float)
  | VStr s => negb (String.eqb s EmptyString)
  | VPath _ => true
  | VList l => negb (bool_decide (l = []))
  end.

Definition ints (l : list Z) : val := VList (VInt <$> l).
Definition strs (l : list string) : val := VList (VStr <$> l).
Definition floats (l : list float) : val := VList (VFloat <$> l).

Definition OPENSCAD_PATH : string := "deps/OpenSCAD-2023.09.30.ai16393-x86_64.AppImage".
Definition COLORSCAD_PATH : string := "deps/colorscad/colorscad.sh".
Definition KEY_UNIT : float := 19.05%float.
Definition BETWEENSPACE : float := 0.8%float.
Definition FILE_TYPE : string := "3mf".

Definition GOTHAM : val := VStr "Gotham Rounded:style=Bold".
Definition FONT_AWESOME : val := VStr "Font Awesome 6 Free:style=Solid".

Definition zeros : val := ints [0; 0; 0]%Z.

Section Classes.
(** The attributes [Keycap.__init__] gives an object when no keyword
    overrides them (keycap.py is not under src/). *)
Variable Keycap_defaults : obj.

(** Modelled from the spec: [Keycap.__init__] (keycap.py is not under
    src/), called as [super().__init__( **kwargs, openscad_path=...,
    colorscad_path=...)].  The spec has the records "built via shallow
    inheritance + keyword overrides": the keywords override the defaults.
    A keyword given twice is a [TypeError] of the call itself. *)
Definition Keycap_init (base_kwargs all_kwargs : gmap string val)
    : result cstate :=
  if decide (is_Some (base_kwargs !! "openscad_path")
             ∨ is_Some (base_kwargs !! "colorscad_path")) then Raise TypeError
  else
    Ok {| self := <["openscad_path" := VPath OPENSCAD_PATH]>
                    (<["colorscad_path" := VPath COLORSCAD_PATH]> base_kwargs)
                  ∪ Keycap_defaults;
          kwargs := all_kwargs;
          alias := map_imap (λ k _, Some k) base_kwargs |}.

Definition set_homing_dot : cstate → result cstate :=
  set_attr "homing_dot_length" (VFloat 1.5)
  >> set_attr "homing_dot_width" (VFloat 1.5)
  >> set_attr "homing_dot_x" (VInt 0)
  >> set_attr "homing_dot_y" (VInt (-3))
  >> set_attr "homing_dot_z" (VFloat (-0.45)).

(** [ergodox_ft_base.__init__(self, homing_dot=False, **kwargs)] *)
Definition ergodox_ft_base (kw : gmap string val) : result cstate :=
  let homing_dot := default (VBool false) (kw !! "homing_dot") in
  st ← Keycap_init (delete "homing_dot" kw) kw;
  (set_attr "render" (strs ["keycap"; "stem"])
   >> set_attr "file_type" (VStr FILE_TYPE)
   >> set_attr "key_profile" (VStr "riskeycap")
   >> set_attr "key_rotation" (VList [VFloat 110.1; VInt 0; VInt 0])
   >> set_attr "wall_thickness" (VFloat (0.45 * 2.7))
   >> set_attr "uniform_wall_thickness" (VBool true)
   >> set_attr "dish_thickness" (VFloat 1.0)
   >> set_attr "dish_corner_fn" (VInt 40)
   >> set_attr "polygon_layers" (VInt 4)
   >> set_attr "stem_height" (VInt 4)
   >> set_attr "stem_type" (VStr "round_cherry")
   >> set_attr "stem_inset" (VFloat (-0.5))
   >> set_attr "stem_walls_inset" (VInt 0)
   >> set_attr "stem_inside_tolerance" (VFloat 0.15)
   >> set_attr "stem_side_supports" (ints [0; 0; 1; 0]%Z)
   >> set_attr "stem_locations" (VList [zeros])
   >> set_attr "scale" (VList [ints [1; 1; 3]%Z; ints [1; 1; 3]%Z])
   >> set_attr "fonts" (VList [GOTHAM; GOTHAM])
   >> set_attr "font_sizes" (floats [4.5; 3.5]%float)
   >> set_attr "trans" (VList [VList [VInt 0; VFloat (-2.6); VInt 0];
                               ints [0; -2; 2]%Z])
   >> set_attr "rotation" (VList [ints [-20; 0; 0]%Z; ints [68; 0; 0]%Z])
   >> (if truthy homing_dot then set_homing_dot else Ok)
   >> (λ st, postinit (delete "homing_dot" (kwargs st)) true st)) st.

(** The statements of each subclass's [__init__] after
    [super().__init__( **kwargs)]. *)
Definition init_wpm : cstate → result cstate :=
  set_item "font_sizes" 1 (VInt 2).

Definition init_icons : cstate → result cstate :=
  set_attr "fonts" (VList [FONT_AWESOME; FONT_AWESOME])
  >> set_attr "font_sizes" (VList [VInt 5; VFloat 3.9]).

Definition init_icons_90top : cstate → result cstate :=
  with_kwargs_copy (λ kwargs_copy,
    assign "rotation2" (λ st, r ← get_item "rotation" 0 st; Ok (VList [r; zeros]))
    >> set_item "rotation" 0 (ints [0; 0; 90]%Z)
    >> assign "trans2" (λ st, t ← get_item "trans" 0 st; Ok (VList [t; zeros]))
    >> set_item "trans" 0 zeros
    >> postinit kwargs_copy false).

Definition init_pgupdn : cstate → result cstate :=
  with_kwargs_copy (λ kwargs_copy,
    set_item "font_sizes" 1 (VFloat 3.7)
    >> assign "rotation2" (λ st, r ← get_item "rotation" 1 st; Ok (VList [zeros; r]))
    >> set_item "rotation" 1 (ints [0; 0; 90]%Z)
    >> set_attr "trans2" (VList [zeros; VList [VInt 0; VInt (-2); VFloat 1.6]])
    >> set_item "trans" 1 zeros
    >> postinit kwargs_copy false).

Definition init_front_icon : cstate → result cstate :=
  set_item "fonts" 1 FONT_AWESOME
  >> set_item "font_sizes" 1 (VFloat 3.9).

Definition init_text : cstate → result cstate :=
  with_kwargs_copy (λ kwargs_copy,
    set_item "font_sizes" 0 (VInt 4)
    >> postinit kwargs_copy false).

Definition init_gem : cstate → result cstate :=
  set_attr "key_profile" (VStr "gem")
  >> set_attr "key_rotation" (VList [VFloat 108.6; VInt 0; VInt 0]).

Definition init_gem_front_icon : cstate → result cstate :=
  set_attr "key_profile" (VStr "gem")
  >> set_attr "key_rotation" (VList [VFloat 108.6; VInt 0; VInt 0]).

Definition init_multi : cstate → result cstate :=
  set_attr "fonts" (VList [GOTHAM; GOTHAM; GOTHAM; GOTHAM])
  >> set_attr "font_sizes" (floats [4.5; 4.5; 4.5; 3.5]%float)
  >> set_attr "trans" (VList [VList [VFloat (-2.6); VFloat (-2.6); VInt 0];
                              VList [VInt 0; VFloat (-2.6); VInt 0];
                              VList [VFloat 2.6; VFloat (-2.6); VInt 0];
                              ints [0; -2; 2]%Z])
  >> set_attr "rotation" (VList [ints [-20; 0; 0]%Z; ints [-20; 0; 0]%Z;
                                 ints [-20; 0; 0]%Z; ints [68; 0; 0]%Z])
  >> set_attr "scale" (VList [ints [1; 1; 3]%Z; ints [1; 1; 3]%Z;
                              ints [1; 1; 3]%Z; ints [1; 1; 3]%Z])
  >> postinit_kwargs.

Definition init_tilde : cstate → result cstate :=
  set_item "font_sizes" 0 (VFloat 6.5)
  >> set_item "font_sizes" 2 (VFloat 5.5)
  >> set_item "fonts" 3 FONT_AWESOME.

Definition init_2 : cstate → result cstate :=
  set_item "scale" 2 (VList [VFloat 0.85; VInt 1; VInt 1]).

Definition init_3 : cstate → result cstate :=
  set_item "font_sizes" 2 (VFloat 4.5).

Definition init_5 : cstate → result cstate :=
  set_item "font_sizes" 2 (VInt 4).

Definition init_6 : cstate → result cstate :=
  set_item "font_sizes" 2 (VFloat 5.8)
  >> set_item "trans" 2 (VList [VFloat 2.6; VFloat 4.1; VInt 0])
  >> set_item "fonts" 3 FONT_AWESOME.

Definition init_7 : cstate → result cstate :=
  set_item "font_sizes" 2 (VFloat 4.5).

Definition init_8 : cstate → result cstate :=
  set_item "font_sizes" 2 (VFloat 8.5).

Definition init_0 : cstate → result cstate :=
  set_item "font_sizes" 3 (VFloat 6.6).

Definition init_slash : cstate → result cstate :=
  with_kwargs_copy (λ kwargs_copy,
    set_item "fonts" 3 FONT_AWESOME
    >> set_item "font_sizes" 3 (VFloat 3.9)
    >> assign "rotation2"
         (λ st, r ← get_item "rotation" 3 st; Ok (VList [zeros; zeros; zeros; r]))
    >> set_item "rotation" 3 (ints [0; 0; -90]%Z)
    >> assign "trans2"
         (λ st, t ← get_item "trans" 3 st; Ok (VList [zeros; zeros; zeros; t]))
    >> set_item "trans" 3 zeros
    >> postinit kwargs_copy false).

Definition init_1_5U : cstate → result cstate :=
  with_kwargs_copy (λ kwargs_copy,
    set_attr "key_length" (VFloat (KEY_UNIT * 1.5 - BETWEENSPACE))
    >> set_attr "key_rotation" (VList [VFloat 109.335; VInt 0; VInt 0])
    >> postinit kwargs_copy false).

Definition init_1_5U_front_icon : cstate → result cstate :=
  set_item "fonts" 3 FONT_AWESOME
  >> set_item "font_sizes" 3 (VFloat 3.9).

Definition init_dash : cstate → result cstate :=
  set_item "trans" 2 (VList [VFloat 2.8; VFloat 1.1; VInt 0])
  >> set_item "scale" 2 (VList [VFloat 0.8; VInt 1; VInt 3]).

Definition init_semicolon : cstate → result cstate :=
  set_item "trans" 0 (VList [VFloat (-2.6); VFloat 2.1; VInt 0])
  >> set_item "trans" 2 (VList [VFloat 2.6; VFloat 2.6; VInt 0]).

Definition init_1_5UV : cstate → result cstate :=
  with_kwargs_copy (λ kwargs_copy,
    set_attr "key_width" (VFloat (KEY_UNIT * 1.5 - BETWEENSPACE))
    >> set_attr "key_rotation" (VList [VFloat 110.095; VInt 0; VInt 0])
    >> set_item "trans" 1 (VList [VInt 0; VInt 0; VFloat (-0.65)])
    >> postinit kwargs_copy false).

Definition init_lbracket : cstate → result cstate :=
  with_kwargs_copy (λ kwargs_copy,
    set_attr "key_width" (VFloat (KEY_UNIT * 1.5 - BETWEENSPACE))
    >> set_attr "key_rotation" (VList [VFloat 110.095; VInt 0; VInt 0])
    >> set_item "fonts" 3 FONT_AWESOME
    >> set_item "font_sizes" 3 (VFloat 3.9)
    >> set_item "trans" 3 (VList [VInt 0; VInt 0; VFloat (-0.65)])
    >> postinit kwargs_copy false).

Definition init_rbracket : cstate → result cstate :=
  with_kwargs_copy (λ kwargs_copy,
    assign "rotation2"
      (λ st, r ← get_item "rotation" 3 st; Ok (VList [zeros; zeros; zeros; r]))
    >> set_item "rotation" 3 (ints [0; 0; -90]%Z)
    >> assign "trans2"
         (λ st, t ← get_item "trans" 3 st; Ok (VList [zeros; zeros; zeros; t]))
    >> set_item "trans" 3 zeros
    >> postinit kwargs_copy false).

Definition init_2UV_icon : cstate → result cstate :=
  with_kwargs_copy (λ kwargs_copy,
    set_attr "key_length" (VFloat (KEY_UNIT * 2 - BETWEENSPACE))
    >> set_attr "key_rotation" (VList [VInt 0; VFloat (-110.095); VInt 90])
    >> set_attr "stem_locations"
         (VList [zeros; ints [12; 0; 0]%Z; ints [-12; 0; 0]%Z])
    >> copy_attr "rotation2" "rotation"
    >> set_attr "rotation" (VList [ints [0; 0; -90]%Z])
    >> swap_attrs "trans" "trans2"
    >> set_item "trans2" 1 (VList [VInt 0; VInt 0; VFloat (-2.8)])
    >> set_attr "fonts" (VList [FONT_AWESOME])
    >> set_attr "font_sizes" (VList [VInt 5])
    >> set_attr "stem_side_supports" (ints [1; 0; 0; 0]%Z)
    >> postinit kwargs_copy false).

Definition init_enter : cstate → result cstate :=
  with_kwargs_copy (λ kwargs_copy,
    set_attr "rotation" (VList [ints [0; 0; 180]%Z])
    >> postinit kwargs_copy false).

Definition init_space : cstate → result cstate :=
  with_kwargs_copy (λ kwargs_copy,
    set_attr "key_length" (VFloat (KEY_UNIT * 2 - BETWEENSPACE))
    >> set_attr "dish_invert" (VBool true)
    >> set_attr "use_colorscad" (VBool false)
    >> set_attr "key_rotation" (VList [VInt 0; VFloat (-113.651); VInt 90])
    >> set_attr "polygon_layers" (VInt 16)
    >> postinit kwargs_copy false).

(** The classes: each constructor runs its parent's, then its own body. *)
Definition ergodox_ft_wpm kw := ergodox_ft_base kw ≫= init_wpm.
Definition ergodox_ft_icons kw := ergodox_ft_base kw ≫= init_icons.
Definition ergodox_ft_icons_90top kw := ergodox_ft_icons kw ≫= init_icons_90top.
Definition ergodox_ft_pgupdn kw := ergodox_ft_icons kw ≫= init_pgupdn.
Definition ergodox_ft_front_icon kw := ergodox_ft_base kw ≫= init_front_icon.
Definition ergodox_ft_text kw := ergodox_ft_base kw ≫= init_text.
Definition ergodox_ft_gem kw := ergodox_ft_base kw ≫= init_gem.
Definition ergodox_ft_gem_front_icon kw :=
  ergodox_ft_front_icon kw ≫= init_gem_front_icon.
Definition ergodox_ft_multi kw := ergodox_ft_base kw ≫= init_multi.
Definition ergodox_ft_tilde kw := ergodox_ft_multi kw ≫= init_tilde.
Definition ergodox_ft_2 kw := ergodox_ft_multi kw ≫= init_2.
Definition ergodox_ft_3 kw := ergodox_ft_multi kw ≫= init_3.
Definition ergodox_ft_5 kw := ergodox_ft_multi kw ≫= init_5.
Definition ergodox_ft_6 kw := ergodox_ft_multi kw ≫= init_6.
Definition ergodox_ft_7 kw := ergodox_ft_multi kw ≫= init_7.
Definition ergodox_ft_8 kw := ergodox_ft_multi kw ≫= init_8.
Definition ergodox_ft_0 kw := ergodox_ft_multi kw ≫= init_0.
Definition ergodox_ft_slash kw := ergodox_ft_multi kw ≫= init_slash.
Definition ergodox_ft_1_5U kw := ergodox_ft_multi kw ≫= init_1_5U.
Definition ergodox_ft_1_5U_front_icon kw :=
  ergodox_ft_1_5U kw ≫= init_1_5U_front_icon.
Definition ergodox_ft_dash kw := ergodox_ft_1_5U kw ≫= init_dash.
Definition ergodox_ft_semicolon kw := ergodox_ft_1_5U kw ≫= init_semicolon.
Definition ergodox_ft_1_5UV kw := ergodox_ft_base kw ≫= init_1_5UV.
Definition ergodox_ft_lbracket kw := ergodox_ft_multi kw ≫= init_lbracket.
Definition ergodox_ft_rbracket kw := ergodox_ft_lbracket kw ≫= init_rbracket.
Definition ergodox_ft_2UV_icon kw := ergodox_ft_base kw ≫= init_2UV_icon.
Definition ergodox_ft_enter kw := ergodox_ft_2UV_icon kw ≫= init_enter.
Definition ergodox_ft_space kw := ergodox_ft_2UV_icon kw ≫= init_space.

(** The class hierarchy of the script. *)
Inductive cls :=
| C_base | C_wpm | C_icons | C_icons_90top | C_pgupdn | C_front_icon | C_text
| C_gem | C_gem_front_icon | C_multi | C_tilde | C_2 | C_3 | C_5 | C_6 | C_7
| C_8 | C_0 | C_slash | C_1_5U | C_1_5U_front_icon | C_dash | C_semicolon
| C_1_5UV | C_lbracket | C_rbracket | C_2UV_icon | C_enter | C_space.

Definition parent (c : cls) : option cls :=
  match c with
  | C_base => None
  | C_wpm | C_icons | C_front_icon | C_text | C_gem | C_multi | C_1_5UV
  | C_2UV_icon => Some C_base
  | C_icons_90top | C_pgupdn => Some C_icons
  | C_gem_front_icon => Some C_front_icon
  | C_tilde | C_2 | C_3 | C_5 | C_6 | C_7 | C_8 | C_0 | C_slash | C_1_5U
  | C_lbracket => Some C_multi
  | C_1_5U_front_icon | C_dash | C_semicolon => Some C_1_5U
  | C_rbracket => Some C_lbracket
  | C_enter | C_space => Some C_2UV_icon
  end.

Definition construct (c : cls) : gmap string val → result cstate :=
  match c with
  | C_base => ergodox_ft_base
  | C_wpm => ergodox_ft_wpm
  | C_icons => ergodox_ft_icons
  | C_icons_90top => ergodox_ft_icons_90top
  | C_pgupdn => ergodox_ft_pgupdn
  | C_front_icon => ergodox_ft_front_icon
  | C_text => ergodox_ft_text
  | C_gem => ergodox_ft_gem
  | C_gem_front_icon => ergodox_ft_gem_front_icon
  | C_multi => ergodox_ft_multi
  | C_tilde => ergodox_ft_tilde
  | C_2 => ergodox_ft_2
  | C_3 => ergodox_ft_3
  | C_5 => ergodox_ft_5
  | C_6 => ergodox_ft_6
  | C_7 => ergodox_ft_7
  | C_8 => ergodox_ft_8
  | C_0 => ergodox_ft_0
  | C_slash => ergodox_ft_slash
  | C_1_5U => ergodox_ft_1_5U
  | C_1_5U_front_icon => ergodox_ft_1_5U_front_icon
  | C_dash => ergodox_ft_dash
  | C_semicolon => ergodox_ft_semicolon
  | C_1_5UV => ergodox_ft_1_5UV
  | C_lbracket => ergodox_ft_lbracket
  | C_rbracket => ergodox_ft_rbracket
  | C_2UV_icon => ergodox_ft_2UV_icon
  | C_enter => ergodox_ft_enter
  | C_space => ergodox_ft_space
  end.

(** The body a class runs after its parent's constructor. *)
Definition body (c : cls) : cstate → result cstate :=
  match c with
  | C_base => Ok
  | C_wpm => init_wpm
  | C_icons => init_icons
  | C_icons_90top => init_icons_90top
  | C_pgupdn => init_pgupdn
  | C_front_icon => init_front_icon
  | C_text => init_text
  | C_gem => init_gem
  | C_gem_front_icon => init_gem_front_icon
  | C_multi => init_multi
  | C_tilde => init_tilde
  | C_2 => init_2
  | C_3 => init_3
  | C_5 => init_5
  | C_6 => init_6
  | C_7 => init_7
  | C_8 => init_8
  | C_0 => init_0
  | C_slash => init_slash
  | C_1_5U => init_1_5U
  | C_1_5U_front_icon => init_1_5U_front_icon
  | C_dash => init_dash
  | C_semicolon => init_semicolon
  | C_1_5UV => init_1_5UV
  | C_lbracket => init_lbracket
  | C_rbracket => init_rbracket
  | C_2UV_icon => init_2UV_icon
  | C_enter => init_enter
  | C_space => init_space
  end.

(** The attributes a subclass's [__init__] assigns, whole or by item, in
    its own body. *)
Definition listed (c : cls) : list string :=
  match c with
  | C_base => []
  | C_wpm | C_text | C_3 | C_5 | C_7 | C_8 | C_0 => ["font_sizes"]
  | C_icons | C_front_icon | C_1_5U_front_icon => ["fonts"; "font_sizes"]
  | C_icons_90top | C_rbracket => ["rotation2"; "rotation"; "trans2"; "trans"]
  | C_pgupdn => ["font_sizes"; "rotation2"; "rotation"; "trans2"; "trans"]
  | C_gem | C_gem_front_icon => ["key_profile"; "key_rotation"]
  | C_multi => ["fonts"; "font_sizes"; "trans"; "rotation"; "scale"]
  | C_tilde => ["font_sizes"; "fonts"]
  | C_2 => ["scale"]
  | C_6 => ["font_sizes"; "trans"; "fonts"]
  | C_slash =>
    ["fonts"; "font_sizes"; "rotation2"; "rotation"; "trans2"; "trans"]
  | C_1_5U => ["key_length"; "key_rotation"]
  | C_dash => ["trans"; "scale"]
  | C_semicolon => ["trans"]
  | C_1_5UV => ["key_width"; "key_rotation"; "trans"]
  | C_lbracket => ["key_width"; "key_rotation"; "fonts"; "font_sizes"; "trans"]
  | C_2UV_icon =>
    ["key_length"; "key_rotation"; "stem_locations"; "rotation2"; "rotation";
     "trans"; "trans2"; "fonts"; "font_sizes"; "stem_side_supports"]
  | C_enter => ["rotation"]
  | C_space =>
    ["key_length"; "dish_invert"; "use_colorscad"; "key_rotation";
     "polygon_layers"]
  end.

End Classes.

(** ** The catalog *)

(** The UTF-8 bytes of one code point, and the text they spell. *)
Definition utf8 (cp : N) : list N :=
  (if cp <? 0x80 then [cp]
   else if cp <? 0x800 then [0xC0 + cp / 64; 0x80 + cp mod 64]
   else if cp <? 0x10000 then
     [0xE0 + cp / 4096; 0x80 + (cp / 64) mod 64; 0x80 + cp mod 64]
   else
     [0xF0 + cp / 262144; 0x80 + (cp / 4096) mod 64; 0x80 + (cp / 64) mod 64;
      0x80 + cp mod 64])%N.

Definition chr (cp : N) : string :=
  foldr (λ b s, String (Ascii.ascii_of_N b) s) EmptyString (utf8 cp).
Arguments chr cp%_N.

(** The keyword arguments of a call. *)
Definition kw (items : list (string * val)) : gmap string val :=
  list_to_map items.

(** The calls of the [KEYCAPS] list, in order. *)
Definition KEYCAP_TABLE : list (cls * gmap string val) := [
  (C_1_5U_front_icon, kw [("name", VStr "l_esc"); ("legends", strs [" "; "Esc"; EmptyString; chr 0xf0e7])]);
  (C_multi, kw [("name", VStr "l_1"); ("legends", strs ["1"; EmptyString; "!"; "F1"])]);
  (C_2, kw [("name", VStr "l_2"); ("legends", strs ["2"; EmptyString; "@"; "F2"])]);
  (C_3, kw [("name", VStr "l_3"); ("legends", strs ["3"; EmptyString; "#"; "F3"])]);
  (C_multi, kw [("name", VStr "l_4"); ("legends", strs ["4"; EmptyString; "$"; "F4"])]);
  (C_5, kw [("name", VStr "l_5"); ("legends", strs ["5"; EmptyString; "%"; "F5"])]);
  (C_tilde, kw [("name", VStr "l_tilde"); ("legends", strs ["`"; EmptyString; "~"; chr 0xf030])]);
  (C_text, kw [("name", VStr "r_del"); ("legends", strs ["Del"; "Ins"])]);
  (C_6, kw [("name", VStr "r_6"); ("legends", strs ["6"; EmptyString; "^"; ("# " +:+ chr 0xf023)])]);
  (C_7, kw [("name", VStr "r_7"); ("legends", strs ["7"; EmptyString; "&"; "7"])]);
  (C_8, kw [("name", VStr "r_8"); ("legends", strs ["8"; EmptyString; "*"; "8"])]);
  (C_multi, kw [("name", VStr "r_9"); ("legends", strs ["9"; EmptyString; "("; "9"])]);
  (C_0, kw [("name", VStr "r_0"); ("legends", strs ["0"; EmptyString; ")"; "*"])]);
  (C_1_5U_front_icon, kw [("name", VStr "r_equal"); ("legends", strs ["="; EmptyString; "+"; chr 0xf0e7])]);
  (C_1_5U, kw [("name", VStr "l_tab"); ("legends", strs [" "; "Tab"; EmptyString])]);
  (C_base, kw [("name", VStr "l_Q"); ("legends", strs ["Q"; "F6"])]);
  (C_base, kw [("name", VStr "l_W"); ("legends", strs ["W"; "F7"])]);
  (C_gem, kw [("name", VStr "l_W_gamer"); ("legends", strs ["W"; "F7"])]);
  (C_base, kw [("name", VStr "l_E"); ("legends", strs ["E"; "F8"])]);
  (C_base, kw [("name", VStr "l_R"); ("legends", strs ["R"; "F9"])]);
  (C_base, kw [("name", VStr "l_T"); ("legends", strs ["T"; "F10"])]);
  (C_lbracket, kw [("name", VStr "l_bracket"); ("legends", strs ["["; EmptyString; "{"; chr 0xf55a])]);
  (C_rbracket, kw [("name", VStr "r_bracket"); ("legends", strs ["]"; EmptyString; "}"; chr 0xf3be])]);
  (C_wpm, kw [("name", VStr "r_Y"); ("legends", strs ["Y"; "WPM 0"])]);
  (C_base, kw [("name", VStr "r_U"); ("legends", strs ["U"; "4"])]);
  (C_base, kw [("name", VStr "r_I"); ("legends", strs ["I"; "5"])]);
  (C_base, kw [("name", VStr "r_O"); ("legends", strs ["O"; "6"])]);
  (C_base, kw [("name", VStr "r_P"); ("legends", strs ["P"; "+"])]);
  (C_dash, kw [("name", VStr "r_dash"); ("legends", strs ["-"; EmptyString; "_"; "-"])]);
  (C_1_5U_front_icon, kw [("name", VStr "l_bslash"); ("legends", strs ["\"; EmptyString; "|"; (chr 0xf0a1 +:+ " " +:+ chr 0xf023)])]);
  (C_front_icon, kw [("name", VStr "l_A"); ("legends", strs ["A"; chr 0xf048])]);
  (C_front_icon, kw [("name", VStr "l_S"); ("legends", strs ["S"; chr 0xf027])]);
  (C_front_icon, kw [("name", VStr "l_D"); ("legends", strs ["D"; chr 0xf028])]);
  (C_gem_front_icon, kw [("name", VStr "l_A_gamer"); ("legends", strs ["A"; chr 0xf048])]);
  (C_gem_front_icon, kw [("name", VStr "l_S_gamer"); ("legends", strs ["S"; chr 0xf027])]);
  (C_gem_front_icon, kw [("name", VStr "l_D_gamer"); ("legends", strs ["D"; chr 0xf028])]);
  (C_front_icon, kw [("name", VStr "l_F"); ("legends", strs ["F"; chr 0xf051]); ("homing_dot", VBool true)]);
  (C_front_icon, kw [("name", VStr "l_G"); ("legends", strs ["G"; (chr 0xf04b +:+ " " +:+ chr 0xf04c)])]);
  (C_wpm, kw [("name", VStr "r_H"); ("legends", strs ["H"; "WPM ^"])]);
  (C_base, kw [("name", VStr "r_J"); ("legends", strs ["J"; "1"]); ("homing_dot", VBool true)]);
  (C_base, kw [("name", VStr "r_K"); ("legends", strs ["K"; "2"])]);
  (C_base, kw [("name", VStr "r_L"); ("legends", strs ["L"; "3"])]);
  (C_semicolon, kw [("name", VStr "r_semicolon"); ("legends", strs [";"; EmptyString; ":"; "="])]);
  (C_1_5U, kw [("name", VStr "r_quote"); ("legends", strs [chr 0x2019; EmptyString; chr 0x201d; "/"])]);
  (C_1_5U, kw [("name", VStr "l_shift"); ("legends", strs [" "; "Shift"; EmptyString; EmptyString])]);
  (C_front_icon, kw [("name", VStr "l_Z_bl"); ("legends", strs ["Z"; (chr 0xf0eb +:+ " " +:+ chr 0xf205)])]);
  (C_front_icon, kw [("name", VStr "l_X_bl"); ("legends", strs ["X"; (chr 0xf0eb +:+ " -")])]);
  (C_front_icon, kw [("name", VStr "l_C_bl"); ("legends", strs ["C"; (chr 0xf0eb +:+ " +")])]);
  (C_front_icon, kw [("name", VStr "l_V_bl"); ("legends", strs ["V"; (chr 0xf0eb +:+ " " +:+ chr 0xf2f1)])]);
  (C_base, kw [("name", VStr "l_Z"); ("legends", strs ["Z"])]);
  (C_base, kw [("name", VStr "l_X"); ("legends", strs ["X"])]);
  (C_base, kw [("name", VStr "l_C"); ("legends", strs ["C"])]);
  (C_base, kw [("name", VStr "l_V"); ("legends", strs ["V"])]);
  (C_base, kw [("name", VStr "l_B"); ("legends", strs ["B"])]);
  (C_1_5UV, kw [("name", VStr "l_fn"); ("legends", strs ["Fn"])]);
  (C_1_5UV, kw [("name", VStr "r_fn"); ("legends", strs ["Fn"])]);
  (C_wpm, kw [("name", VStr "r_N"); ("legends", strs ["N"; "WPM"])]);
  (C_base, kw [("name", VStr "r_M"); ("legends", strs ["M"; "0"])]);
  (C_multi, kw [("name", VStr "r_comma"); ("legends", strs [","; EmptyString; "<"; ","])]);
  (C_multi, kw [("name", VStr "r_period"); ("legends", strs ["."; EmptyString; ">"; "."])]);
  (C_slash, kw [("name", VStr "r_slash"); ("legends", strs ["/"; EmptyString; "?"; chr 0xf149])]);
  (C_1_5U, kw [("name", VStr "r_shift"); ("legends", strs [" "; "Shift"; EmptyString; EmptyString])]);
  (C_text, kw [("name", VStr "l_ctrl"); ("legends", strs ["Ctrl"])]);
  (C_front_icon, kw [("name", VStr "l_F3"); ("legends", strs ["F3"; chr 0xf0d9])]);
  (C_front_icon, kw [("name", VStr "l_F5"); ("legends", strs ["F5"; chr 0xf0d7])]);
  (C_front_icon, kw [("name", VStr "l_F11"); ("legends", strs ["F11"; chr 0xf0d8])]);
  (C_front_icon, kw [("name", VStr "l_F12"); ("legends", strs ["F12"; chr 0xf0da])]);
  (C_icons, kw [("name", VStr "r_left"); ("legends", strs [chr 0xf0d9])]);
  (C_icons, kw [("name", VStr "r_down"); ("legends", strs [chr 0xf0d7])]);
  (C_icons, kw [("name", VStr "r_up"); ("legends", strs [chr 0xf0d8])]);
  (C_icons, kw [("name", VStr "r_right"); ("legends", strs [chr 0xf0da])]);
  (C_text, kw [("name", VStr "r_ctrl"); ("legends", strs ["Ctrl"])]);
  (C_pgupdn, kw [("name", VStr "l_pgup"); ("legends", strs [chr 0xf574; chr 0xe4c2])]);
  (C_pgupdn, kw [("name", VStr "l_pgdn"); ("legends", strs [chr 0xf56d; chr 0xe4b8])]);
  (C_space, kw [("name", VStr "l_space")]);
  (C_enter, kw [("name", VStr "l_enter"); ("legends", strs [chr 0xf3be])]);
  (C_icons_90top, kw [("name", VStr "l_super"); ("legends", strs [chr 0xf197; chr 0xf0c9])]);
  (C_text, kw [("name", VStr "l_alt"); ("legends", strs ["Alt"])]);
  (C_icons_90top, kw [("name", VStr "r_home"); ("legends", strs [chr 0xe4c2; chr 0xf574])]);
  (C_icons_90top, kw [("name", VStr "r_end"); ("legends", strs [chr 0xe4b8; chr 0xf56d])]);
  (C_2UV_icon, kw [("name", VStr "r_backspace"); ("legends", strs [chr 0xf55a])]);
  (C_space, kw [("name", VStr "r_space")]);
  (C_icons, kw [("name", VStr "r_compose"); ("legends", strs [chr 0xf5ad])]);
  (C_text, kw [("name", VStr "r_alt"); ("legends", strs ["AltGr"]); ("font_sizes", VList [VInt 3])])
].

Section Catalog.
Variable Keycap_defaults : obj.

(** [KEYCAPS = [...]], evaluated when the module is loaded. *)
Definition build_KEYCAPS : result (list obj) :=
  mapM (λ ck, self <$> construct Keycap_defaults ck.1 ck.2) KEYCAP_TABLE.

End Catalog.

(** ** The [__main__] block *)

(** The result of [parser.parse_args()]. *)
Record Args := {
  out : string;
  jobs : Z;
  force : bool;
  skip_colorscad : bool;
  transparent : bool;
  legends : bool;
  keycaps : bool;
  names : list string
}.

(** What [parse_args] returns for an empty command line: every default. *)
Definition default_args : Args :=
  {| out := "."; jobs := 8; force := false; skip_colorscad := false;
     transparent := false; legends := false; keycaps := false; names := [] |}.

(** colorama's [Style.BRIGHT] and [Style.RESET_ALL]. *)
Definition ESC : string := String (Ascii.ascii_of_nat 27) EmptyString.
Definition NEWLINE : string := String (Ascii.ascii_of_nat 10) EmptyString.
Definition BRIGHT : string := ESC +:+ "[1m".
Definition RESET_ALL : string := ESC +:+ "[0m".

(** What one pass of a loop body over one keycap did: the object as the
    body left it, the commands it appended, the lines it printed, and
    whether it set [matched]. *)
Record visit := {
  v_keycap : obj;
  v_commands : list string;
  v_prints : list string;
  v_matched : bool
}.

Definition attr (o : obj) (a : string) : result val :=
  match o !! a with
  | Some v => Ok v
  | None => Raise (AttributeError a)
  end.

(** [legend.legends == [""]] with the one-element list of the empty string. *)
Definition no_legends (v : val) : bool :=
  match v with
  | VList [VStr s] => String.eqb s EmptyString
  | _ => false
  end.

Section Script.
(** [Keycap.__str__] (keycap.py is not under src/): the render command of
    an object. *)
Variable Keycap_str : obj → string.
(** Python's [str()] on a value that is not a string. *)
Variable py_str : val → string.
(** Python's [str.lower]. *)
Variable str_lower : string → string.
(** The text [parser.print_help()] prints. *)
Variable argparse_help : string.
(** The file system, with [os.path.exists] and [os.mkdir]. *)
Variable FS : Type.
Variable path_exists : FS → string → bool.
Variable os_mkdir : FS → string → result FS.

(** The module globals the block reads and writes, standard output (one
    entry per [print] call) and the file system. *)
Record world := {
  SEM : option Z;
  COMMANDS : list string;
  KEYCAPS : list obj;
  stdout : list string;
  fs : FS
}.

(** An action of the script: it returns or raises, and leaves a world. *)
Definition M (A : Type) : Type := world → result A * world.

#[local] Instance M_ret : MRet M := λ A a w, (Ok a, w).
#[local] Instance M_bind : MBind M := λ A B f m w,
  match m w with
  | (Ok a, w') => f a w'
  | (Raise e, w') => (Raise e, w')
  end.

Definition raise {A} (e : exn) : M A := λ w, (Raise e, w).

Definition lift {A} (r : result A) : M A := λ w, (r, w).

Definition print (line : string) : M unit := λ w,
  (Ok tt, {| SEM := SEM w; COMMANDS := COMMANDS w;
             KEYCAPS := KEYCAPS w;
             stdout := stdout w ++ [line]; fs := fs w |}).

Definition set_SEM (v : Z) : M unit := λ w,
  (Ok tt, {| SEM := Some v; COMMANDS := COMMANDS w;
             KEYCAPS := KEYCAPS w;
             stdout := stdout w; fs := fs w |}).

Definition set_fs (f : FS) : M unit := λ w,
  (Ok tt, {| SEM := SEM w; COMMANDS := COMMANDS w;
             KEYCAPS := KEYCAPS w;
             stdout := stdout w; fs := f |}).

Definition set_keycaps (ks : list obj) (w : world) : world :=
  {| SEM := SEM w; COMMANDS := COMMANDS w; KEYCAPS := ks;
     stdout := stdout w; fs := fs w |}.

(** The prints and [COMMANDS.append] calls of one visit. *)
Definition emit (v : visit) (w : world) : world :=
  {| SEM := SEM w; COMMANDS := COMMANDS w ++ v_commands v;
     KEYCAPS := KEYCAPS w;
     stdout := stdout w ++ v_prints v; fs := fs w |}.

(** A value inside an f-string. *)
Definition format (v : val) : string :=
  match v with
  | VStr s => s
  | _ => py_str v
  end.

(** [", ".join(a.name for a in KEYCAPS)] *)
Fixpoint join (sep : string) (l : list string) : string :=
  match l with
  | [] => EmptyString
  | [s] => s
  | s :: rest => s +:+ sep +:+ join sep rest
  end.

Definition as_str (v : val) : result string :=
  match v with
  | VStr s => Ok s
  | _ => Raise TypeError
  end.

Definition keycap_names (ks : list obj) : result string :=
  vs ← mapM (λ a, attr a "name") ks;
  ss ← mapM as_str vs;
  Ok (join ", " ss).

Definition print_keycaps : M unit :=
  _ ← print (BRIGHT +:+ "Here's all the keycaps we can render:" +:+ NEWLINE
             +:+ RESET_ALL);
  ks ← (λ w, (Ok (KEYCAPS w), w));
  keycap_names ← lift (keycap_names ks);
  print keycap_names.

(** [f"{args.out}/{keycap.name}.{keycap.file_type}"] *)
Definition output_file (args : Args) (keycap : obj) : result string :=
  name ← attr keycap "name";
  file_type ← attr keycap "file_type";
  Ok (out args +:+ "/" +:+ format name +:+ "." +:+ format file_type).

Definition skipping (path : string) : string :=
  BRIGHT +:+ path +:+ " exists; skipping..." +:+ RESET_ALL.

Definition rendering (path : string) : string :=
  BRIGHT +:+ "Rendering " +:+ path +:+ "..." +:+ RESET_ALL.

(** [if args.skip_colorscad: ...] and [if args.transparent: ...] *)
Definition apply_flags (args : Args) (keycap : obj) : obj :=
  let keycap :=
    if skip_colorscad args then <["use_colorscad" := VBool false]> keycap
    else keycap in
  if transparent args then <["stem_color" := VStr "#505050"]> keycap
  else keycap.

(** The body of [for keycap in KEYCAPS] in full-batch mode. *)
Definition render_keycap (args : Args) (files : FS) (keycap : obj)
    : result visit :=
  let keycap := <["output_path" := VStr (out args)]> keycap in
  path ← output_file args keycap;
  if negb (force args) && path_exists files path then
    Ok {| v_keycap := keycap; v_commands := [];
          v_prints := [skipping path]; v_matched := false |}
  else
    let keycap := apply_flags args keycap in
    Ok {| v_keycap := keycap; v_commands := [Keycap_str keycap];
          v_prints := [rendering path; Keycap_str keycap];
          v_matched := false |}.

(** The body of [for legend in KEYCAPS] in full-batch mode. *)
Definition render_legend (args : Args) (files : FS) (legend : obj)
    : result visit :=
  l ← attr legend "legends";
  if no_legends l then
    Ok {| v_keycap := legend; v_commands := []; v_prints := [];
          v_matched := false |}
  else
    name ← attr legend "name";
    let legend := <["name" := VStr (format name +:+ "_legends")]> legend in
    let legend := <["output_path" := VStr (out args)]> legend in
    let legend := <["render" := strs ["legends"]]> legend in
    let legend := <["file_type" := VStr "stl"]> legend in
    path ← output_file args legend;
    if negb (force args) && path_exists files path then
      Ok {| v_keycap := legend; v_commands := [];
            v_prints := [skipping path]; v_matched := false |}
    else
      let legend := apply_flags args legend in
      Ok {| v_keycap := legend; v_commands := [Keycap_str legend];
            v_prints := [rendering path; Keycap_str legend];
            v_matched := false |}.

(** [keycap.name.lower() == name.lower()] *)
Definition name_matches (keycap : obj) (name : string) : result bool :=
  v ← attr keycap "name";
  match v with
  | VStr s => Ok (String.eqb (str_lower s) (str_lower name))
  | _ => Raise (AttributeError "lower")
  end.

(** The body of [for keycap in KEYCAPS] for one requested [name]. *)
Definition render_named (args : Args) (files : FS) (name : string)
    (keycap : obj) : result visit :=
  hit ← name_matches keycap name;
  if negb hit then
    Ok {| v_keycap := keycap; v_commands := []; v_prints := [];
          v_matched := false |}
  else
    let keycap := <["output_path" := VStr (out args)]> keycap in
    path ← output_file args keycap;
    let exists_ := negb (force args) && path_exists files path in
    let skipped := if exists_ then [skipping path] else [] in
    let keycap := apply_flags args keycap in
    let printed := if exists_ then [] else [rendering path; Keycap_str keycap] in
    let appended := if exists_ then [] else [Keycap_str keycap] in
    if legends args then
      kname ← attr keycap "name";
      let keycap := <["name" := VStr (format kname +:+ "_legends")]> keycap in
      let keycap := <["file_type" := VStr "stl"]> keycap in
      lpath ← output_file args keycap;
      if path_exists files lpath then
        Ok {| v_keycap := keycap; v_commands := appended;
              v_prints := skipped ++ printed ++ [skipping lpath];
              v_matched := true |}
      else
        Ok {| v_keycap := keycap;
              v_commands := appended ++ [Keycap_str keycap];
              v_prints := skipped ++ printed
                          ++ [rendering lpath; Keycap_str keycap];
              v_matched := true |}
    else
      Ok {| v_keycap := keycap; v_commands := appended;
            v_prints := skipped ++ printed; v_matched := true |}.

(** [for keycap in KEYCAPS: body]: the objects are changed in place, one
    after the other.  A body raises only at an attribute access
    ([AttributeError] for a record without a name or a file type, which
    no record of the catalog is); the loop then ends with the objects
    before it changed and the rest as they were, the object it raised on
    counted with the rest: what a body assigned to it before the failing
    access ([output_path] and the two flag attributes at most) is not
    kept. *)
Fixpoint for_keycaps (body : obj → result visit) (done todo : list obj)
    (matched : bool) : M bool :=
  match todo with
  | [] => λ w, (Ok matched, set_keycaps done w)
  | keycap :: rest =>
    match body keycap with
    | Raise e => λ w, (Raise e, set_keycaps (done ++ keycap :: rest) w)
    | Ok v => λ w,
      for_keycaps body (done ++ [v_keycap v]) rest (matched || v_matched v)
        (emit v w)
    end
  end.

Definition each_keycap (body : FS → obj → result visit) (matched : bool)
    : M bool := λ w,
  for_keycaps (body (fs w)) [] (KEYCAPS w) matched w.

(** [for name in args.names: for keycap in KEYCAPS: ...] *)
Fixpoint names_loop (args : Args) (requested : list string) (matched : bool)
    : M bool :=
  match requested with
  | [] => mret matched
  | name :: rest =>
    matched ← each_keycap (λ files, render_named args files name) matched;
    names_loop args rest matched
  end.

Definition names_branch (args : Args) : M unit :=
  matched ← names_loop args (names args) false;
  if matched : bool then mret tt
  else print ("Cound not find a keycap named "
              +:+ default EmptyString (last (names args))).

Definition render_pass (args : Args) : M unit :=
  _ ← each_keycap (render_keycap args) false; mret tt.

Definition legends_pass (args : Args) : M unit :=
  _ ← each_keycap (render_legend args) false; mret tt.

Definition full_batch (args : Args) : M unit :=
  _ ← render_pass args;
  if legends args then legends_pass args else mret tt.

(** Lines 652-753: the help and listing exits, the output directory and
    the generation of the commands.  [argc] is [len(sys.argv)]. *)
Definition dispatch (argc : nat) (args : Args) : M unit :=
  if decide (argc = 1%nat) then
    _ ← print argparse_help;
    _ ← print EmptyString;
    _ ← print_keycaps;
    raise (SystemExit 1)
  else if keycaps args then
    _ ← print_keycaps;
    raise (SystemExit 1)
  else
    files ← (λ w, (Ok (fs w), w));
    _ ← (if path_exists files (out args) then mret tt
         else
           _ ← print (BRIGHT +:+ "Output path, '" +:+ out args
                      +:+ "' does not exist; making it..." +:+ RESET_ALL);
           files' ← lift (os_mkdir files (out args));
           set_fs files');
    _ ← print (BRIGHT +:+ "Outputting to: " +:+ out args +:+ RESET_ALL);
    match names args with
    | [] => full_batch args
    | _ :: _ => names_branch args
    end.

(** Lines 650-753: everything before the event loop is started; line 651
    binds the global [SEM]. *)
Definition generate (argc : nat) (args : Args) : M unit :=
  sem ← lift (Semaphore (jobs args));
  _ ← set_SEM sem;
  dispatch argc args.

(** Lines 754-755: [run_all_commands()] takes [COMMANDS], the list the
    block appended to, and looks [SEM] up among the globals. *)
Definition start_runner (w : world) : rstate :=
  run_all_commands (SEM w) (COMMANDS w) (stdout w).

(** The world after the module's top-level statements (lines 1-621) for a
    catalog that was built: [SEM] is not bound (lines 55-56 are comments). *)
Definition module_loaded (ks : list obj) (files : FS) : world :=
  {| SEM := None; COMMANDS := []; KEYCAPS := ks; stdout := [];
     fs := files |}.

End Script.

#[global] Existing Instance M_ret.
#[global] Existing Instance M_bind.

Arguments SEM {FS} w.
Arguments COMMANDS {FS} w.
Arguments KEYCAPS {FS} w.
Arguments stdout {FS} w.
Arguments fs {FS} w.
Arguments print {FS} line w.
Arguments set_SEM {FS} v w.
Arguments set_fs {FS} f w.
Arguments set_keycaps {FS} ks w.
Arguments emit {FS} v w.
Arguments raise {FS A} e w.
Arguments lift {FS A} r w.
Arguments print_keycaps {FS}.
Arguments for_keycaps {FS} body done todo matched.
Arguments each_keycap {FS} body matched.
Arguments names_loop Keycap_str py_str str_lower {FS} path_exists args requested matched.
Arguments names_branch Keycap_str py_str str_lower {FS} path_exists args.
Arguments render_pass Keycap_str py_str {FS} path_exists args.
Arguments legends_pass Keycap_str py_str {FS} path_exists args.
Arguments full_batch Keycap_str py_str {FS} path_exists args.
Arguments dispatch Keycap_str py_str str_lower argparse_help {FS} path_exists os_mkdir argc args.
Arguments generate Keycap_str py_str str_lower argparse_help {FS} path_exists os_mkdir argc args.
Arguments render_keycap Keycap_str py_str {FS} path_exists args files keycap.
Arguments render_legend Keycap_str py_str {FS} path_exists args files legend.
Arguments render_named Keycap_str py_str str_lower {FS} path_exists args files name keycap.
Arguments start_runner {FS} w.
Arguments module_loaded {FS} ks files.

(** ** A platform to run the script on

    Stand-ins for what the script takes from outside (keycap.py, the
    interpreter, argparse, the file system and the shell), used where a
    statement is evaluated on concrete input. *)

Definition sample_defaults : obj :=
  kw [("name", VNone); ("legends", strs [EmptyString]);
      ("output_path", VPath "."); ("trans2", VList [zeros]);
      ("rotation2", VList [zeros])].

Definition sample_py_str (v : val) : string :=
  match v with
  | VNone => "None"
  | VBool true => "True"
  | VBool false => "False"
  | VPath p => p
  | _ => "?"
  end.

Definition sample_str (o : obj) : string :=
  match o !! "name", o !! "file_type" with
  | Some (VStr n), Some (VStr t) => "openscad -o " +:+ n +:+ "." +:+ t
  | _, _ => "openscad"
  end.

Definition ascii_lower_char (c : Ascii.ascii) : Ascii.ascii :=
  let n := Ascii.nat_of_ascii c in
  if (65 <=? n)%nat && (n <=? 90)%nat then Ascii.ascii_of_nat (n + 32) else c.

Fixpoint ascii_lower (s : string) : string :=
  match s with
  | EmptyString => EmptyString
  | String c rest => String (ascii_lower_char c) (ascii_lower rest)
  end.

Definition sample_help : string := "usage: ft-ergodox.py [-h] [-o <filepath>]".

(** A file system as the list of the paths that exist. *)
Definition sample_exists (files : list string) (p : string) : bool :=
  bool_decide (p ∈ files).

Definition sample_mkdir (files : list string) (p : string)
    : result (list string) :=
  Ok (p :: files).

Definition sample_shell (cmd : string) : Z * string :=
  if String.eqb cmd "false" then (1%Z, "failed") else (0%Z, "ran " +:+ cmd).

(** The shell can always be started; what [printf '\377'] writes is not
    text. *)
Definition sample_fails (cmd : string) : option popen_error :=
  if String.eqb cmd "printf '\377'" then Some UndecodableOutput else None.

Definition sample_generate (argc : nat) (args : Args) (ks : list obj)
    (files : list string) : result unit * world (list string) :=
  generate sample_str sample_py_str ascii_lower sample_help sample_exists
    sample_mkdir argc args (module_loaded ks files).

(** The catalog the module builds over the sample defaults. *)
Definition catalog_of (Keycap_defaults : obj) : list obj :=
  match build_KEYCAPS Keycap_defaults with
  | Ok ks => ks
  | Raise _ => []
  end.

Definition sample_catalog : list obj := catalog_of sample_defaults.

(** What [parse_args] returns for the command lines [-o out -l],
    [-o out L_ESC], [-o out foo bar], [-o out -j 0 l_esc], [-k] and
    [-k -j -1]. *)
Definition args_legends : Args :=
  {| out := "out"; jobs := 8; force := false; skip_colorscad := false;
     transparent := false; legends := true; keycaps := false; names := [] |}.

Definition args_named : Args :=
  {| out := "out"; jobs := 8; force := false; skip_colorscad := false;
     transparent := false; legends := false; keycaps := false;
     names := ["L_ESC"] |}.

Definition args_unmatched : Args :=
  {| out := "out"; jobs := 8; force := false; skip_colorscad := false;
     transparent := false; legends := false; keycaps := false;
     names := ["foo"; "bar"] |}.

Definition args_jobs0 : Args :=
  {| out := "out"; jobs := 0; force := false; skip_colorscad := false;
     transparent := false; legends := false; keycaps := false;
     names := ["l_esc"] |}.

Definition args_listing : Args :=
  {| out := "."; jobs := 8; force := false; skip_colorscad := false;
     transparent := false; legends := false; keycaps := true; names := [] |}.

Definition args_listing_neg : Args :=
  {| out := "."; jobs := -1; force := false; skip_colorscad := false;
     transparent := false; legends := false; keycaps := true; names := [] |}.

(** Checks on a record that are settled by evaluation. *)
Definition has_attr (a : string) (k : obj) : bool :=
  match k !! a with Some _ => true | None => false end.

Definition has_str (a : string) (k : obj) : bool :=
  match k !! a with Some (VStr _) => true | _ => false end.

(** The names the listing prints for a catalog. *)
Definition listing_of (ks : list obj) : string :=
  match keycap_names ks with
  | Ok s => s
  | Raise _ => EmptyString
  end.

Definition sample_listing : string := listing_of sample_catalog.

(** * Specification vocabulary

    The predicates and functions the statements below are written with. *)

(** ** States of the runner *)

Section RunnerSpec.
Variable shell : string → Z * string.
Variable popen_fails : string → option popen_error.

(** The commands on which [run_command] returns. *)
Definition returns (cmd : string) : Prop :=
  is_ok (run_command shell popen_fails cmd) = true.

(** The semaphore's counter and the tasks that hold it add up to the
    value it was created with. *)
Definition sem_inv (jobs : Z) (s : rstate) : Prop :=
  ∃ v, r_SEM s = Some v ∧ (0 ≤ v)%Z ∧ (v + Z.of_nat (holders s) = jobs)%Z.

(** What the log and the output must hold, read off the task states of a
    run whose [SEM] is bound: there a coroutine fails only with what
    [run_command] raised. *)
Definition past_running (t : tstate) : bool :=
  match t with
  | TSleeping _ | TDone _ | TCollected _ | TPrinted | TFailed _ => true
  | _ => false
  end.

Definition ran (ct : string * tstate) : option string :=
  if past_running ct.2 then Some ct.1 else None.

Definition shown (ct : string * tstate) : option string :=
  match ct.2 with TPrinted => Some (shell ct.1).2 | _ => None end.

Definition task_ok (ct : string * tstate) : Prop :=
  match ct.2 with
  | TSleeping o | TDone o | TCollected o =>
    run_command shell popen_fails ct.1 = Ok o ∧ o = (shell ct.1).2
  | TPrinted => returns ct.1
  | TFailed e => run_command shell popen_fails ct.1 = Raise e
  | _ => True
  end.

Record run_inv (cmds out : list string) (s : rstate) : Prop := {
  inv_raised : ∀ e, r_raised s = Some e →
                 ∃ i c, r_tasks s !! i = Some (c, TFailed e);
  inv_cmds : (r_tasks s).*1 = cmds;
  inv_tasks : Forall task_ok (r_tasks s);
  inv_executed : r_executed s ≡ₚ omap ran (r_tasks s);
  inv_stdout : ∃ l, r_stdout s = out ++ l ∧ l ≡ₚ omap shown (r_tasks s)
}.

(** Every step uses up some of what the tasks have left to do. *)
Definition weight (t : tstate) : nat :=
  match t with
  | TCreated => 6
  | TWaiting => 5
  | TRunning => 4
  | TSleeping _ => 3
  | TDone _ => 2
  | TCollected _ => 1
  | TPrinted => 0
  | TFailed _ => 1
  end.

Definition remaining (s : rstate) : nat :=
  match r_raised s with
  | Some _ => 0
  | None => sum_list ((λ ct, weight ct.2) <$> r_tasks s)
  end.

(** With [SEM] unbound, every coroutine fails at [async with SEM]. *)
Definition unbound_inv (out : list string) (s : rstate) : Prop :=
  r_SEM s = None ∧ r_executed s = [] ∧ r_stdout s = out
  ∧ (r_raised s = None ∨ r_raised s = Some (NameError "SEM"))
  ∧ Forall (λ ct, ct.2 = TCreated ∨ ct.2 = TFailed (NameError "SEM")) (r_tasks s).

End RunnerSpec.

(** [k'] has every attribute of [k] outside [S] unchanged. *)
Definition unchanged_except (S : list string) (k k' : obj) : Prop :=
  ∀ a, a ∉ S → k' !! a = k !! a.

(** ** Records, visits and worlds of the [__main__] block *)

Section ScriptSpec.
Variable Keycap_str : obj → string.
Variable py_str : val → string.
Variable str_lower : string → string.
Variable argparse_help : string.
Variable FS : Type.
Variable path_exists : FS → string → bool.
Variable os_mkdir : FS → string → result FS.

Definition has_path (k : obj) : Prop :=
  is_Some (k !! "name") ∧ is_Some (k !! "file_type").

(** The object a render command is made from. *)
Definition configured (args : Args) (k : obj) : obj :=
  apply_flags args (<["output_path" := VStr (out args)]> k).

(** Whether the main loop renders keycap [k]: forced, or no file yet. *)
Definition renders (args : Args) (files : FS) (k : obj) : bool :=
  match output_file py_str args k with
  | Ok p => force args || negb (path_exists files p)
  | Raise _ => false
  end.

Definition render_visit (args : Args) (files : FS) (k : obj) : visit :=
  match output_file py_str args k with
  | Ok p =>
    if renders args files k then
      {| v_keycap := configured args k;
         v_commands := [Keycap_str (configured args k)];
         v_prints := [rendering p; Keycap_str (configured args k)];
         v_matched := false |}
    else
      {| v_keycap := <["output_path" := VStr (out args)]> k;
         v_commands := []; v_prints := [skipping p]; v_matched := false |}
  | Raise _ =>
    {| v_keycap := k; v_commands := []; v_prints := []; v_matched := false |}
  end.

Definition preserves {A} (Q : relation (world FS)) (m : M FS A) : Prop :=
  ∀ w r w', m w = (r, w') → Q w w'.

(** The catalog objects change only in the attributes of [S]. *)
Definition keycaps_changed_in (S : list string) : relation (world FS) :=
  λ w w', Forall2 (unchanged_except S) (KEYCAPS w) (KEYCAPS w').

(** The global [SEM] stays bound to the same semaphore. *)
Definition same_SEM : relation (world FS) := λ w w', SEM w' = SEM w.

Definition flag_attrs : list string :=
  ["output_path"; "use_colorscad"; "stem_color"].

Definition legend_attrs : list string :=
  ["output_path"; "use_colorscad"; "stem_color"; "name"; "render"; "file_type"].

Definition has_legends (k : obj) : Prop :=
  is_Some (k !! "legends") ∧ is_Some (k !! "name").

(** The record of a keycap after the legends pass reached it. *)
Definition legend_made (args : Args) (k k' : obj) : Prop :=
  match k !! "legends", k !! "name" with
  | Some l, Some n =>
    if no_legends l then k' = k
    else
      k' !! "name" = Some (VStr (format py_str n +:+ "_legends"))
      ∧ k' !! "render" = Some (strs ["legends"])
      ∧ k' !! "file_type" = Some (VStr "stl")
      ∧ k' !! "legends" = Some l
      ∧ output_file py_str args k'
        = Ok (out args +:+ "/" +:+ (format py_str n +:+ "_legends") +:+ "."
              +:+ "stl")
  | _, _ => False
  end.

(** Whether the pass appended the command of the record [k'] it left:
    there are legends, and the file is forced or not there yet. *)
Definition legend_due (args : Args) (files : FS) (k' : obj) : bool :=
  match k' !! "legends", output_file py_str args k' with
  | Some l, Ok p =>
    negb (no_legends l) && (force args || negb (path_exists files p))
  | _, _ => false
  end.

Definition legend_visit (args : Args) (files : FS) (k : obj) : visit :=
  match render_legend Keycap_str py_str path_exists args files k with
  | Ok v => v
  | Raise _ =>
    {| v_keycap := k; v_commands := []; v_prints := []; v_matched := false |}
  end.

Definition legend_object (args : Args) (n : val) (k : obj) : obj :=
  <["file_type" := VStr "stl"]>
    (<["render" := strs ["legends"]]>
       (<["output_path" := VStr (out args)]>
          (<["name" := VStr (format py_str n +:+ "_legends")]> k))).

Definition legend_path (args : Args) (n : val) : string :=
  out args +:+ "/" +:+ (format py_str n +:+ "_legends") +:+ "." +:+ "stl".

Definition named (k : obj) : Prop :=
  (∃ s, k !! "name" = Some (VStr s)) ∧ is_Some (k !! "file_type").

(** [keycap.name.lower() == name.lower()] as a test on a catalog record. *)
Definition matches (name : string) (k : obj) : bool :=
  match k !! "name" with
  | Some (VStr s) => String.eqb (str_lower s) (str_lower name)
  | _ => false
  end.

Definition idle (k : obj) : visit :=
  {| v_keycap := k; v_commands := []; v_prints := []; v_matched := false |}.

Definition named_visit (args : Args) (files : FS) (name : string) (k : obj)
    : visit :=
  match render_named Keycap_str py_str str_lower path_exists args files name k with
  | Ok v => v
  | Raise _ => idle k
  end.

Definition any_match (requested : list string) (ks : list obj) : bool :=
  existsb (λ name, existsb (matches name) ks) requested.

End ScriptSpec.

(** Keywords that only give the name and the legends. *)
Definition plain (kw : gmap string val) : Prop :=
  ∀ k, is_Some (kw !! k) → k = "name" ∨ k = "legends".

(** ** Two runs of a constructor *)

Section SimulationSpec.
Variable kwb : gmap string val.
Variable D : obj.

(** What lies under the object of the smaller run. *)
Definition under : obj := kwb ∪ D.

(** The state [st] of the run with the keywords [kwb] next to the state
    [stc] of the run without them: the same object laid over [under], the
    same keywords next to [kwb], and lists shared with [kwargs] alike. *)
Record sim (stc st : cstate) : Prop := {
  sim_self : self st = self stc ∪ under;
  sim_kwargs : kwargs st = kwargs stc ∪ kwb;
  sim_alias : ∀ a, alias st !! a = alias stc !! a
                   ∨ (alias stc !! a = None ∧ alias st !! a = Some a
                      ∧ is_Some (kwb !! a));
  sim_dom : ∀ a k, alias stc !! a = Some k → is_Some (self stc !! a);
  sim_fresh : ∀ k, is_Some (kwb !! k) →
                self stc !! k = None ∧ kwargs stc !! k = None
                ∧ ∀ a, alias stc !! a ≠ Some k
}.

(** A step of the run without [kwb] is followed by the run with them. *)
Definition simulates (fc fr : cstate → result cstate) : Prop :=
  ∀ stc st stc', sim stc st → fc stc = Ok stc' →
    ∃ st', fr st = Ok st' ∧ sim stc' st'.

Definition simulates_rhs (rhs : cstate → result val) : Prop :=
  ∀ stc st v, sim stc st → rhs stc = Ok v → rhs st = Ok v.

(** [self.a, self.b = self.b, self.a] as two plain moves of the values
    and of what they alias. *)
Definition put_alias (x : string) (k : option string)
    (m : gmap string string) : gmap string string :=
  match k with Some k => <[x := k]> m | None => delete x m end.

(** How far a class is from [ergodox_ft_base]. *)
Definition depth (c : cls) : nat :=
  match c with
  | C_base => 0
  | C_wpm | C_icons | C_front_icon | C_text | C_gem | C_multi | C_1_5UV
  | C_2UV_icon => 1
  | C_1_5U_front_icon | C_dash | C_semicolon | C_rbracket => 3
  | _ => 2
  end.

End SimulationSpec.

(** The keywords the catalog passes besides the name and the legends. *)
Definition extra_keywords (c : cls) (kc : gmap string val) : Prop :=
  kc = ∅
  ∨ (c = C_front_icon ∧ kc = {["homing_dot" := VBool true]})
  ∨ (c = C_text ∧ kc = {["font_sizes" := VList [VInt 3]]}).

(** Checks that are settled by running the constructors. *)
Definition outside (L : list string) (st : cstate) : list (string * val) :=
  map_to_list (filter (λ kv : string * val, kv.1 ∉ L) (self st)).

(** ** What the loops of the [__main__] block keep *)

(** The attributes the named-keycap branch assigns to. *)
Definition named_attrs : list string :=
  ["output_path"; "use_colorscad"; "stem_color"; "name"; "file_type"].

(** [legend.legends != [""]]: the record has legends to render. *)
Definition with_legends (k : obj) : bool :=
  match k !! "legends" with
  | Some l => negb (no_legends l)
  | None => false
  end.

Section WorldRelations.
Variable FS : Type.

(** [COMMANDS] and standard output only grow, and what was appended to
    [COMMANDS] was printed, in the same order. *)
Definition queued_and_printed : relation (world FS) := λ w w',
  ∃ new printed,
    COMMANDS w' = COMMANDS w ++ new ∧ stdout w' = stdout w ++ printed
    ∧ new `sublist_of` printed.

Definition same_fs : relation (world FS) := λ w w', fs w' = fs w.

End WorldRelations.

(** ** More command lines and files for the sample platform *)

(** What [parse_args] returns for [-o out], [-o out -f -l] and
    [-o out -f -l L_ESC]. *)
Definition args_batch : Args :=
  {| out := "out"; jobs := 8; force := false; skip_colorscad := false;
     transparent := false; legends := false; keycaps := false; names := [] |}.

Definition args_forced : Args :=
  {| out := "out"; jobs := 8; force := true; skip_colorscad := false;
     transparent := false; legends := true; keycaps := false; names := [] |}.

Definition args_named_legends : Args :=
  {| out := "out"; jobs := 8; force := true; skip_colorscad := false;
     transparent := false; legends := true; keycaps := false;
     names := ["L_ESC"] |}.

(** The files a full batch leaves for a catalog. *)
Definition rendered_files (args : Args) (ks : list obj) : list string :=
  omap (λ k, match output_file sample_py_str args k with
             | Ok p => Some p
             | Raise _ => None
             end) ks.

(** ** The skip rule and the records a run leaves, written out

    The file of a keycap, the test that skips it, the two messages, and
    what a record holds after the commands were generated, stated on the
    attributes of the record; the facts below compare them with what the
    loops of the [__main__] block do. *)

Section OutputSpec.
Variable FS : Type.
Variable path_exists : FS → string → bool.

(** The text of an attribute that holds a string. *)
Definition text (a : string) (k : obj) : string :=
  match k !! a with Some (VStr s) => s | _ => EmptyString end.

(** A record whose name and file type are strings. *)
Definition texts (k : obj) : Prop :=
  (∃ n, k !! "name" = Some (VStr n)) ∧ (∃ t, k !! "file_type" = Some (VStr t)).

(** [{out}/{name}.{file_type}] *)
Definition file_of (args : Args) (k : obj) : string :=
  out args +:+ "/" +:+ text "name" k +:+ "." +:+ text "file_type" k.

(** Skip unless forced: [--force] is not given and the file exists. *)
Definition skipped (args : Args) (files : FS) (k : obj) : bool :=
  negb (force args) && path_exists files (file_of args k).

Definition skip_message (args : Args) (k : obj) : string :=
  BRIGHT +:+ file_of args k +:+ " exists; skipping..." +:+ RESET_ALL.

Definition render_message (args : Args) (k : obj) : string :=
  BRIGHT +:+ "Rendering " +:+ file_of args k +:+ "..." +:+ RESET_ALL.

(** What is printed for a keycap, and what is appended to [COMMANDS]. *)
Definition lines_for (Keycap_str : obj → string) (args : Args) (files : FS)
    (k : obj) : list string :=
  if skipped args files k then [skip_message args k]
  else [render_message args k; Keycap_str (configured args k)].

Definition commands_for (Keycap_str : obj → string) (args : Args) (files : FS)
    (k : obj) : list string :=
  if skipped args files k then [] else [Keycap_str (configured args k)].

(** The flags [--skip-colorscad] and [--transparent] on a record [k'] that
    was [k]: given, they set the attribute; not given, they leave it. *)
Definition flags_kept (args : Args) (k k' : obj) : Prop :=
  (skip_colorscad args = false → k' !! "use_colorscad" = k !! "use_colorscad")
  ∧ (transparent args = false → k' !! "stem_color" = k !! "stem_color").

Definition flags_set (args : Args) (k' : obj) : Prop :=
  (skip_colorscad args = true → k' !! "use_colorscad" = Some (VBool false))
  ∧ (transparent args = true → k' !! "stem_color" = Some (VStr "#505050")).

(** The record [k'] that the full batch leaves for the record [k]. *)
Definition batch_record (args : Args) (files : FS) (k k' : obj) : Prop :=
  k' !! "output_path" = Some (VStr (out args))
  ∧ flags_kept args k k'
  ∧ (skipped args files k = false → flags_set args k')
  ∧ (if legends args && with_legends k
     then k' !! "name" = Some (VStr (text "name" k +:+ "_legends"))
          ∧ k' !! "render" = Some (strs ["legends"])
          ∧ k' !! "file_type" = Some (VStr "stl")
     else k' !! "name" = k !! "name" ∧ k' !! "render" = k !! "render"
          ∧ k' !! "file_type" = k !! "file_type").

(** The record [k'] that a pass of the named-keycap branch leaves for a
    record [k] it matched: under [--legends] it is renamed whatever its
    legends are, and [render] stays. *)
Definition named_record (args : Args) (k k' : obj) : Prop :=
  k' !! "output_path" = Some (VStr (out args))
  ∧ flags_kept args k k' ∧ flags_set args k'
  ∧ k' !! "render" = k !! "render"
  ∧ (if legends args
     then k' !! "name" = Some (VStr (text "name" k +:+ "_legends"))
          ∧ k' !! "file_type" = Some (VStr "stl")
     else k' !! "name" = k !! "name"
          ∧ k' !! "file_type" = k !! "file_type").

End OutputSpec.

(** * Facts *)

(** ** Counting in a list that is updated at one index *)

Lemma count_insert {A} (P : A → Prop) `{!∀ x, Decision (P x)} (l : list A)
    (i : nat) (x y : A) :
  l !! i = Some x →
  (length (filter P (<[i := y]> l)) + (if decide (P x) then 1 else 0)
   = length (filter P l) + (if decide (P y) then 1 else 0))%nat.
Proof.
  revert i. induction l as [|a l IH]; intros [|i] Hi; simplify_eq/=.
  - rewrite !filter_cons. repeat case_decide; simpl; lia.
  - specialize (IH i Hi). rewrite !filter_cons.
    destruct (decide (P a)); simpl; lia.
Qed.

Lemma count_le {A} (P Q : A → Prop) `{!∀ x, Decision (P x)}
    `{!∀ x, Decision (Q x)} (l : list A) :
  (∀ x, P x → Q x) → (length (filter P l) ≤ length (filter Q l))%nat.
Proof.
  intros HPQ. induction l as [|a l IH]; [done|].
  rewrite !filter_cons.
  destruct (decide (P a)) as [HP|], (decide (Q a)) as [|HQ]; simpl; try lia.
  destruct HQ. auto.
Qed.

Lemma count_pos_lookup {A} (P : A → Prop) `{!∀ x, Decision (P x)} (l : list A) :
  (0 < length (filter P l))%nat → ∃ i x, l !! i = Some x ∧ P x.
Proof.
  induction l as [|a l IH]; simpl; [lia|].
  rewrite filter_cons. destruct (decide (P a)) as [HP|].
  - intros _. by exists 0%nat, a.
  - intros Hl. destruct (IH Hl) as (i & x & ? & ?). by exists (S i), x.
Qed.

Section RunnerFacts.
Variable shell : string → Z * string.
Variable popen_fails : string → option popen_error.

Local Abbreviation shown := (shown shell).
Local Abbreviation task_ok := (task_ok shell popen_fails).
Local Abbreviation run_inv := (run_inv shell popen_fails).

(** [run_command] case by case. *)
Lemma run_command_cases (cmd : string) :
  (popen_fails cmd = Some CannotStart ∧ run_command shell popen_fails cmd = Raise OSError)
  ∨ (popen_fails cmd ≠ Some CannotStart ∧ embedded_null cmd = true
     ∧ run_command shell popen_fails cmd = Raise ValueError)
  ∨ (popen_fails cmd = Some UndecodableOutput ∧ embedded_null cmd = false
     ∧ run_command shell popen_fails cmd = Raise UnicodeDecodeError)
  ∨ (popen_fails cmd = None ∧ embedded_null cmd = false
     ∧ run_command shell popen_fails cmd = Ok (shell cmd).2).
Proof.
  unfold run_command, check_output.
  destruct (popen_fails cmd) as [[]|]; [by left|..];
    destruct (embedded_null cmd).
  - by right; left.
  - by right; right; left.
  - by right; left.
  - right; right; right. split_and!; try done.
    destruct (shell cmd) as [rc o]; simpl. by destruct (rc =? 0)%Z.
Qed.

Lemma run_command_Ok (cmd output : string) :
  run_command shell popen_fails cmd = Ok output → output = (shell cmd).2.
Proof.
  destruct (run_command_cases cmd)
    as [[_ H]|[(_ & _ & H)|[(_ & _ & H)|(_ & _ & H)]]];
    rewrite H; intros ?; by simplify_eq.
Qed.

Lemma run_command_Raise (cmd : string) (e : exn) :
  run_command shell popen_fails cmd = Raise e →
  e = OSError ∨ e = ValueError ∨ e = UnicodeDecodeError.
Proof.
  destruct (run_command_cases cmd)
    as [[_ H]|[(_ & _ & H)|[(_ & _ & H)|(_ & _ & H)]]];
    rewrite H; intros ?; simplify_eq; auto.
Qed.

Lemma run_command_returns (cmd : string) :
  returns shell popen_fails cmd → run_command shell popen_fails cmd = Ok (shell cmd).2.
Proof.
  unfold returns.
  destruct (run_command shell popen_fails cmd) as [o|] eqn:Hrun; [|done].
  intros _. by rewrite (run_command_Ok cmd o Hrun).
Qed.

Lemma holders_set_task (i : nat) (c : string) (t t' : tstate) (s : rstate) :
  r_tasks s !! i = Some (c, t) →
  (holders (set_task i c t' s) + (if holds_sem t then 1 else 0)
   = holders s + (if holds_sem t' then 1 else 0))%nat.
Proof.
  intros Hi. unfold holders, set_task; simpl.
  pose proof (count_insert (λ ct : string * tstate, holds_sem ct.2 = true)
                (r_tasks s) i (c, t) (c, t') Hi) as H; simpl in H.
  destruct (holds_sem t), (holds_sem t'); repeat case_decide; try done; lia.
Qed.

Lemma sem_inv_step (jobs : Z) (s s' : rstate) :
  sem_inv jobs s → step shell popen_fails s s' → sem_inv jobs s'.
Proof.
  intros (v & Hv & Hpos & Hsum) [i Hadv]. unfold advance in Hadv.
  destruct (r_raised s); [done|].
  destruct (r_tasks s !! i) as [[c t]|] eqn:Hi; [|done].
  rewrite Hv in Hadv. unfold sem_inv.
  destruct t; simplify_eq/=.
  - destruct (0 <? v)%Z eqn:Hlt; simplify_eq/=.
    + exists (v - 1)%Z. split; [done|].
      pose proof (holders_set_task i c TCreated TRunning (set_sem (v - 1) s) Hi) as H.
      simpl in H. change (holders (set_sem (v - 1) s)) with (holders s) in H. lia.
    + exists v. split; [done|].
      pose proof (holders_set_task i c TCreated TWaiting s Hi) as H. simpl in H. lia.
  - destruct (0 <? v)%Z eqn:Hlt; simplify_eq/=.
    exists (v - 1)%Z. split; [done|].
    pose proof (holders_set_task i c TWaiting TRunning (set_sem (v - 1) s) Hi) as H.
    simpl in H. change (holders (set_sem (v - 1) s)) with (holders s) in H. lia.
  - destruct (run_command shell popen_fails c) as [o|e]; simplify_eq/=.
    + exists v. split; [done|].
      pose proof (holders_set_task i c TRunning (TSleeping o)
                    (log_executed c s) Hi) as H.
      simpl in H. change (holders (log_executed c s)) with (holders s) in H. lia.
    + exists (v + 1)%Z. split; [done|].
      pose proof (holders_set_task i c TRunning (TFailed e)
                    (set_sem (v + 1) (log_executed c s)) Hi) as H.
      simpl in H.
      change (holders (set_sem (v + 1) (log_executed c s))) with (holders s) in H.
      lia.
  - exists (v + 1)%Z. split; [done|].
    pose proof (holders_set_task i c (TSleeping output) (TDone output)
                  (set_sem (v + 1) s) Hi) as H.
    simpl in H. change (holders (set_sem (v + 1) s)) with (holders s) in H. lia.
  - exists v. split; [done|].
    pose proof (holders_set_task i c (TDone output) (TCollected output) s Hi) as H.
    simpl in H. lia.
  - exists v. split; [done|].
    pose proof (holders_set_task i c (TCollected res) TPrinted (print_line res s) Hi) as H.
    simpl in H. change (holders (print_line res s)) with (holders s) in H. lia.
  - exists v. split; [done|]. change (holders (set_raised e s)) with (holders s). lia.
Qed.

Lemma holders_init (sem : option Z) (cmds out : list string) :
  holders (run_all_commands sem cmds out) = 0%nat.
Proof.
  unfold holders; simpl. induction cmds as [|c cmds IH]; [done|].
  rewrite fmap_cons, filter_cons. by simpl.
Qed.

Lemma sem_inv_reachable (jobs : Z) (cmds out : list string) (s : rstate) :
  (0 ≤ jobs)%Z →
  rtc (step shell popen_fails) (run_all_commands (Some jobs) cmds out) s →
  sem_inv jobs s.
Proof.
  intros Hjobs Hrtc.
  revert s Hrtc. apply (rtc_ind_r (R := step shell popen_fails) (sem_inv jobs)).
  - exists jobs. rewrite holders_init. simpl. split; [done|lia].
  - eauto using sem_inv_step.
Qed.

Lemma in_flight_le_holders (s : rstate) : (in_flight s ≤ holders s)%nat.
Proof.
  apply count_le. intros [c t]; simpl. by destruct t.
Qed.

(** C1: in every state that a run of the batch runner can reach, started
    with the semaphore that [asyncio.Semaphore(jobs)] made, the number of
    commands in the executor is at most [jobs]: a coroutine takes a permit
    before its command runs and gives it back only after the output of
    the command was collected. *)
Theorem in_flight_bounded (jobs sem : Z) (cmds out : list string) (s : rstate) :
  Semaphore jobs = Ok sem →
  rtc (step shell popen_fails) (run_all_commands (Some sem) cmds out) s →
  (Z.of_nat (in_flight s) ≤ jobs)%Z.
Proof.
  unfold Semaphore. intros Hsem Hrtc.
  destruct (Z.ltb_spec jobs 0); simplify_eq.
  assert (0 ≤ sem)%Z as Hpos by lia.
  destruct (sem_inv_reachable sem cmds out s Hpos Hrtc) as (v & _ & Hv & Hsum).
  pose proof (in_flight_le_holders s). lia.
Qed.

Lemma omap_insert_same {A B} (f : A → option B) (l : list A) i x y :
  l !! i = Some x → f x = f y → omap f (<[i := y]> l) = omap f l.
Proof.
  revert i. induction l as [|a l IH]; intros [|i] Hi Hf; simplify_eq/=.
  - by rewrite Hf.
  - by rewrite (IH i).
Qed.

Lemma omap_insert_new {A B} (f : A → option B) (l : list A) i x y z :
  l !! i = Some x → f x = None → f y = Some z →
  omap f (<[i := y]> l) ≡ₚ omap f l ++ [z].
Proof.
  revert i. induction l as [|a l IH]; intros [|i] Hi Hx Hy; simplify_eq/=.
  - rewrite Hx, Hy. by rewrite Permutation_app_comm.
  - destruct (f a); simpl; by rewrite (IH i).
Qed.

Lemma fst_set_task (l : list (string * tstate)) i c t t' :
  l !! i = Some (c, t) → (<[i := (c, t')]> l).*1 = l.*1.
Proof.
  intros Hi. rewrite list_fmap_insert. apply list_insert_id.
  by rewrite list_lookup_fmap, Hi.
Qed.

Lemma run_inv_init (v : Z) (cmds out : list string) :
  run_inv cmds out (run_all_commands (Some v) cmds out).
Proof.
  split; simpl.
  - done.
  - rewrite <-list_fmap_compose. apply list_fmap_id.
  - apply Forall_fmap, Forall_true. by intros c.
  - induction cmds; simpl; done.
  - exists []. rewrite app_nil_r. split; [done|]. induction cmds; simpl; done.
Qed.

Lemma run_inv_step (cmds out : list string) (s s' : rstate) :
  is_Some (r_SEM s) → run_inv cmds out s → step shell popen_fails s s' → run_inv cmds out s'.
Proof.
  intros [v Hv] [_ Hc Ht He (l & Hl & Hs)] [i Hadv]. unfold advance in Hadv.
  destruct (r_raised s) eqn:Hr; [done|]. rewrite Hv in Hadv.
  destruct (r_tasks s !! i) as [[c t]|] eqn:Hi; [|done].
  pose proof (Forall_lookup_1 _ _ _ _ Ht Hi) as Hok. unfold task_ok in Hok; simpl in Hok.
  destruct t; try done.
  - (* TCreated *)
    assert (∃ t', (t' = TRunning ∨ t' = TWaiting)
              ∧ r_tasks s' = <[i := (c, t')]> (r_tasks s)
              ∧ r_executed s' = r_executed s ∧ r_stdout s' = r_stdout s
              ∧ r_raised s' = None) as (t' & Ht' & Htasks & He' & Hs' & Hr').
    { destruct (0 <? v)%Z; simplify_eq/=; eauto 10. }
    split.
    + by rewrite Hr'.
    + rewrite Htasks. by erewrite fst_set_task.
    + rewrite Htasks. apply Forall_insert; [done|]. by destruct Ht' as [-> | ->].
    + rewrite Htasks, He'. erewrite omap_insert_same; [done..|].
      by destruct Ht' as [-> | ->].
    + exists l. rewrite Htasks, Hs'. split; [done|].
      erewrite omap_insert_same; [done..|]. by destruct Ht' as [-> | ->].
  - (* TWaiting *)
    destruct (0 <? v)%Z; simplify_eq/=. split; simpl.
    + by rewrite Hr.
    + by erewrite fst_set_task.
    + by apply Forall_insert.
    + by erewrite omap_insert_same.
    + exists l. split; [done|]. by erewrite omap_insert_same.
  - (* TRunning *)
    destruct (run_command shell popen_fails c) as [o|e] eqn:Hrun; simplify_eq/=; split; simpl.
    + by rewrite Hr.
    + by erewrite fst_set_task.
    + apply Forall_insert; [done|]. split; [done|]. by apply run_command_Ok.
    + rewrite (omap_insert_new ran _ i (c, TRunning) _ c) by done. by rewrite He.
    + exists l. split; [done|]. by erewrite omap_insert_same.
    + by rewrite Hr.
    + by erewrite fst_set_task.
    + by apply Forall_insert.
    + rewrite (omap_insert_new ran _ i (c, TRunning) _ c) by done. by rewrite He.
    + exists l. split; [done|]. by erewrite omap_insert_same.
  - (* TSleeping *)
    simplify_eq/=. split; simpl.
    + by rewrite Hr.
    + by erewrite fst_set_task.
    + by apply Forall_insert.
    + by erewrite omap_insert_same.
    + exists l. split; [done|]. by erewrite omap_insert_same.
  - (* TDone *)
    simplify_eq/=. split; simpl.
    + by rewrite Hr.
    + by erewrite fst_set_task.
    + by apply Forall_insert.
    + by erewrite omap_insert_same.
    + exists l. split; [done|]. by erewrite omap_insert_same.
  - (* TCollected *)
    destruct Hok as [Hrun ->]. simplify_eq/=. split; simpl.
    + by rewrite Hr.
    + by erewrite fst_set_task.
    + apply Forall_insert; [done|]. unfold task_ok, returns; simpl. by rewrite Hrun.
    + by erewrite omap_insert_same.
    + exists (l ++ [(shell c).2]). split; [by rewrite Hl, app_assoc|].
      rewrite (omap_insert_new shown _ i (c, TCollected (shell c).2) _ (shell c).2) by done.
      by rewrite Hs.
  - (* TFailed *)
    simplify_eq/=. split; simpl; [|done|done|done|by exists l].
    intros e' ?; simplify_eq. by exists i, c.
Qed.

Lemma run_inv_reachable (jobs : Z) (cmds out : list string) (s : rstate) :
  (0 ≤ jobs)%Z →
  rtc (step shell popen_fails) (run_all_commands (Some jobs) cmds out) s →
  run_inv cmds out s.
Proof.
  intros Hjobs Hrtc.
  assert (run_inv cmds out s ∧ sem_inv jobs s) as [? _]; [|done].
  revert s Hrtc.
  apply (rtc_ind_r (R := step shell popen_fails) (λ s, run_inv cmds out s ∧ sem_inv jobs s)).
  - split; [apply run_inv_init|]. exists jobs. rewrite holders_init. simpl.
    split; [done|lia].
  - intros s s' _ Hstep [Hinv Hsem]. split; [|by eapply sem_inv_step].
    destruct Hsem as (v & Hv & _). eapply run_inv_step; [by rewrite Hv|done..].
Qed.

(** What [run_all_commands] raises is what [run_command] raised for a
    command of the list. *)
Lemma raised_by_command (cmds out : list string) (s : rstate) (e : exn) :
  run_inv cmds out s → r_raised s = Some e →
  ∃ c, c ∈ cmds ∧ run_command shell popen_fails c = Raise e.
Proof.
  intros [Hr Hc Ht _ _] He. destruct (Hr e He) as (i & c & Hi).
  exists c. split.
  - rewrite <-Hc. apply list_elem_of_fmap. exists (c, TFailed e).
    split; [done|]. by eapply list_elem_of_lookup_2.
  - exact (Forall_lookup_1 _ _ _ _ Ht Hi).
Qed.

(** With a permit to give, a run that can go no further and has raised
    nothing has printed everything. *)
Lemma stuck_all_printed (jobs : Z) (cmds out : list string) (s : rstate) :
  (1 ≤ jobs)%Z → run_inv cmds out s → sem_inv jobs s → stuck shell popen_fails s →
  r_raised s = None → all_printed s.
Proof.
  intros Hjobs [_ _ Ht _ _] (v & Hv & Hpos & Hsum) Hstuck Hr.
  assert (∀ i c t, r_tasks s !! i = Some (c, t) → t = TPrinted ∨ t = TWaiting)
    as Hcases.
  { intros i c t Hi. specialize (Hstuck i). unfold advance in Hstuck.
    rewrite Hr, Hi, Hv in Hstuck.
    destruct t; try done; auto.
    - by destruct (0 <? v)%Z.
    - by destruct (run_command shell popen_fails c). }
  assert (holders s = 0%nat) as Hnone.
  { destruct (holders s) eqn:Hh; [done|].
    destruct (count_pos_lookup (λ ct : string * tstate, holds_sem ct.2 = true)
                (r_tasks s)) as (i & [c t] & Hi & Hheld).
    { unfold holders in Hh. lia. }
    simpl in Hheld. by destruct (Hcases i c t Hi) as [-> | ->]. }
  apply Forall_lookup_2. intros i [c t] Hi. simpl.
  destruct (Hcases i c t Hi) as [-> | ->]; [done|].
  specialize (Hstuck i). unfold advance in Hstuck. rewrite Hr, Hi, Hv in Hstuck.
  destruct (Z.ltb_spec 0 v); [done|lia].
Qed.

Lemma all_printed_omap (s : rstate) :
  all_printed s →
  omap ran (r_tasks s) = (r_tasks s).*1
  ∧ omap shown (r_tasks s) = (λ c, (shell c).2) <$> (r_tasks s).*1.
Proof.
  unfold all_printed. induction 1 as [|[c t] l Hp _ [IH1 IH2]]; [done|].
  simpl in Hp; subst t. split.
  - change (omap ran ((c, TPrinted) :: l)) with (c :: omap ran l).
    by rewrite IH1.
  - change (omap shown ((c, TPrinted) :: l)) with ((shell c).2 :: omap shown l).
    by rewrite IH2.
Qed.

(** Every command of a run that has printed everything returned. *)
Lemma all_printed_returns (cmds out : list string) (s : rstate) :
  run_inv cmds out s → all_printed s → Forall (returns shell popen_fails) cmds.
Proof.
  intros [_ Hc Ht _ _] Hall. rewrite <-Hc. apply Forall_fmap.
  apply Forall_lookup_2. intros i [c t] Hi.
  pose proof (Forall_lookup_1 _ _ _ _ Ht Hi) as Hok.
  pose proof (Forall_lookup_1 _ _ _ _ Hall Hi) as Hp. simpl in Hp. subst t.
  exact Hok.
Qed.

Lemma sum_insert {A} (w : A → nat) (l : list A) i x y :
  l !! i = Some x →
  (sum_list (w <$> <[i := y]> l) + w x = sum_list (w <$> l) + w y)%nat.
Proof.
  revert i. induction l as [|a l IH]; intros [|i] Hi; simplify_eq/=; [lia|].
  specialize (IH i Hi). lia.
Qed.

Lemma step_remaining (s s' : rstate) :
  step shell popen_fails s s' → (remaining s' < remaining s)%nat.
Proof.
  intros [i Hadv]. unfold advance in Hadv. unfold remaining.
  destruct (r_raised s) eqn:Hr; [done|].
  destruct (r_tasks s !! i) as [[c t]|] eqn:Hi; [|done].
  pose proof (λ t', sum_insert (λ ct : string * tstate, weight ct.2)
                      (r_tasks s) i (c, t) (c, t') Hi) as Hsum.
  simpl in Hsum.
  destruct t; repeat case_match; simplify_eq/=; rewrite ?Hr;
    try (match goal with |- context [<[i := (c, ?t')]> _] =>
           specialize (Hsum t'); simpl in Hsum end; lia).
  specialize (Hsum TPrinted); simpl in Hsum. lia.
Qed.

Lemma remaining_init (sem : option Z) (cmds out : list string) :
  remaining (run_all_commands sem cmds out) = (6 * length cmds)%nat.
Proof.
  unfold remaining; simpl. rewrite <-list_fmap_compose.
  induction cmds as [|c cmds IH]; [done|].
  rewrite fmap_cons, length_cons. simpl sum_list. rewrite IH. simpl. lia.
Qed.

Lemma nsteps_remaining (n : nat) (s s' : rstate) :
  nsteps (step shell popen_fails) n s s' → (n + remaining s' ≤ remaining s)%nat.
Proof.
  induction 1 as [|n s1 s2 s3 Hstep _ IH]; [done|].
  apply step_remaining in Hstep. lia.
Qed.

Lemma step_or_stuck (s : rstate) : (∃ s', step shell popen_fails s s') ∨ stuck shell popen_fails s.
Proof.
  assert (∀ n, (∃ s', step shell popen_fails s s') ∨ ∀ i, (i < n)%nat → advance shell popen_fails i s = None)
    as Hn.
  { induction n as [|n [?|IH]]; [right; lia|by left|].
    destruct (advance shell popen_fails n s) as [s'|] eqn:Hadv.
    - left. exists s', n. done.
    - right. intros i Hi. destruct (decide (i = n)) as [->|]; [done|].
      apply IH. lia. }
  destruct (Hn (length (r_tasks s))) as [?|Hnone]; [by left|right].
  intros i. destruct (decide (i < length (r_tasks s))%nat); [by apply Hnone|].
  unfold advance. rewrite lookup_ge_None_2 by lia. by destruct (r_raised s).
Qed.

Lemma can_finish (s : rstate) : ∃ s', rtc (step shell popen_fails) s s' ∧ stuck shell popen_fails s'.
Proof.
  remember (remaining s) as n eqn:Hn. revert s Hn.
  induction (lt_wf n) as [n _ IH]. intros s ->.
  destruct (step_or_stuck s) as [[s1 Hstep]|Hstuck].
  - destruct (IH (remaining s1) (step_remaining _ _ Hstep) s1 eq_refl)
      as (s' & Hrtc & Hs').
    exists s'. split; [by eapply rtc_l|done].
  - by exists s.
Qed.

(** C8, amended: under a semaphore with at least one permit
    ([--jobs] at least 1) a run of [run_all_commands] can always be
    completed and takes at most six steps per command.  When
    [run_command] returns for every command of the list, nothing is
    raised, and once no task can move every command was executed exactly
    once (the log is a permutation of the list) and every output was
    printed by [process_result].  What [run_all_commands] raises is what
    [run_command] raised for a command of the list, and when [run_command]
    raises for a command, a run that can go no further has raised and has
    not printed every output. *)
Theorem run_all_commands_each_once (jobs : Z) (cmds out : list string)
    (s : rstate) :
  (1 ≤ jobs)%Z →
  rtc (step shell popen_fails) (run_all_commands (Some jobs) cmds out) s →
  (∃ s', rtc (step shell popen_fails) s s' ∧ stuck shell popen_fails s')
  ∧ (∀ n, nsteps (step shell popen_fails) n
            (run_all_commands (Some jobs) cmds out) s →
          (n ≤ 6 * length cmds)%nat)
  ∧ (Forall (returns shell popen_fails) cmds →
     r_raised s = None
     ∧ (stuck shell popen_fails s →
        all_printed s ∧ r_executed s ≡ₚ cmds
        ∧ ∃ printed, r_stdout s = out ++ printed
                     ∧ printed ≡ₚ (λ c, (shell c).2) <$> cmds))
  ∧ (∀ e, r_raised s = Some e →
          ∃ c, c ∈ cmds ∧ run_command shell popen_fails c = Raise e)
  ∧ (∀ c, c ∈ cmds → is_ok (run_command shell popen_fails c) = false →
          stuck shell popen_fails s →
          is_Some (r_raised s) ∧ ¬ all_printed s).
Proof.
  intros Hjobs Hrtc.
  assert (0 ≤ jobs)%Z as Hpos by lia.
  pose proof (run_inv_reachable jobs cmds out s Hpos Hrtc) as Hinv.
  pose proof (sem_inv_reachable jobs cmds out s Hpos Hrtc) as Hsem.
  split; [apply can_finish|]. split_and!.
  - intros n Hn. apply nsteps_remaining in Hn. rewrite remaining_init in Hn. lia.
  - intros Hret.
    assert (r_raised s = None) as Hr.
    { destruct (r_raised s) as [e|] eqn:He; [|done].
      destruct (raised_by_command cmds out s e Hinv He) as (c & Hc & Hrun).
      pose proof (proj1 (Forall_forall _ _) Hret c Hc) as Hok.
      unfold returns in Hok. by rewrite Hrun in Hok. }
    split; [done|]. intros Hstuck.
    pose proof (stuck_all_printed jobs cmds out s Hjobs Hinv Hsem Hstuck Hr) as Hall.
    destruct (all_printed_omap s Hall) as [Hran Hshown].
    destruct Hinv as [_ Hc _ He (l & Hl & Hs)].
    rewrite Hran, Hc in He. rewrite Hshown, Hc in Hs. eauto 10.
  - intros e He. by eapply raised_by_command.
  - intros c Hc Hfail Hstuck.
    assert (¬ all_printed s) as Hnot.
    { intros Hall.
      pose proof (proj1 (Forall_forall _ _)
                    (all_printed_returns cmds out s Hinv Hall) c Hc) as Hok.
      unfold returns in Hok. by rewrite Hfail in Hok. }
    split; [|done].
    destruct (r_raised s) eqn:Hr; [done|]. destruct Hnot.
    by eapply stuck_all_printed.
Qed.

Lemma unbound_inv_step (out : list string) (s s' : rstate) :
  unbound_inv out s → step shell popen_fails s s' → unbound_inv out s'.
Proof.
  intros (Hsem & He & Ho & Hr & Ht) [i Hadv]. unfold advance in Hadv.
  destruct (r_raised s) eqn:Hraised; [done|].
  destruct (r_tasks s !! i) as [[c t]|] eqn:Hi; [|done].
  pose proof (Forall_lookup_1 _ _ _ _ Ht Hi) as [Hc | Hc]; simpl in Hc; subst t.
  - rewrite Hsem in Hadv. simplify_eq. unfold unbound_inv; simpl.
    split_and!; auto. apply Forall_insert; auto.
  - simplify_eq. unfold unbound_inv; simpl. split_and!; auto.
Qed.

Lemma unbound_inv_reachable (cmds out : list string) (s : rstate) :
  rtc (step shell popen_fails) (run_all_commands None cmds out) s → unbound_inv out s.
Proof.
  revert s. apply (rtc_ind_r (R := step shell popen_fails) (unbound_inv out)).
  - repeat split; simpl; auto. apply Forall_fmap, Forall_true. by left.
  - eauto using unbound_inv_step.
Qed.

Lemma unbound_stuck_raised (cmds out : list string) (s : rstate) :
  cmds ≠ [] →
  rtc (step shell popen_fails) (run_all_commands None cmds out) s →
  stuck shell popen_fails s → r_raised s = Some (NameError "SEM").
Proof.
  intros Hne Hrtc Hstuck.
  pose proof (unbound_inv_reachable cmds out s Hrtc) as (Hsem & _ & _ & Hr & Ht).
  destruct Hr as [Hr|]; [|done]. exfalso.
  assert (length (r_tasks s) = length cmds) as Hlen.
  { clear -Hrtc. revert s Hrtc.
    apply (rtc_ind_r (R := step shell popen_fails) (λ s, length (r_tasks s) = length cmds)).
    - simpl. by rewrite length_fmap.
    - intros s s' _ [i Hadv] IH. unfold advance in Hadv.
      repeat case_match; simplify_eq/=; rewrite ?length_insert; done. }
  destruct (r_tasks s) as [|[c t] l] eqn:Htasks.
  { destruct cmds; [done|]. simpl in Hlen. lia. }
  specialize (Hstuck 0%nat). unfold advance in Hstuck.
  rewrite Hr, Htasks, Hsem in Hstuck. simpl in Hstuck.
  apply Forall_cons_1 in Ht as [[Hc | Hc] _]; simpl in Hc; subst t; done.
Qed.

(** In a run whose [SEM] is bound, no coroutine fails with [NameError] and
    [run_all_commands] raises none. *)
Lemma bound_no_NameError (jobs : Z) (cmds out : list string) (s : rstate)
    (name : string) :
  (0 ≤ jobs)%Z →
  rtc (step shell popen_fails) (run_all_commands (Some jobs) cmds out) s →
  r_raised s ≠ Some (NameError name)
  ∧ Forall (λ ct, ct.2 ≠ TFailed (NameError name)) (r_tasks s).
Proof.
  intros Hjobs Hrtc.
  pose proof (run_inv_reachable jobs cmds out s Hjobs Hrtc) as Hinv.
  split.
  - intros He. destruct (raised_by_command cmds out s _ Hinv He) as (c & _ & Hrun).
    by destruct (run_command_Raise c _ Hrun) as [?|[?|?]].
  - destruct Hinv as [_ _ Ht _ _]. eapply Forall_impl; [exact Ht|].
    intros [c t] Hok; simpl. intros ->. unfold task_ok in Hok; simpl in Hok.
    by destruct (run_command_Raise c _ Hok) as [?|[?|?]].
Qed.

End RunnerFacts.

(** ** The loops of the [__main__] block *)

Lemma unchanged_refl (S : list string) (k : obj) : unchanged_except S k k.
Proof. by intros a _. Qed.

Lemma unchanged_trans (S : list string) (k1 k2 k3 : obj) :
  unchanged_except S k1 k2 → unchanged_except S k2 k3 → unchanged_except S k1 k3.
Proof. intros H12 H23 a Ha. by rewrite H23, H12. Qed.

Lemma unchanged_insert (S : list string) (k k' : obj) (a : string) (v : val) :
  a ∈ S → unchanged_except S k k' → unchanged_except S k (<[a := v]> k').
Proof.
  intros Ha Hk b Hb. rewrite lookup_insert_ne; [by apply Hk|].
  intros ->. done.
Qed.

Lemma unchanged_weaken (S S' : list string) (k k' : obj) :
  S ⊆ S' → unchanged_except S k k' → unchanged_except S' k k'.
Proof. intros HS Hk a Ha. apply Hk. intros ?. apply Ha. by apply HS. Qed.

Lemma Forall2_unchanged_refl (S : list string) (ks : list obj) :
  Forall2 (unchanged_except S) ks ks.
Proof. apply Forall_Forall2_diag, Forall_true, unchanged_refl. Qed.

Lemma Forall2_unchanged_trans (S : list string) (l1 l2 l3 : list obj) :
  Forall2 (unchanged_except S) l1 l2 → Forall2 (unchanged_except S) l2 l3 →
  Forall2 (unchanged_except S) l1 l3.
Proof.
  intros H12. revert l3. induction H12; intros l3 H23; inversion H23; subst;
    constructor; eauto using unchanged_trans.
Qed.

(** Looking an attribute up after an assignment, with the names compared
    by computation. *)
Lemma lookup_ins (o : obj) (a b : string) (v : val) :
  <[a := v]> o !! b = if String.eqb a b then Some v else o !! b.
Proof.
  destruct (String.eqb_spec a b) as [->|Hne].
  - apply lookup_insert_eq.
  - by apply lookup_insert_ne.
Qed.

Section ScriptFacts.
Variable Keycap_str : obj → string.
Variable py_str : val → string.
Variable str_lower : string → string.
Variable argparse_help : string.
Variable FS : Type.
Variable path_exists : FS → string → bool.
Variable os_mkdir : FS → string → result FS.

Local Abbreviation renders := (renders py_str FS path_exists).
Local Abbreviation render_visit :=
  (render_visit Keycap_str py_str FS path_exists).
Local Abbreviation preserves := (preserves FS).
Local Abbreviation keycaps_changed_in := (keycaps_changed_in FS).
Local Abbreviation same_SEM := (same_SEM FS).
Local Abbreviation legend_made := (legend_made py_str).
Local Abbreviation legend_due := (legend_due py_str FS path_exists).
Local Abbreviation legend_visit :=
  (legend_visit Keycap_str py_str FS path_exists).
Local Abbreviation legend_object := (legend_object py_str).
Local Abbreviation legend_path := (legend_path py_str).
Local Abbreviation matches := (matches str_lower).
Local Abbreviation named_visit :=
  (named_visit Keycap_str py_str str_lower FS path_exists).
Local Abbreviation any_match := (any_match str_lower).


(** What a loop over the catalog did, visit by visit. *)
Lemma for_keycaps_spec (body : obj → result visit) (todo done : list obj)
    (matched : bool) (w w' : world FS) (r : result bool) :
  for_keycaps body done todo matched w = (r, w') →
  ∃ (seen rest : list obj) (vs : list visit),
    todo = seen ++ rest
    ∧ Forall2 (λ k v, body k = Ok v) seen vs
    ∧ SEM w' = SEM w ∧ fs w' = fs w
    ∧ KEYCAPS w' = done ++ (v_keycap <$> vs) ++ rest
    ∧ COMMANDS w' = COMMANDS w ++ concat (v_commands <$> vs)
    ∧ stdout w' = stdout w ++ concat (v_prints <$> vs)
    ∧ ((rest = [] ∧ r = Ok (matched || existsb v_matched vs))
       ∨ ∃ k rest' e, rest = k :: rest' ∧ body k = Raise e ∧ r = Raise e).
Proof.
  revert done matched w.
  induction todo as [|k todo IH]; intros done matched w Hloop; simpl in Hloop.
  - simplify_eq. exists [], [], []. simpl.
    rewrite !app_nil_r, orb_false_r. split_and!; auto.
  - destruct (body k) as [v|e] eqn:Hbody.
    + apply IH in Hloop
        as (seen & rest & vs & -> & Hvs & Hsem & Hfs & Hks & Hc & Hs & Hr).
      exists (k :: seen), rest, (v :: vs). simpl in *.
      rewrite Hks, Hc, Hs, <-!app_assoc. simpl.
      split_and!; auto.
      destruct Hr as [[-> ->]|Hr]; [left|right; done].
      by rewrite orb_assoc.
    + simplify_eq. exists [], (k :: todo), []. simpl.
      rewrite !app_nil_r. split_and!; eauto 10.
Qed.

(** A loop whose body raises on no keycap of the catalog. *)
Lemma each_keycap_total (body : FS → obj → result visit) (f : obj → visit)
    (matched : bool) (w : world FS) :
  Forall (λ k, body (fs w) k = Ok (f k)) (KEYCAPS w) →
  ∃ w', each_keycap body matched w
        = (Ok (matched || existsb (λ k, v_matched (f k)) (KEYCAPS w)), w')
    ∧ SEM w' = SEM w ∧ fs w' = fs w
    ∧ KEYCAPS w' = (λ k, v_keycap (f k)) <$> KEYCAPS w
    ∧ COMMANDS w' = COMMANDS w ++ concat ((λ k, v_commands (f k)) <$> KEYCAPS w)
    ∧ stdout w' = stdout w ++ concat ((λ k, v_prints (f k)) <$> KEYCAPS w).
Proof.
  intros Hok. unfold each_keycap.
  destruct (for_keycaps (body (fs w)) [] (KEYCAPS w) matched w) as [r w'] eqn:Hloop.
  apply for_keycaps_spec in Hloop
    as (seen & rest & vs & Hks & Hvs & Hsem & Hfs & Hks' & Hc & Hs & Hr).
  assert (vs = f <$> seen) as ->.
  { rewrite Hks in Hok. apply Forall_app in Hok as [Hseen _].
    clear -Hvs Hseen. induction Hvs as [|k v seen vs Hv _ IH]; [done|].
    apply Forall_cons_1 in Hseen as [Hk Hseen]. rewrite Hk in Hv.
    simplify_eq. by rewrite fmap_cons, IH. }
  destruct Hr as [[-> ->]|(k & rest' & e & -> & Hk & _)].
  - rewrite app_nil_r in Hks. rewrite app_nil_r in Hks'. subst seen.
    exists w'. rewrite <-!list_fmap_compose in *. simpl in Hks'.
    split_and!; try done.
    do 3 f_equal. clear. induction (KEYCAPS w); [done|]. simpl. by f_equal.
  - rewrite Hks in Hok. apply Forall_app in Hok as [_ Hrest].
    apply Forall_cons_1 in Hrest as [Hk' _]. by rewrite Hk' in Hk.
Qed.

(** *** The file a keycap is rendered to *)

Lemma output_file_insert (args : Args) (k : obj) (a : string) (v : val) :
  a ≠ "name" → a ≠ "file_type" →
  output_file py_str args (<[a := v]> k) = output_file py_str args k.
Proof.
  intros Hn Hf. unfold output_file, attr. by rewrite ?lookup_insert_ne.
Qed.

Lemma output_file_apply_flags (args : Args) (k : obj) :
  output_file py_str args (apply_flags args k) = output_file py_str args k.
Proof.
  unfold apply_flags.
  destruct (skip_colorscad args), (transparent args);
    by rewrite ?output_file_insert.
Qed.

Lemma has_path_output_file (args : Args) (k : obj) :
  has_path k → ∃ p, output_file py_str args k = Ok p.
Proof.
  intros [[n Hn] [t Ht]]. unfold output_file, attr. rewrite Hn, Ht. simpl. eauto.
Qed.

Lemma render_keycap_visit (args : Args) (files : FS) (k : obj) :
  has_path k →
  render_keycap Keycap_str py_str path_exists args files k
  = Ok (render_visit args files k).
Proof.
  intros Hk. destruct (has_path_output_file args k Hk) as [p Hp].
  unfold render_keycap, render_visit, renders.
  rewrite output_file_insert, Hp by done. simpl.
  destruct (force args), (path_exists files p); done.
Qed.

(** *** What an action leaves as it found it *)

Lemma preserves_bind {A B} (Q : relation (world FS)) `{!Transitive Q}
    (m : M FS A) (f : A → M FS B) :
  preserves Q m → (∀ a, preserves Q (f a)) → preserves Q (m ≫= f).
Proof.
  intros Hm Hf w r w'. unfold mbind, M_bind.
  destruct (m w) as [[a|e] w1] eqn:Hmw; intros Hr.
  - etrans; [by eapply Hm|by eapply Hf].
  - simplify_eq. by eapply Hm.
Qed.

Lemma preserves_pure {A} (Q : relation (world FS)) `{!Reflexive Q}
    (r : result A) :
  preserves Q (λ w, (r, w)).
Proof. intros w r' w' ?. by simplify_eq. Qed.

Lemma preserves_ret {A} (Q : relation (world FS)) `{!Reflexive Q} (a : A) :
  preserves Q (mret a).
Proof. apply (preserves_pure Q (Ok a)). Qed.

Lemma preserves_raise {A} (Q : relation (world FS)) `{!Reflexive Q} (e : exn) :
  preserves Q (raise (A := A) e).
Proof. apply (preserves_pure Q (Raise e)). Qed.

Lemma preserves_lift {A} (Q : relation (world FS)) `{!Reflexive Q}
    (r : result A) :
  preserves Q (lift r).
Proof. apply (preserves_pure Q r). Qed.

Ltac solve_pure :=
  first [ apply preserves_ret | apply preserves_raise | apply preserves_lift ];
  apply _.

Lemma preserves_if {A} (Q : relation (world FS)) (b : bool) (m1 m2 : M FS A) :
  preserves Q m1 → preserves Q m2 → preserves Q (if b then m1 else m2).
Proof. by destruct b. Qed.

#[local] Instance keycaps_changed_in_refl S : Reflexive (keycaps_changed_in S).
Proof. intros w. apply Forall2_unchanged_refl. Qed.

#[local] Instance keycaps_changed_in_trans S : Transitive (keycaps_changed_in S).
Proof. intros w1 w2 w3. apply Forall2_unchanged_trans. Qed.

#[local] Instance same_SEM_refl : Reflexive same_SEM.
Proof. by intros w. Qed.

#[local] Instance same_SEM_trans : Transitive same_SEM.
Proof. intros w1 w2 w3 H12 H23. unfold same_SEM in *. congruence. Qed.

Lemma for_keycaps_changed_in (S : list string) (body : FS → obj → result visit)
    (matched : bool) :
  (∀ files k v, body files k = Ok v → unchanged_except S k (v_keycap v)) →
  preserves (keycaps_changed_in S) (each_keycap body matched).
Proof.
  intros Hbody w r w' Hloop. unfold each_keycap in Hloop.
  apply for_keycaps_spec in Hloop
    as (seen & rest & vs & Hks & Hvs & _ & _ & Hks' & _).
  unfold keycaps_changed_in. rewrite Hks, Hks'. simpl.
  apply Forall2_app; [|apply Forall2_unchanged_refl].
  clear -Hvs Hbody. induction Hvs; simpl; constructor; eauto.
Qed.

Lemma for_keycaps_same_SEM (body : FS → obj → result visit) (matched : bool) :
  preserves same_SEM (each_keycap body matched).
Proof.
  intros w r w' Hloop. unfold each_keycap in Hloop.
  by apply for_keycaps_spec in Hloop as (_ & _ & _ & _ & _ & ? & _).
Qed.

Lemma unchanged_apply_flags (S : list string) (args : Args) (k k' : obj) :
  "use_colorscad" ∈ S → "stem_color" ∈ S →
  unchanged_except S k k' → unchanged_except S k (apply_flags args k').
Proof.
  intros H1 H2 Hk. unfold apply_flags.
  destruct (skip_colorscad args), (transparent args);
    repeat apply unchanged_insert; done.
Qed.

Ltac solve_unchanged :=
  repeat first
    [ apply unchanged_refl
    | apply unchanged_apply_flags; [set_solver|set_solver|]
    | apply unchanged_insert; [set_solver|] ].

Lemma render_keycap_unchanged (args : Args) (files : FS) (k : obj) (v : visit) :
  render_keycap Keycap_str py_str path_exists args files k = Ok v →
  unchanged_except flag_attrs k (v_keycap v).
Proof.
  unfold render_keycap, flag_attrs. intros Hv.
  destruct (output_file _ _ _) as [p|]; simplify_eq/=.
  destruct (negb (force args) && path_exists files p); simplify_eq/=;
    solve_unchanged.
Qed.

Lemma render_legend_unchanged (args : Args) (files : FS) (k : obj) (v : visit) :
  render_legend Keycap_str py_str path_exists args files k = Ok v →
  unchanged_except legend_attrs k (v_keycap v).
Proof.
  unfold render_legend, legend_attrs. intros Hv.
  destruct (attr k "legends") as [l|]; simplify_eq/=.
  destruct (no_legends l); simplify_eq/=; [solve_unchanged|].
  destruct (attr k "name") as [n|]; simplify_eq/=.
  destruct (output_file _ _ _) as [p|]; simplify_eq/=.
  destruct (negb (force args) && path_exists files p); simplify_eq/=;
    solve_unchanged.
Qed.

Lemma render_named_unchanged (args : Args) (files : FS) (name : string)
    (k : obj) (v : visit) :
  render_named Keycap_str py_str str_lower path_exists args files name k = Ok v →
  unchanged_except legend_attrs k (v_keycap v)
  ∧ (legends args = false → unchanged_except flag_attrs k (v_keycap v)).
Proof.
  unfold render_named, legend_attrs, flag_attrs. intros Hv.
  destruct (name_matches str_lower k name) as [[]|]; simplify_eq/=;
    [|split; intros; solve_unchanged].
  destruct (output_file _ _ _) as [p|]; simplify_eq/=.
  destruct (legends args); simplify_eq/=; [|split; intros; solve_unchanged].
  destruct (attr _ "name") as [n|]; simplify_eq/=.
  destruct (output_file _ _ _) as [lp|]; simplify_eq/=.
  destruct (path_exists files lp); simplify_eq/=; (split; [solve_unchanged|done]).
Qed.

Lemma names_loop_changed_in (S : list string) (args : Args)
    (requested : list string) (matched : bool) :
  (∀ files name k v,
     render_named Keycap_str py_str str_lower path_exists args files name k = Ok v →
     unchanged_except S k (v_keycap v)) →
  preserves (keycaps_changed_in S)
    (names_loop Keycap_str py_str str_lower path_exists args requested matched).
Proof.
  intros Hbody. revert matched.
  induction requested as [|name rest IH]; intros matched; simpl.
  - solve_pure.
  - apply preserves_bind; [apply _| |done].
    apply for_keycaps_changed_in. intros files k v. apply Hbody.
Qed.

Lemma names_loop_same_SEM (args : Args) (requested : list string)
    (matched : bool) :
  preserves same_SEM
    (names_loop Keycap_str py_str str_lower path_exists args requested matched).
Proof.
  revert matched. induction requested as [|name rest IH]; intros matched; simpl.
  - solve_pure.
  - apply preserves_bind; [apply _| |done]. apply for_keycaps_same_SEM.
Qed.

Lemma print_keeps (Q : relation (world FS)) (line : string) :
  (∀ w, Q w (print line w).2) → preserves Q (print line).
Proof. intros HQ w r w' Hp. unfold print in *. simplify_eq. apply HQ. Qed.

Lemma print_keycaps_keeps (Q : relation (world FS)) `{!Reflexive Q}
    `{!Transitive Q} :
  (∀ line w, Q w (print line w).2) → preserves Q print_keycaps.
Proof.
  intros HQ. unfold print_keycaps.
  apply preserves_bind; [done|by apply print_keeps|intros ?].
  apply preserves_bind; [done| |intros ?].
  { intros w r w' ?. by simplify_eq. }
  apply preserves_bind; [done|solve_pure|intros ?].
  by apply print_keeps.
Qed.

Lemma dispatch_keeps (Q : relation (world FS)) `{!Reflexive Q} `{!Transitive Q}
    (argc : nat) (args : Args) :
  (∀ line w, Q w (print line w).2) → (∀ f w, Q w (set_fs f w).2) →
  preserves Q (full_batch Keycap_str py_str path_exists args) →
  preserves Q (names_branch Keycap_str py_str str_lower path_exists args) →
  preserves Q (dispatch Keycap_str py_str str_lower argparse_help path_exists
                 os_mkdir argc args).
Proof.
  intros Hprint Hfs Hfull Hnames. unfold dispatch.
  destruct (decide (argc = 1%nat)).
  { apply preserves_bind; [done|by apply print_keeps|intros ?].
    apply preserves_bind; [done|by apply print_keeps|intros ?].
    apply preserves_bind; [done|by apply print_keycaps_keeps|intros ?].
    solve_pure. }
  destruct (keycaps args).
  { apply preserves_bind; [done|by apply print_keycaps_keeps|intros ?].
    solve_pure. }
  apply preserves_bind; [done| |intros files].
  { intros w r w' ?. by simplify_eq. }
  apply preserves_bind; [done| |intros ?].
  { destruct (path_exists files (out args)); [solve_pure|].
    apply preserves_bind; [done|by apply print_keeps|intros ?].
    apply preserves_bind; [done|solve_pure|intros ?].
    intros w r w' Hset. unfold set_fs in Hset. simplify_eq. apply Hfs. }
  apply preserves_bind; [done|by apply print_keeps|intros ?].
  by destruct (names args).
Qed.

Lemma generation_changes (S : list string) (argc : nat) (args : Args)
    (w : world FS) :
  flag_attrs ⊆ S →
  (legends args = true → legend_attrs ⊆ S) →
  keycaps_changed_in S w
    (generate Keycap_str py_str str_lower argparse_help path_exists os_mkdir
       argc args w).2.
Proof.
  intros HS HSl.
  assert (∀ files k v,
    render_keycap Keycap_str py_str path_exists args files k = Ok v →
    unchanged_except S k (v_keycap v)) as Hkeycap.
  { intros files k v Hv. eapply unchanged_weaken; [done|].
    by eapply render_keycap_unchanged. }
  assert (∀ files k v, legends args = true →
    render_legend Keycap_str py_str path_exists args files k = Ok v →
    unchanged_except S k (v_keycap v)) as Hlegend.
  { intros files k v Hl Hv. eapply unchanged_weaken; [by apply HSl|].
    by eapply render_legend_unchanged. }
  assert (∀ files name k v,
    render_named Keycap_str py_str str_lower path_exists args files name k = Ok v →
    unchanged_except S k (v_keycap v)) as Hnamed.
  { intros files name k v Hv. apply render_named_unchanged in Hv as [H6 H3].
    destruct (legends args) eqn:Hl.
    - eapply unchanged_weaken; [by apply HSl|done].
    - eapply unchanged_weaken; [done|by apply H3]. }
  destruct (generate _ _ _ _ _ _ argc args w) as [r w'] eqn:Hgen. simpl.
  revert w r w' Hgen.
  change (preserves (keycaps_changed_in S)
            (generate Keycap_str py_str str_lower argparse_help path_exists
               os_mkdir argc args)).
  unfold generate.
  apply preserves_bind; [apply _|solve_pure|intros sem].
  apply preserves_bind; [apply _| |intros ?].
  { intros w1 r1 w1' Hset. unfold set_SEM in Hset. simplify_eq.
    apply Forall2_unchanged_refl. }
  apply dispatch_keeps; try apply _.
  - intros line w1. apply Forall2_unchanged_refl.
  - intros f w1. apply Forall2_unchanged_refl.
  - unfold full_batch. apply preserves_bind; [apply _| |intros ?].
    { unfold render_pass. apply preserves_bind; [apply _| |intros ?].
      - by apply for_keycaps_changed_in.
      - solve_pure. }
    destruct (legends args) eqn:Hl; [|solve_pure].
    unfold legends_pass. apply preserves_bind; [apply _| |intros ?].
    + apply for_keycaps_changed_in. intros files k v. by apply Hlegend.
    + solve_pure.
  - unfold names_branch. apply preserves_bind; [apply _| |intros matched].
    { by apply names_loop_changed_in. }
    destruct matched; [solve_pure|].
    apply print_keeps. intros w1. apply Forall2_unchanged_refl.
Qed.

Lemma dispatch_same_SEM (argc : nat) (args : Args) :
  preserves same_SEM
    (dispatch Keycap_str py_str str_lower argparse_help path_exists os_mkdir
       argc args).
Proof.
  apply dispatch_keeps; try apply _; try done.
  - unfold full_batch. apply preserves_bind; [apply _| |intros ?].
    { unfold render_pass. apply preserves_bind; [apply _| |intros ?].
      - apply for_keycaps_same_SEM.
      - solve_pure. }
    destruct (legends args); [|solve_pure].
    unfold legends_pass. apply preserves_bind; [apply _| |intros ?].
    + apply for_keycaps_same_SEM.
    + solve_pure.
  - unfold names_branch. apply preserves_bind; [apply _| |intros matched].
    { apply names_loop_same_SEM. }
    destruct matched; [solve_pure|]. by apply print_keeps.
Qed.

Lemma generate_binds_SEM (argc : nat) (args : Args) (w w' : world FS) :
  generate Keycap_str py_str str_lower argparse_help path_exists os_mkdir
    argc args w = (Ok tt, w') →
  (0 ≤ jobs args)%Z ∧ SEM w' = Some (jobs args).
Proof.
  unfold generate, mbind, M_bind, lift, Semaphore, set_SEM.
  destruct (Z.ltb_spec (jobs args) 0); [done|].
  match goal with |- context [dispatch _ _ _ _ _ _ _ _ ?w1] =>
    destruct (dispatch Keycap_str py_str str_lower argparse_help path_exists
                os_mkdir argc args w1) as [r w2] eqn:Hd end.
  apply dispatch_same_SEM in Hd. unfold same_SEM in Hd. simpl in Hd.
  intros ?. simplify_eq. done.
Qed.

(** *** The legends pass *)

Lemma apply_flags_lookup (args : Args) (k : obj) (a : string) :
  a ≠ "use_colorscad" → a ≠ "stem_color" → apply_flags args k !! a = k !! a.
Proof.
  intros H1 H2. unfold apply_flags.
  destruct (skip_colorscad args), (transparent args);
    by rewrite ?lookup_insert_ne.
Qed.

Lemma legend_object_path (args : Args) (n : val) (k : obj) :
  output_file py_str args (legend_object args n k) = Ok (legend_path args n).
Proof.
  unfold output_file, attr, legend_object. by rewrite ?lookup_ins.
Qed.

Lemma render_legend_eq (args : Args) (files : FS) (k : obj) (l n : val) :
  k !! "legends" = Some l → k !! "name" = Some n →
  render_legend Keycap_str py_str path_exists args files k
  = Ok (if no_legends l then
          {| v_keycap := k; v_commands := []; v_prints := [];
             v_matched := false |}
        else if negb (force args) && path_exists files (legend_path args n) then
          {| v_keycap := legend_object args n k; v_commands := [];
             v_prints := [skipping (legend_path args n)]; v_matched := false |}
        else
          {| v_keycap := apply_flags args (legend_object args n k);
             v_commands := [Keycap_str (apply_flags args (legend_object args n k))];
             v_prints := [rendering (legend_path args n);
                          Keycap_str (apply_flags args (legend_object args n k))];
             v_matched := false |}).
Proof.
  intros Hl Hn. unfold render_legend, attr. rewrite Hl, Hn. simpl.
  destruct (no_legends l); [done|].
  fold (legend_object args n k). rewrite legend_object_path. simpl.
  by destruct (negb (force args) && path_exists files (legend_path args n)).
Qed.

Lemma render_legend_visit (args : Args) (files : FS) (k : obj) :
  has_legends k →
  render_legend Keycap_str py_str path_exists args files k
  = Ok (legend_visit args files k)
  ∧ legend_made args k (v_keycap (legend_visit args files k))
  ∧ v_commands (legend_visit args files k)
    = (if legend_due args files (v_keycap (legend_visit args files k))
       then [Keycap_str (v_keycap (legend_visit args files k))] else []).
Proof.
  intros [[l Hl] [n Hn]]. unfold legend_visit, legend_made, legend_due.
  rewrite (render_legend_eq args files k l n Hl Hn), Hl, Hn.
  destruct (no_legends l) eqn:Hno; simpl.
  { rewrite Hl, Hno. simpl. split_and!; try done. by repeat case_match. }
  assert (legend_object args n k !! "legends" = Some l) as Hlo.
  { unfold legend_object. by rewrite ?lookup_ins. }
  destruct (negb (force args) && path_exists files (legend_path args n))
    eqn:Hskip; simpl.
  - rewrite Hlo, legend_object_path, Hno. split; [done|]. split.
    + unfold legend_object. by rewrite ?lookup_ins.
    + by destruct (force args), (path_exists files (legend_path args n)).
  - rewrite !apply_flags_lookup by done.
    rewrite Hlo, output_file_apply_flags, legend_object_path, Hno.
    split; [done|]. split.
    + unfold legend_object. by rewrite ?lookup_ins.
    + by destruct (force args), (path_exists files (legend_path args n)).
Qed.

(** C6, amended: the legends pass of the full batch leaves a record whose
    legends are [[""]] as it is and makes no command for it; every other
    record gets its name suffixed [_legends], [render = ["legends"]] and
    [file_type = "stl"], and its command is appended exactly when
    [--force] is given or the file [{out}/{name}_legends.stl] does not
    exist yet. *)
Theorem legends_pass_makes_legend_commands (args : Args) (w : world FS) :
  Forall has_legends (KEYCAPS w) →
  ∃ w', legends_pass Keycap_str py_str path_exists args w = (Ok tt, w')
    ∧ Forall2 (legend_made args) (KEYCAPS w) (KEYCAPS w')
    ∧ COMMANDS w'
      = COMMANDS w
        ++ (Keycap_str
              <$> filter (λ k', legend_due args (fs w) k' = true) (KEYCAPS w')).
Proof.
  intros Hks.
  destruct (each_keycap_total
              (render_legend Keycap_str py_str path_exists args)
              (legend_visit args (fs w)) false w)
    as (w' & Hloop & _ & _ & Hks' & Hc & _).
  { eapply Forall_impl; [done|]. intros k Hk. by apply render_legend_visit. }
  exists w'. unfold legends_pass, mbind, M_bind. rewrite Hloop.
  split; [done|]. rewrite Hks', Hc. split.
  - apply Forall2_fmap_r, Forall_Forall2_diag.
    eapply Forall_impl; [done|]. intros k Hk. by apply render_legend_visit.
  - f_equal. clear -Hks. induction Hks as [|k ks Hk _ IH]; [done|].
    rewrite !fmap_cons, filter_cons. simpl. rewrite IH.
    destruct (render_legend_visit args (fs w) k Hk) as (_ & _ & ->).
    by destruct (legend_due args (fs w) _).
Qed.

(** *** The named-keycap branch *)

Lemma render_named_props (args : Args) (files : FS) (name : string) (k : obj) :
  named k →
  ∃ v, render_named Keycap_str py_str str_lower path_exists args files name k
       = Ok v
    ∧ v_matched v = matches name k
    ∧ named (v_keycap v)
    ∧ (matches name k = false → v = idle k).
Proof.
  intros [[s Hs] [t Ht]]. unfold matches.
  unfold render_named, name_matches, attr. rewrite Hs. simpl.
  destruct (String.eqb (str_lower s) (str_lower name)); simpl.
  2: { eexists. split_and!; try done. split; eauto. }
  destruct (has_path_output_file args k) as [p Hp]; [by split; eauto|].
  rewrite output_file_insert, Hp by done. simpl.
  fold (configured args k).
  assert (configured args k !! "name" = Some (VStr s)) as Hcn.
  { unfold configured. by rewrite apply_flags_lookup, ?lookup_ins by done. }
  assert (configured args k !! "file_type" = Some t) as Hct.
  { unfold configured. by rewrite apply_flags_lookup, ?lookup_ins by done. }
  destruct (legends args); simpl.
  - rewrite Hcn. simpl. unfold output_file at 1. unfold attr.
    rewrite ?lookup_ins. simpl.
    match goal with |- context [path_exists files ?q] =>
      destruct (path_exists files q) end; simpl.
    all: eexists; (split; [reflexivity|]); simpl; split_and!; try done.
    all: split; eexists; by rewrite ?lookup_ins.
  - eexists. split_and!; try done. split; eauto.
Qed.

Lemma render_named_visit (args : Args) (files : FS) (name : string) (k : obj) :
  named k →
  render_named Keycap_str py_str str_lower path_exists args files name k
  = Ok (named_visit args files name k)
  ∧ v_matched (named_visit args files name k) = matches name k
  ∧ named (v_keycap (named_visit args files name k))
  ∧ (matches name k = false → named_visit args files name k = idle k).
Proof.
  intros Hk. destruct (render_named_props args files name k Hk)
    as (v & Hv & Hprops).
  unfold named_visit. by rewrite Hv.
Qed.

Lemma set_keycaps_id (w : world FS) : set_keycaps (KEYCAPS w) w = w.
Proof. by destruct w. Qed.

Lemma world_eq (w w' : world FS) :
  SEM w' = SEM w → COMMANDS w' = COMMANDS w → KEYCAPS w' = KEYCAPS w →
  stdout w' = stdout w → fs w' = fs w → w' = w.
Proof. destruct w, w'; simpl; intros; by subst. Qed.

Lemma named_pass (args : Args) (name : string) (matched : bool) (w : world FS) :
  Forall named (KEYCAPS w) →
  ∃ w', each_keycap
          (λ files, render_named Keycap_str py_str str_lower path_exists args
                      files name) matched w
        = (Ok (matched || existsb (matches name) (KEYCAPS w)), w')
    ∧ Forall named (KEYCAPS w')
    ∧ (existsb (matches name) (KEYCAPS w) = false → w' = w).
Proof.
  intros Hks.
  destruct (each_keycap_total
              (λ files, render_named Keycap_str py_str str_lower path_exists
                          args files name)
              (named_visit args (fs w) name) matched w)
    as (w' & Hloop & Hsem & Hfs & Hks' & Hc & Hs).
  { eapply Forall_impl; [done|]. intros k Hk. by apply render_named_visit. }
  exists w'. split; [|split].
  - rewrite Hloop. do 3 f_equal. clear -Hks.
    induction Hks as [|k ks Hk _ IH]; [done|]. simpl. rewrite IH.
    by destruct (render_named_visit args (fs w) name k Hk) as (_ & -> & _).
  - rewrite Hks'. apply Forall_fmap. eapply Forall_impl; [done|].
    intros k Hk. by apply render_named_visit.
  - intros Hnone.
    assert (Forall (λ k, named_visit args (fs w) name k = idle k) (KEYCAPS w))
      as Hidle.
    { clear -Hks Hnone. induction Hks as [|k ks Hk _ IH]; [done|].
      simpl in Hnone. apply orb_false_elim in Hnone as [Hk' Hrest].
      constructor; [by apply render_named_visit|by apply IH]. }
    apply world_eq; try done.
    + rewrite Hc. clear -Hidle.
      induction Hidle as [|k ks Hk _ IH]; simpl; [by rewrite app_nil_r|].
      rewrite Hk. simpl. done.
    + rewrite Hks'. clear -Hidle.
      induction Hidle as [|k ks Hk _ IH]; simpl; [done|].
      rewrite Hk. simpl. by f_equal.
    + rewrite Hs. clear -Hidle.
      induction Hidle as [|k ks Hk _ IH]; simpl; [by rewrite app_nil_r|].
      rewrite Hk. simpl. done.
Qed.

Lemma names_loop_matched (args : Args) (requested : list string)
    (matched : bool) (w : world FS) :
  Forall named (KEYCAPS w) →
  ∃ w', names_loop Keycap_str py_str str_lower path_exists args requested
          matched w
        = (Ok (matched || any_match requested (KEYCAPS w)), w')
    ∧ (matched || any_match requested (KEYCAPS w) = false → w' = w).
Proof.
  revert matched w.
  induction requested as [|name rest IH]; intros matched w Hks; simpl.
  - exists w. by rewrite orb_false_r.
  - destruct (named_pass args name matched w Hks) as (w1 & Hpass & Hks1 & Hsame).
    unfold mbind, M_bind. rewrite Hpass.
    destruct (IH (matched || existsb (matches name) (KEYCAPS w)) w1 Hks1)
      as (w' & Hloop & Hsame').
    exists w'. rewrite Hloop.
    destruct (existsb (matches name) (KEYCAPS w)) eqn:Hhit; simpl.
    + rewrite !orb_true_r. simpl. done.
    + specialize (Hsame eq_refl). subst w1.
      rewrite orb_false_r in *. done.
Qed.

(** C9: in the named-keycap branch the requested names are compared with
    the catalog names in lower case, and one [matched] flag serves all of
    them: if any requested name matches any keycap, nothing is reported
    after the loops; if none does, the loops change nothing and the one
    message that is printed names the last requested name only. *)
Theorem unmatched_names_report_last (args : Args) (w : world FS) :
  Forall named (KEYCAPS w) →
  (any_match (names args) (KEYCAPS w) = true →
   ∃ w', names_loop Keycap_str py_str str_lower path_exists args (names args)
           false w = (Ok true, w')
     ∧ names_branch Keycap_str py_str str_lower path_exists args w = (Ok tt, w'))
  ∧ (any_match (names args) (KEYCAPS w) = false →
     names_branch Keycap_str py_str str_lower path_exists args w
     = print ("Cound not find a keycap named "
              +:+ default EmptyString (last (names args))) w).
Proof.
  intros Hks.
  destruct (names_loop_matched args (names args) false w Hks)
    as (w' & Hloop & Hsame). simpl in *.
  unfold names_branch, mbind, M_bind. rewrite Hloop. split; intros Hany.
  - exists w'. by rewrite Hany.
  - rewrite Hany in *. by rewrite (Hsame eq_refl).
Qed.

(** *** The help and listing exits *)

(** C10, amended: with no command-line argument the script prints the
    usage help, an empty line and the listing of the keycap names, and
    exits with status 1; with [--keycaps] and a non-negative [--jobs] it
    prints the listing and exits with status 1.  In both cases no command
    is appended and the file system is not touched. *)
Theorem help_and_listing_exit (w : world FS) (listing : string) :
  keycap_names (KEYCAPS w) = Ok listing →
  let header := BRIGHT +:+ "Here's all the keycaps we can render:" +:+ NEWLINE
                +:+ RESET_ALL in
  generate Keycap_str py_str str_lower argparse_help path_exists os_mkdir
    1 default_args w
  = (Raise (SystemExit 1),
     {| SEM := Some 8%Z; COMMANDS := COMMANDS w; KEYCAPS := KEYCAPS w;
        stdout := stdout w ++ [argparse_help; EmptyString; header; listing];
        fs := fs w |})
  ∧ exit_status (A := unit) (Raise (SystemExit 1)) = 1%Z
  ∧ ∀ argc args,
      argc ≠ 1%nat → keycaps args = true → (0 ≤ jobs args)%Z →
      generate Keycap_str py_str str_lower argparse_help path_exists os_mkdir
        argc args w
      = (Raise (SystemExit 1),
         {| SEM := Some (jobs args); COMMANDS := COMMANDS w;
            KEYCAPS := KEYCAPS w; stdout := stdout w ++ [header; listing];
            fs := fs w |}).
Proof.
  intros Hnames header. split; [|split; [done|]].
  - unfold generate, dispatch, print_keycaps, mbind, M_bind, lift, print,
      set_SEM, raise. simpl. rewrite Hnames. simpl.
    by rewrite <-!app_assoc.
  - intros argc args Hargc Hk Hjobs.
    unfold generate, dispatch, print_keycaps, mbind, M_bind, lift, print,
      set_SEM, raise, Semaphore.
    destruct (Z.ltb_spec (jobs args) 0); [lia|].
    destruct (decide (argc = 1%nat)); [done|]. rewrite Hk. simpl.
    rewrite Hnames. simpl. by rewrite <-!app_assoc.
Qed.

End ScriptFacts.

(** ** Constructors: a run on plain keywords follows the run without them

    A constructor called with keywords [kc ∪ kwb], where [kwb] only names
    attributes that no class assigns, behaves like the same constructor
    called with [kc] over smaller defaults: the object it builds is the
    other one laid over [kwb] and the defaults. *)

Section Simulation.
Variable kwb : gmap string val.
Variable D Dc : obj.
Hypothesis kwb_plain : plain kwb.
Hypothesis Dc_sub : Dc ⊆ D.
Hypothesis Dc_fresh : ∀ k, is_Some (kwb !! k) → Dc !! k = None.

Local Abbreviation under := (under kwb D).
Local Abbreviation sim := (sim kwb D).
Local Abbreviation simulates := (simulates kwb D).
Local Abbreviation simulates_rhs := (simulates_rhs kwb D).
Local Abbreviation sim_self := (sim_self kwb D).
Local Abbreviation sim_kwargs := (sim_kwargs kwb D).
Local Abbreviation sim_alias := (sim_alias kwb D).
Local Abbreviation sim_dom := (sim_dom kwb D).
Local Abbreviation sim_fresh := (sim_fresh kwb D).


Local Abbreviation u := under.

Lemma kwb_under (k : string) (v : val) : kwb !! k = Some v → u !! k = Some v.
Proof. intros Hk. by apply lookup_union_Some_l. Qed.

Lemma plain_None (a : string) : a ≠ "name" → a ≠ "legends" → kwb !! a = None.
Proof.
  intros H1 H2. destruct (kwb !! a) eqn:Ha; [|done].
  destruct (kwb_plain a) as [?|?]; [by rewrite Ha|done..].
Qed.

Lemma sim_lookup (stc st : cstate) (a : string) (v : val) :
  sim stc st → self stc !! a = Some v → self st !! a = Some v.
Proof. intros [Hs _ _ _ _] Ha. rewrite Hs. by apply lookup_union_Some_l. Qed.

Lemma sim_get_attr (stc st : cstate) (a : string) (v : val) :
  sim stc st → get_attr a stc = Ok v → get_attr a st = Ok v.
Proof.
  unfold get_attr. intros Hsim Hc.
  destruct (self stc !! a) as [w|] eqn:Ha; simplify_eq.
  by rewrite (sim_lookup stc st a v Hsim Ha).
Qed.

Lemma sim_get_item (a : string) (i : nat) : simulates_rhs (get_item a i).
Proof.
  intros stc st v Hsim. unfold get_item.
  destruct (get_attr a stc) as [w|] eqn:Ha; [|done].
  by rewrite (sim_get_attr stc st a w Hsim Ha).
Qed.

Lemma sim_rhs_bind (rhs : cstate → result val) (g : val → val) :
  simulates_rhs rhs → simulates_rhs (λ st, r ← rhs st; Ok (g r)).
Proof.
  intros Hrhs stc st v Hsim. simpl.
  destruct (rhs stc) as [w|] eqn:Hr; [|done].
  by rewrite (Hrhs stc st w Hsim Hr).
Qed.

Lemma sim_seq (fc fr gc gr : cstate → result cstate) :
  simulates fc fr → simulates gc gr → simulates (fc >> gc) (fr >> gr).
Proof.
  intros Hf Hg stc st stc' Hsim. unfold seq.
  destruct (fc stc) as [stc1|] eqn:Hfc; [|done]. simpl. intros Hgc.
  destruct (Hf stc st stc1 Hsim Hfc) as (st1 & -> & Hsim1). simpl. eauto.
Qed.

Lemma sim_Ok : simulates Ok Ok.
Proof. intros stc st stc' Hsim ?. simplify_eq. eauto. Qed.

Lemma sim_if (b : bool) (fc fr gc gr : cstate → result cstate) :
  simulates fc fr → simulates gc gr →
  simulates (if b then fc else gc) (if b then fr else gr).
Proof. by destruct b. Qed.

Lemma sim_set_attr (a : string) (v : val) :
  kwb !! a = None → simulates (set_attr a v) (set_attr a v).
Proof.
  intros Ha stc st stc' [Hs Hk Hal Hd Hf] Hc. unfold set_attr in *. simplify_eq.
  eexists. split; [done|]. split; simpl.
  - by rewrite Hs, insert_union_l.
  - done.
  - intros b. destruct (decide (a = b)) as [->|Hne].
    + left. by rewrite !lookup_delete_eq.
    + rewrite !lookup_delete_ne by done. apply Hal.
  - intros b k. destruct (decide (a = b)) as [->|Hne].
    + by rewrite lookup_delete_eq.
    + rewrite lookup_delete_ne, lookup_insert_ne by done. apply Hd.
  - intros k Hkb. destruct (Hf k Hkb) as (H1 & H2 & H3). split_and!; [|done|].
    + rewrite lookup_insert_ne; [done|]. intros ->. rewrite Ha in Hkb.
      by destruct Hkb.
    + intros b. destruct (decide (a = b)) as [->|Hne].
      * by rewrite lookup_delete_eq.
      * rewrite lookup_delete_ne by done. apply H3.
Qed.

Lemma sim_assign (a : string) (rhs : cstate → result val) :
  kwb !! a = None → simulates_rhs rhs → simulates (assign a rhs) (assign a rhs).
Proof.
  intros Ha Hrhs stc st stc' Hsim. unfold assign.
  destruct (rhs stc) as [v|] eqn:Hr; [|done]. simpl.
  rewrite (Hrhs stc st v Hsim Hr). simpl. by apply sim_set_attr.
Qed.

Lemma sim_alias_None (stc st : cstate) (a : string) :
  sim stc st → is_Some (self stc !! a) → alias stc !! a = None →
  alias st !! a = None.
Proof.
  intros [_ _ Hal _ Hf] Ha Hc.
  destruct (Hal a) as [->|(_ & _ & Hkb)]; [done|].
  destruct (Hf a Hkb) as (Hnone & _). rewrite Hnone in Ha. by destruct Ha.
Qed.

Lemma sim_alias_Some (stc st : cstate) (a k : string) :
  sim stc st → alias stc !! a = Some k → alias st !! a = Some k.
Proof.
  intros [_ _ Hal _ _] Hc. destruct (Hal a) as [->|(Hn & _)]; [done|].
  congruence.
Qed.

Lemma sim_set_item (a : string) (i : nat) (x : val) :
  simulates (set_item a i x) (set_item a i x).
Proof.
  intros stc st stc' Hsim. unfold set_item.
  destruct (get_attr a stc) as [v|] eqn:Hget; [|done]. simpl.
  rewrite (sim_get_attr stc st a v Hsim Hget). simpl.
  assert (self stc !! a = Some v) as Ha.
  { unfold get_attr in Hget. by destruct (self stc !! a); simplify_eq. }
  destruct v as [| | | | | |l]; try done.
  destruct (decide (i < length l)%nat); [|done].
  destruct (alias stc !! a) as [k|] eqn:Hal.
  - rewrite (sim_alias_Some stc st a k Hsim Hal). intros ?. simplify_eq.
    eexists. split; [done|]. destruct Hsim as [Hs Hk Hali Hd Hf].
    split; simpl.
    + rewrite Hs. apply map_eq. intros b.
      rewrite map_lookup_imap, !lookup_union, map_lookup_imap.
      destruct (self stc !! b) as [w|] eqn:Hb; simpl.
      * assert (alias st !! b = alias stc !! b) as ->.
        { destruct (Hali b) as [->|(Hn & _ & Hkb)]; [done|].
          destruct (Hf b Hkb) as (Hnone & _). congruence. }
        case_decide; by rewrite !union_Some_l.
      * rewrite !(left_id_L None _).
        destruct (u !! b) as [w|] eqn:Hu; simpl; [|done].
        case_decide as Hbk; [|done]. exfalso.
        destruct (Hali b) as [Heq|(_ & Heq & Hkb)].
        -- rewrite Hbk in Heq. symmetry in Heq. apply Hd in Heq.
           rewrite Hb in Heq. by destruct Heq.
        -- rewrite Hbk in Heq. simplify_eq.
           destruct (Hf b Hkb) as (_ & _ & Hno). by apply (Hno a).
    + by rewrite Hk, insert_union_l.
    + done.
    + intros b k' Hb. apply Hd in Hb as [w Hw].
      rewrite map_lookup_imap, Hw. simpl. case_decide; eauto.
    + intros k' Hkb. destruct (Hf k' Hkb) as (H1 & H2 & H3). split_and!; [| |done].
      * by rewrite map_lookup_imap, H1.
      * rewrite lookup_insert_ne; [done|]. intros ->. by apply (H3 a).
  - rewrite (sim_alias_None stc st a Hsim) by (by rewrite ?Ha). intros ?.
    simplify_eq. eexists. split; [done|].
    destruct Hsim as [Hs Hk Hali Hd Hf]. split; simpl.
    + by rewrite Hs, insert_union_l.
    + done.
    + done.
    + intros b k Hb. destruct (decide (a = b)) as [->|Hne].
      * by rewrite lookup_insert_eq.
      * rewrite lookup_insert_ne by done. by eapply Hd.
    + intros k Hkb. destruct (Hf k Hkb) as (H1 & H2 & H3). split_and!; [|done..].
      rewrite lookup_insert_ne; [done|]. intros ->. congruence.
Qed.

Lemma sim_copy_attr (a b : string) :
  kwb !! a = None → simulates (copy_attr a b) (copy_attr a b).
Proof.
  intros Ha stc st stc' Hsim. unfold copy_attr.
  destruct (get_attr b stc) as [v|] eqn:Hget; [|done]. simpl.
  rewrite (sim_get_attr stc st b v Hsim Hget). simpl.
  assert (self stc !! b = Some v) as Hb.
  { unfold get_attr in Hget. by destruct (self stc !! b); simplify_eq. }
  assert (alias st !! b = alias stc !! b) as ->.
  { destruct (alias stc !! b) eqn:Hal.
    - by eapply sim_alias_Some.
    - eapply sim_alias_None; [done| |done]. by rewrite Hb. }
  intros ?. simplify_eq. eexists. split; [done|].
  destruct Hsim as [Hs Hk Hali Hd Hf]. split; simpl.
  - by rewrite Hs, insert_union_l.
  - done.
  - intros c. destruct (alias stc !! b) as [k|].
    + destruct (decide (a = c)) as [->|Hne].
      * left. by rewrite !lookup_insert_eq.
      * rewrite !lookup_insert_ne by done. apply Hali.
    + destruct (decide (a = c)) as [->|Hne].
      * left. by rewrite !lookup_delete_eq.
      * rewrite !lookup_delete_ne by done. apply Hali.
  - intros c k. destruct (decide (a = c)) as [->|Hne].
    + by rewrite lookup_insert_eq.
    + rewrite lookup_insert_ne by done.
      destruct (alias stc !! b) as [k'|].
      * rewrite lookup_insert_ne by done. apply Hd.
      * rewrite lookup_delete_ne by done. apply Hd.
  - intros k Hkb. destruct (Hf k Hkb) as (H1 & H2 & H3). split_and!; [|done|].
    + rewrite lookup_insert_ne; [done|]. intros ->. rewrite Ha in Hkb.
      by destruct Hkb.
    + intros c. destruct (alias stc !! b) as [k'|] eqn:Hal.
      * destruct (decide (a = c)) as [->|Hne].
        -- rewrite lookup_insert_eq. intros ?. simplify_eq. by apply (H3 b).
        -- rewrite lookup_insert_ne by done. apply H3.
      * destruct (decide (a = c)) as [->|Hne].
        -- by rewrite lookup_delete_eq.
        -- rewrite lookup_delete_ne by done. apply H3.
Qed.

Lemma lookup_put_alias (x y : string) (k : option string)
    (m : gmap string string) :
  put_alias x k m !! y = if decide (x = y) then k else m !! y.
Proof.
  unfold put_alias. destruct k; case_decide; subst;
    by rewrite ?lookup_insert_eq, ?lookup_delete_eq,
         ?lookup_insert_ne, ?lookup_delete_ne by done.
Qed.

Lemma sim_swap_attrs (a b : string) :
  kwb !! a = None → kwb !! b = None →
  simulates (swap_attrs a b) (swap_attrs a b).
Proof.
  intros Ha Hb stc st stc' Hsim. unfold swap_attrs.
  destruct (get_attr b stc) as [vb|] eqn:Hgb; [|done]. simpl.
  destruct (get_attr a stc) as [va|] eqn:Hga; [|done]. simpl.
  rewrite (sim_get_attr stc st b vb Hsim Hgb). simpl.
  rewrite (sim_get_attr stc st a va Hsim Hga). simpl.
  assert (self stc !! b = Some vb) as Hlb.
  { unfold get_attr in Hgb. by destruct (self stc !! b); simplify_eq. }
  assert (self stc !! a = Some va) as Hla.
  { unfold get_attr in Hga. by destruct (self stc !! a); simplify_eq. }
  assert (∀ c, is_Some (self stc !! c) → alias st !! c = alias stc !! c) as Heq.
  { intros c Hc. destruct (alias stc !! c) eqn:Hal.
    - by eapply sim_alias_Some.
    - by eapply sim_alias_None. }
  rewrite (Heq a), (Heq b) by (by rewrite ?Hla, ?Hlb).
  fold (put_alias a (alias stc !! b) (alias st)).
  fold (put_alias a (alias stc !! b) (alias stc)).
  fold (put_alias b (alias stc !! a) (put_alias a (alias stc !! b) (alias st))).
  fold (put_alias b (alias stc !! a) (put_alias a (alias stc !! b) (alias stc))).
  intros ?. simplify_eq. eexists. split; [done|].
  destruct Hsim as [Hs Hk Hali Hd Hf]. split; simpl.
  - by rewrite Hs, !insert_union_l.
  - done.
  - intros c. rewrite !lookup_put_alias. repeat case_decide; auto.
  - intros c k. rewrite !lookup_put_alias.
    destruct (decide (b = c)) as [->|Hbc].
    { by rewrite lookup_insert_eq. }
    rewrite (lookup_insert_ne _ b c) by done.
    destruct (decide (a = c)) as [->|Hac].
    { by rewrite lookup_insert_eq. }
    rewrite lookup_insert_ne by done. apply Hd.
  - intros k Hkb. destruct (Hf k Hkb) as (H1 & H2 & H3). split_and!; [|done|].
    + rewrite !lookup_insert_ne; [done|intros ->|intros ->].
      * rewrite Ha in Hkb. by destruct Hkb.
      * rewrite Hb in Hkb. by destruct Hkb.
    + intros c. rewrite !lookup_put_alias. repeat case_decide; apply H3.
Qed.

Lemma sim_postinit (kc : gmap string val) (shared : bool) :
  (∀ k, is_Some (kwb !! k) → kc !! k = None) →
  simulates (postinit kc shared) (postinit (kc ∪ kwb) shared).
Proof.
  intros Hkc stc st stc' [Hs Hk Hali Hd Hf] Hc. unfold postinit in *.
  simplify_eq. eexists. split; [done|].
  assert (∀ a, is_Some (kwb !! a) → alias stc !! a = None) as Hnoal.
  { intros a Ha. destruct (alias stc !! a) as [k|] eqn:Hal; [|done].
    apply Hd in Hal. destruct (Hf a Ha) as (Hno & _). rewrite Hno in Hal.
    by destruct Hal. }
  split; simpl.
  - rewrite Hs. apply map_eq. intros i. rewrite !lookup_union.
    destruct (kc !! i) as [v|] eqn:Hi; simpl.
    { by rewrite !union_Some_l. }
    rewrite !(left_id_L None _).
    destruct (kwb !! i) as [v|] eqn:Hb; simpl.
    + rewrite union_Some_l. destruct (Hf i) as (-> & _); [by rewrite Hb|].
      rewrite (left_id_L None _). symmetry. by apply kwb_under.
    + by rewrite (left_id_L None _).
  - done.
  - intros a. destruct shared.
    + rewrite !lookup_union, !map_lookup_imap, lookup_union.
      destruct (kc !! a) as [v|] eqn:Hi; simpl.
      { left. by repeat (rewrite union_Some_l; simpl). }
      rewrite !(left_id_L None _).
      destruct (kwb !! a) as [v|] eqn:Hb; simpl.
      * right. rewrite union_Some_l. split_and!; [|done|done].
        apply Hnoal. by rewrite Hb.
      * rewrite (left_id_L None _).
        destruct (Hali a) as [?|(_ & _ & Hx)]; [by left|].
        rewrite Hb in Hx. by destruct Hx.
    + rewrite !map_lookup_filter. simpl.
      destruct (kc !! a) as [v|] eqn:Hi.
      { left. assert ((kc ∪ kwb) !! a = Some v) as Hu
          by (by apply lookup_union_Some_l).
        destruct (alias st !! a), (alias stc !! a); simpl;
          rewrite ?option_guard_False by congruence; done. }
      destruct (kwb !! a) as [v|] eqn:Hb.
      { left. assert ((kc ∪ kwb) !! a = Some v) as Hu.
        { rewrite lookup_union, Hi, Hb. done. }
        rewrite (Hnoal a) by (by rewrite Hb). simpl.
        destruct (alias st !! a); simpl;
          rewrite ?option_guard_False by congruence; done. }
      assert ((kc ∪ kwb) !! a = None) as Hu.
      { rewrite lookup_union, Hi, Hb. done. }
      destruct (Hali a) as [Heq|(Hn & Hst & [w Hw])]; [|congruence].
      left. rewrite Heq. destruct (alias stc !! a); simpl;
        rewrite ?option_guard_True by done; done.
  - intros a k. destruct shared.
    + rewrite lookup_union, map_lookup_imap.
      destruct (kc !! a) as [v|] eqn:Hi; simpl.
      { intros _. rewrite lookup_union, Hi. by rewrite union_Some_l. }
      rewrite (left_id_L None _). intros Hal. apply Hd in Hal as [w Hw].
      exists w. by apply lookup_union_Some_r_inv_l || (rewrite lookup_union, Hi, Hw; done).
    + rewrite map_lookup_filter. intros Hal.
      destruct (alias stc !! a) as [k'|] eqn:Hal'; [|done]. simpl in Hal.
      apply Hd in Hal' as [w Hw].
      destruct (kc !! a) as [v|] eqn:Hi.
      * exists v. by apply lookup_union_Some_l.
      * exists w. rewrite lookup_union, Hi, Hw. done.
  - intros k Hkb. destruct (Hf k Hkb) as (H1 & H2 & H3). split_and!; [|done|].
    + rewrite lookup_union, (Hkc k Hkb), H1. done.
    + intros a. destruct shared.
      * rewrite lookup_union, map_lookup_imap.
        destruct (kc !! a) as [v|] eqn:Hi; simpl.
        -- rewrite union_Some_l. intros ?. simplify_eq.
           rewrite (Hkc k Hkb) in Hi. done.
        -- rewrite (left_id_L None _). apply H3.
      * rewrite map_lookup_filter. intros Hal.
        destruct (alias stc !! a) as [k'|] eqn:Hal'; [|done]. simpl in Hal.
        apply (H3 a). rewrite Hal'.
        destruct (decide (kc !! a = None)).
        -- rewrite option_guard_True in Hal by done. done.
        -- rewrite option_guard_False in Hal by done. done.
Qed.

Lemma sim_with_kwargs_copy (body : gmap string val → cstate → result cstate) :
  (∀ kc, (∀ k, is_Some (kwb !! k) → kc !! k = None) →
         simulates (body kc) (body (kc ∪ kwb))) →
  simulates (with_kwargs_copy body) (with_kwargs_copy body).
Proof.
  intros Hbody stc st stc' Hsim. unfold with_kwargs_copy.
  rewrite (sim_kwargs _ _ Hsim). apply Hbody; [|done].
  intros k Hk. by apply (sim_fresh _ _ Hsim).
Qed.

Lemma sim_postinit_kwargs : simulates postinit_kwargs postinit_kwargs.
Proof.
  intros stc st stc' Hsim. unfold postinit_kwargs.
  rewrite (sim_kwargs _ _ Hsim). apply sim_postinit; [|done].
  intros k Hk. by apply (sim_fresh _ _ Hsim).
Qed.

Lemma sim_postinit_base :
  simulates (λ st, postinit (delete "homing_dot" (kwargs st)) true st)
            (λ st, postinit (delete "homing_dot" (kwargs st)) true st).
Proof.
  intros stc st stc' Hsim. simpl. rewrite (sim_kwargs _ _ Hsim).
  rewrite delete_union, (delete_id kwb) by (by apply plain_None).
  apply sim_postinit; [|done].
  intros k Hk. destruct (decide (k = "homing_dot")) as [->|Hne].
  - by rewrite lookup_delete_eq.
  - rewrite lookup_delete_ne by done. by apply (sim_fresh _ _ Hsim).
Qed.

Lemma sim_Keycap_init (kb kc : gmap string val) (stc : cstate) :
  (∀ k, is_Some (kwb !! k) → kb !! k = None) →
  (∀ k, is_Some (kwb !! k) → kc !! k = None) →
  Keycap_init Dc kb kc = Ok stc →
  ∃ st, Keycap_init D (kb ∪ kwb) (kc ∪ kwb) = Ok st ∧ sim stc st.
Proof.
  intros Hkb Hkc. unfold Keycap_init.
  destruct (decide (is_Some (kb !! "openscad_path")
                    ∨ is_Some (kb !! "colorscad_path"))) as [|Hno]; [done|].
  intros ?. simplify_eq.
  destruct (decide (is_Some ((kb ∪ kwb) !! "openscad_path")
                    ∨ is_Some ((kb ∪ kwb) !! "colorscad_path"))) as [Hyes|_].
  { destruct Hno. rewrite !lookup_union, !plain_None in Hyes by done.
    by rewrite !(right_id_L None _) in Hyes. }
  eexists. split; [done|]. split; simpl.
  - apply map_eq. intros i. unfold under.
    rewrite !lookup_union, !lookup_insert, !lookup_union.
    destruct (decide ("openscad_path" = i)); [by rewrite !union_Some_l|].
    destruct (decide ("colorscad_path" = i)); [by rewrite !union_Some_l|].
    destruct (kb !! i) as [v|] eqn:Hi; [by rewrite !union_Some_l|].
    rewrite !(left_id_L None _).
    destruct (kwb !! i) as [v|] eqn:Hb.
    + rewrite Dc_fresh by (by rewrite Hb).
      by rewrite !(left_id_L None _), !union_Some_l.
    + rewrite !(left_id_L None _).
      destruct (Dc !! i) as [v|] eqn:Hd; [|by rewrite (left_id_L None _)].
      by rewrite (lookup_weaken _ _ _ _ Hd Dc_sub), union_Some_l.
  - done.
  - intros a. rewrite !map_lookup_imap, lookup_union.
    destruct (kb !! a) as [v|] eqn:Hi; simpl.
    { left. by rewrite union_Some_l. }
    rewrite (left_id_L None _).
    destruct (kwb !! a) as [v|] eqn:Hb; simpl; [right|left]; eauto.
  - intros a k. rewrite map_lookup_imap. intros Hal.
    destruct (kb !! a) as [v|] eqn:Hi; [|done].
    exists v. apply lookup_union_Some_l.
    destruct (decide ("openscad_path" = a)) as [<-|].
    { destruct Hno. left. by rewrite Hi. }
    destruct (decide ("colorscad_path" = a)) as [<-|].
    { destruct Hno. right. by rewrite Hi. }
    by rewrite !lookup_insert_ne.
  - intros k Hk. split_and!.
    + rewrite lookup_union, !lookup_insert_ne, (Hkb k Hk), (Dc_fresh k Hk); [done|..].
      * intros <-. rewrite plain_None in Hk by done. by destruct Hk.
      * intros <-. rewrite plain_None in Hk by done. by destruct Hk.
    + by apply Hkc.
    + intros a. rewrite map_lookup_imap.
      destruct (kb !! a) as [v|] eqn:Hi; [|done]. simpl. intros ?. simplify_eq.
      by rewrite (Hkb k Hk) in Hi.
Qed.

Ltac sim_body :=
  repeat first
    [ apply sim_seq
    | apply sim_set_attr; apply plain_None; done
    | apply sim_set_item
    | apply sim_assign;
        [ apply plain_None; done
        | apply (sim_rhs_bind (get_item _ _)); apply sim_get_item ]
    | apply sim_copy_attr; apply plain_None; done
    | apply sim_swap_attrs; apply plain_None; done
    | apply sim_postinit_kwargs
    | apply sim_postinit_base
    | apply sim_Ok
    | apply sim_if
    | apply sim_with_kwargs_copy; intros ? ?
    | apply sim_postinit; assumption ].

Lemma sim_base (kc : gmap string val) (stc : cstate) :
  (∀ k, is_Some (kwb !! k) → kc !! k = None) →
  ergodox_ft_base Dc kc = Ok stc →
  ∃ st, ergodox_ft_base D (kc ∪ kwb) = Ok st ∧ sim stc st.
Proof.
  intros Hkc. unfold ergodox_ft_base.
  rewrite delete_union, (delete_id kwb) by (by apply plain_None).
  rewrite lookup_union, (plain_None "homing_dot"), (right_id_L None _) by done.
  destruct (Keycap_init Dc _ kc) as [stc0|] eqn:Hinit; [|done]. simpl.
  apply sim_Keycap_init in Hinit as (st0 & -> & Hsim0); [|intros k Hk..|done].
  2: { destruct (decide (k = "homing_dot")) as [->|Hne].
       - by rewrite lookup_delete_eq.
       - rewrite lookup_delete_ne by done. by apply Hkc. }
  simpl. revert stc Hsim0.
  match goal with |- ∀ stc, _ → ?f _ = _ → _ =>
    assert (simulates f f) as Hf end.
  { unfold set_homing_dot. sim_body. }
  intros stc Hsim0 Hc. by eapply Hf.
Qed.

Lemma sim_body_of (c : cls) : simulates (body c) (body c).
Proof.
  destruct c; simpl;
    unfold init_wpm, init_icons, init_icons_90top, init_pgupdn,
      init_front_icon, init_text, init_gem, init_gem_front_icon, init_multi,
      init_tilde, init_2, init_3, init_5, init_6, init_7, init_8, init_0,
      init_slash, init_1_5U, init_1_5U_front_icon, init_dash, init_semicolon,
      init_1_5UV, init_lbracket, init_rbracket, init_2UV_icon, init_enter,
      init_space; sim_body.
Qed.

Lemma construct_unfold (d : obj) (c : cls) (kw : gmap string val) :
  construct d c kw
  = match parent c with
    | None => ergodox_ft_base d kw
    | Some p => construct d p kw ≫= body c
    end.
Proof. by destruct c. Qed.

Lemma depth_parent (c p : cls) : parent c = Some p → (depth p < depth c)%nat.
Proof. destruct c; simpl; intros ?; simplify_eq; simpl; lia. Qed.

Lemma sim_construct (c : cls) (kc : gmap string val) (stc : cstate) :
  (∀ k, is_Some (kwb !! k) → kc !! k = None) →
  construct Dc c kc = Ok stc →
  ∃ st, construct D c (kc ∪ kwb) = Ok st ∧ sim stc st.
Proof.
  intros Hkc. remember (depth c) as n eqn:Hn. revert c Hn stc.
  induction (lt_wf n) as [n _ IH]. intros c -> stc.
  rewrite !construct_unfold. destruct (parent c) as [p|] eqn:Hp.
  - destruct (construct Dc p kc) as [stp|] eqn:Hcp; [|done]. simpl. intros Hb.
    destruct (IH (depth p) (depth_parent c p Hp) p eq_refl stp Hcp)
      as (sp & -> & Hsim).
    simpl. by eapply sim_body_of.
  - by apply sim_base.
Qed.

End Simulation.

Lemma plain_empty : plain ∅.
Proof. intros k [v Hk]. by rewrite lookup_empty in Hk. Qed.

Lemma plain_insert (m : gmap string val) (a : string) (v : val) :
  a = "name" ∨ a = "legends" → plain m → plain (<[a := v]> m).
Proof.
  intros Ha Hm k. destruct (decide (a = k)) as [<-|Hne]; [done|].
  rewrite lookup_insert_ne by done. apply Hm.
Qed.

Lemma frame_by_filter (L : list string) (m1 m2 : obj) :
  filter (λ kv : string * val, kv.1 ∉ L) m1
  = filter (λ kv : string * val, kv.1 ∉ L) m2 →
  ∀ a, a ∉ L → m1 !! a = m2 !! a.
Proof.
  intros Heq a Ha.
  assert (filter (λ kv : string * val, kv.1 ∉ L) m1 !! a
          = filter (λ kv : string * val, kv.1 ∉ L) m2 !! a) as Hl
    by (by rewrite Heq).
  rewrite !map_lookup_filter in Hl.
  destruct (m1 !! a), (m2 !! a); simpl in Hl;
    rewrite ?option_guard_True in Hl by done; done.
Qed.

Lemma map_to_list_eq (m1 m2 : obj) :
  map_to_list m1 = map_to_list m2 → m1 = m2.
Proof.
  intros H. rewrite <-(list_to_map_to_list m1), <-(list_to_map_to_list m2).
  by rewrite H.
Qed.

Lemma result_fmap_Ok {A B} (f : A → B) (a : A) : f <$> Ok a = Ok (f a).
Proof. done. Qed.

Lemma frame_from_checks (L : list string) (rp : result cstate)
    (b : cstate → result cstate) :
  is_ok (rp ≫= b) = true →
  outside L <$> (rp ≫= b) = outside L <$> rp →
  ∃ stp stc, rp = Ok stp ∧ b stp = Ok stc
    ∧ (rp ≫= b) = Ok stc
    ∧ (∀ a, a ∉ L → self stc !! a = self stp !! a).
Proof.
  destruct rp as [stp|]; [|done]. simpl.
  destruct (b stp) as [stc|] eqn:Hb; [|done]. simpl. intros _ Hout.
  exists stp, stc. split_and!; try done.
  apply frame_by_filter. unfold outside in Hout. simplify_eq.
  rewrite <-(list_to_map_to_list (filter _ (self stc))).
  rewrite <-(list_to_map_to_list (filter _ (self stp))). by f_equal.
Qed.

Lemma closed_runs (t2 : val) (c p : cls) (kc : gmap string val) :
  parent c = Some p → extra_keywords c kc →
  ∃ stp stc,
    construct {["trans2" := t2]} p kc = Ok stp
    ∧ body c stp = Ok stc
    ∧ (∀ a, a ∉ listed c → self stc !! a = self stp !! a)
    ∧ (c = C_wpm →
       get_item "font_sizes" 1 stc = Ok (VInt 2)
       ∧ self stp !! "font_sizes" = Some (VList [VFloat 4.5; VFloat 3.5])
       ∧ self stc
         = <["font_sizes" := VList [VFloat 4.5; VInt 2]]> (self stp)).
Proof.
  intros Hp Hkc.
  assert (is_ok (construct {["trans2" := t2]} p kc ≫= body c) = true
          ∧ outside (listed c) <$> (construct {["trans2" := t2]} p kc ≫= body c)
            = outside (listed c) <$> construct {["trans2" := t2]} p kc
          ∧ (c = C_wpm →
             (construct {["trans2" := t2]} p kc ≫= body c)
               ≫= get_item "font_sizes" 1 = Ok (VInt 2)
             ∧ (λ st, self st !! "font_sizes")
                 <$> construct {["trans2" := t2]} p kc
               = Ok (Some (VList [VFloat 4.5; VFloat 3.5]))
             ∧ (λ st, map_to_list (self st))
                 <$> (construct {["trans2" := t2]} p kc ≫= body c)
               = (λ st, map_to_list
                          (<["font_sizes" := VList [VFloat 4.5; VInt 2]]>
                             (self st)))
                   <$> construct {["trans2" := t2]} p kc))
    as (Hok & Hout & Hwpm).
  { destruct c; simplify_eq/=; destruct Hkc as [->|[[? ->]|[? ->]]];
      simplify_eq.
    all: split; [vm_compute; reflexivity|].
    all: split; [vm_compute; reflexivity|].
    all: intros ?; simplify_eq; vm_compute; split_and!; reflexivity. }
  destruct (frame_from_checks _ _ _ Hok Hout)
    as (stp & stc & Hstp & Hstc & Hrun & Hframe).
  exists stp, stc. split_and!; try done.
  intros Hc. destruct (Hwpm Hc) as (Hitem & Hbase & Hself).
  rewrite Hrun in Hitem, Hself. rewrite Hstp in Hbase, Hself.
  rewrite result_fmap_Ok in Hbase. rewrite !result_fmap_Ok in Hself.
  injection Hbase as Hbase. injection Hself as Hself.
  split_and!; [exact Hitem|exact Hbase|by apply map_to_list_eq].
Qed.
Lemma kw_with_extra (items : list (string * val)) (a : string) (v : val) :
  a ∉ items.*1 →
  kw (items ++ [(a, v)]) = {[a := v]} ∪ kw items.
Proof.
  unfold kw. induction items as [|[b w] items IH]; simpl; intros Ha.
  - by rewrite insert_empty, (right_id_L ∅ (∪)).
  - apply not_elem_of_cons in Ha as [Hab Ha]. rewrite IH by done.
    apply map_eq. intros i. rewrite !lookup_union, !lookup_insert, lookup_union.
    destruct (decide (b = i)) as [<-|]; [|done].
    by rewrite lookup_singleton_ne.
Qed.

Ltac solve_plain :=
  unfold kw; simpl; repeat (apply plain_insert; [by auto|]); apply plain_empty.

(** Every call of the catalog passes a name, maybe legends, and at most
    one further keyword: [homing_dot=True] or [font_sizes=[3]]. *)
Lemma table_keywords :
  Forall (λ ck : cls * gmap string val,
            ck.1 = C_base
            ∨ ∃ kc kwb, ck.2 = kc ∪ kwb ∧ plain kwb ∧ extra_keywords ck.1 kc)
         KEYCAP_TABLE.
Proof.
  unfold KEYCAP_TABLE.
  repeat (apply Forall_cons; split;
    [ first
        [ left; reflexivity
        | right; exists ∅; eexists; split;
            [ symmetry; apply (left_id_L ∅ (∪)) | split; [solve_plain | by left] ]
        | right; eexists _, _; split;
            [ apply (kw_with_extra [_; _]); simpl;
              by intros [|[|[]%elem_of_nil]%elem_of_cons]%elem_of_cons
            | split; [solve_plain | right; by (left + right)] ] ]
    | ]).
  apply Forall_nil_2.
Qed.

(** C7: the constructor of a subclass, called with the keywords of a
    catalog entry (or with a name and legends only), first runs its
    parent's constructor and then its own body, which changes only the
    attributes listed for the class: every other attribute has the
    parent's value.  [ergodox_ft_gem] is its parent with
    [key_profile = "gem"] and [key_rotation = [108.6, 0, 0]], and
    [ergodox_ft_wpm] is its parent, whose [font_sizes] are [[4.5, 3.5]],
    with [font_sizes = [4.5, 2]]: only [font_sizes[1]] differs, and it
    is 2. *)
Theorem subclass_changes_only_listed (D : obj) (c p : cls)
    (kw : gmap string val) :
  parent c = Some p →
  is_Some (D !! "trans2") →
  plain kw ∨ (c, kw) ∈ KEYCAP_TABLE →
  ∃ sp sc,
    construct D p kw = Ok sp ∧ body c sp = Ok sc ∧ construct D c kw = Ok sc
    ∧ (∀ a, a ∉ listed c → self sc !! a = self sp !! a)
    ∧ (c = C_gem →
       self sc = <["key_rotation" := VList [VFloat 108.6; VInt 0; VInt 0]]>
                   (<["key_profile" := VStr "gem"]> (self sp)))
    ∧ (c = C_wpm →
       get_item "font_sizes" 1 sc = Ok (VInt 2)
       ∧ self sp !! "font_sizes" = Some (VList [VFloat 4.5; VFloat 3.5])
       ∧ self sc = <["font_sizes" := VList [VFloat 4.5; VInt 2]]> (self sp)).
Proof.
  intros Hp [t2 Ht2] Hkw.
  assert (∃ kc kwb, kw = kc ∪ kwb ∧ plain kwb ∧ extra_keywords c kc)
    as (kc & kwb & -> & Hplain & Hextra).
  { destruct Hkw as [Hplain|Hin].
    - exists ∅, kw. split_and!; [by rewrite (left_id_L ∅ (∪))|done|by left].
    - pose proof (proj1 (Forall_forall _ _) table_keywords _ Hin) as [Hb|?];
        [|done]. simpl in Hb. subst c. done. }
  destruct (closed_runs t2 c p kc Hp Hextra)
    as (stp & stc & Hstp & Hstc & Hframe & Hwpm).
  assert (∀ k, is_Some (kwb !! k) → kc !! k = None) as Hkc.
  { intros k Hk. destruct (Hplain k Hk) as [->| ->];
      destruct Hextra as [->|[[_ ->]|[_ ->]]]; done. }
  assert (({["trans2" := t2]} : obj) ⊆ D) as Hsub
    by (by apply map_singleton_subseteq_l).
  assert (∀ k, is_Some (kwb !! k) → ({["trans2" := t2]} : obj) !! k = None)
    as Hfresh.
  { intros k Hk. destruct (Hplain k Hk) as [->| ->]; done. }
  destruct (sim_construct kwb D _ Hplain Hsub Hfresh p kc stp Hkc Hstp)
    as (sp & Hsp & Hsimp).
  destruct (sim_body_of kwb D Hplain c stp sp stc Hsimp Hstc)
    as (sc & Hsc & Hsimc).
  exists sp, sc. split_and!; try done.
  - by rewrite construct_unfold, Hp, Hsp.
  - intros a Ha. rewrite (sim_self _ _ _ _ Hsimc), (sim_self _ _ _ _ Hsimp).
    by rewrite !lookup_union, (Hframe a Ha).
  - intros ->. simpl in Hsc. unfold init_gem, seq, set_attr in Hsc.
    simpl in Hsc. by simplify_eq.
  - intros Hc. destruct (Hwpm Hc) as (Hitem & Hbase & Hself). split_and!.
    + by eapply sim_get_item.
    + rewrite (sim_self _ _ _ _ Hsimp). by apply lookup_union_Some_l.
    + rewrite (sim_self _ _ _ _ Hsimc), (sim_self _ _ _ _ Hsimp), Hself.
      symmetry. apply insert_union_l.
Qed.

(** ** The runner as the script starts it *)

Lemma run_schedule_rtc (shell : string → Z * string)
    (popen_fails : string → option popen_error) (sched : list nat)
    (s : rstate) :
  rtc (step shell popen_fails) s (run_schedule shell popen_fails sched s).
Proof.
  revert s. induction sched as [|i sched IH]; intros s; simpl; [done|].
  destruct (advance shell popen_fails i s) as [s'|] eqn:Hadv; [|done].
  eapply rtc_l; [by exists i|done].
Qed.

Section RunnerContract.
Variable shell : string → Z * string.
Variable popen_fails : string → option popen_error.

(** C3, amended: [run_command] catches [CalledProcessError] and nothing
    else.  It returns the combined output of the command exactly when the
    shell was started for a command line without NUL whose output is text,
    whatever the exit status: on a non-zero status the output carried by
    the [CalledProcessError] is returned.  Every other exception of
    [check_output] leaves [run_command]: [ValueError] for a command line
    with a NUL character, [UnicodeDecodeError] for output that is not
    text, [OSError] when the shell cannot be started. *)
Theorem run_command_catches_only_exit_status (cmd : string) :
  (∀ output,
     run_command shell popen_fails cmd = Ok output
     ↔ popen_fails cmd = None ∧ embedded_null cmd = false
       ∧ output = (shell cmd).2)
  ∧ (∀ returncode output,
       check_output shell popen_fails cmd
       = Raise (CalledProcessError returncode output) →
       (returncode ≠ 0)%Z ∧ shell cmd = (returncode, output)
       ∧ run_command shell popen_fails cmd = Ok output)
  ∧ (∀ e,
       run_command shell popen_fails cmd = Raise e
       ↔ check_output shell popen_fails cmd = Raise e
         ∧ ∀ returncode output, e ≠ CalledProcessError returncode output)
  ∧ (∀ e, run_command shell popen_fails cmd = Raise e →
          e = OSError ∨ e = ValueError ∨ e = UnicodeDecodeError)
  ∧ (popen_fails cmd = Some CannotStart →
     run_command shell popen_fails cmd = Raise OSError)
  ∧ (embedded_null cmd = true → popen_fails cmd ≠ Some CannotStart →
     run_command shell popen_fails cmd = Raise ValueError)
  ∧ (popen_fails cmd = Some UndecodableOutput → embedded_null cmd = false →
     run_command shell popen_fails cmd = Raise UnicodeDecodeError).
Proof.
  unfold run_command, check_output.
  destruct (popen_fails cmd) as [[]|]; destruct (embedded_null cmd);
    try destruct (shell cmd) as [rc o]; simpl;
    try destruct (Z.eqb_spec rc 0);
    split_and!; try split; intros; destruct_and?; simplify_eq; auto.
  match goal with H : ∀ returncode output, _ ≠ _ |- _ =>
    by destruct (H rc o) end.
Qed.

Section ScriptRun.
Variable Keycap_str : obj → string.
Variable py_str : val → string.
Variable str_lower : string → string.
Variable argparse_help : string.
Variable FS : Type.
Variable path_exists : FS → string → bool.
Variable os_mkdir : FS → string → result FS.

(** C2, amended: [async with SEM] raises [NameError] only in a runner that
    is entered while the global [SEM] is unbound, as after an import of
    the module: then no command is executed and [run_all_commands] ends
    with [NameError].  A run of the script binds [SEM] at line 651, before
    line 755 starts the runner: whenever the [__main__] block reaches the
    runner, [SEM] is the semaphore made from [--jobs], and in no reachable
    state of the runner has a coroutine failed with a [NameError] or has
    [run_all_commands] raised one. *)
Theorem runner_sees_SEM_bound (argc : nat) (args : Args) (w w' : world FS) :
  generate Keycap_str py_str str_lower argparse_help path_exists os_mkdir
    argc args w = (Ok tt, w') →
  SEM w' = Some (jobs args)
  ∧ (∀ s name, rtc (step shell popen_fails) (start_runner w') s →
       r_raised s ≠ Some (NameError name)
       ∧ Forall (λ ct, ct.2 ≠ TFailed (NameError name)) (r_tasks s))
  ∧ (∀ s, COMMANDS w' ≠ [] →
          rtc (step shell popen_fails)
              (run_all_commands None (COMMANDS w') (stdout w')) s →
          r_executed s = []
          ∧ (stuck shell popen_fails s → r_raised s = Some (NameError "SEM"))).
Proof.
  intros Hgen. apply generate_binds_SEM in Hgen as [Hjobs HSEM].
  split; [done|]. split.
  - intros s name Hrtc. unfold start_runner in Hrtc. rewrite HSEM in Hrtc.
    by eapply bound_no_NameError.
  - intros s Hne Hrtc. split.
    + by destruct (unbound_inv_reachable shell popen_fails _ _ s Hrtc) as (_ & ? & _).
    + intros Hstuck. by eapply unbound_stuck_raised.
Qed.

End ScriptRun.
End RunnerContract.

(** ** Runs on the sample platform *)

Lemma Forall_forallb {A} (P : A → Prop) (f : A → bool) (l : list A) :
  (∀ x, f x = true → P x) → forallb f l = true → Forall P l.
Proof.
  intros Hf. induction l as [|x l IH]; simpl; [done|].
  intros [Hx Hl]%andb_true_iff. constructor; auto.
Qed.

Lemma has_attr_is_Some (a : string) (k : obj) :
  has_attr a k = true → is_Some (k !! a).
Proof. unfold has_attr. by destruct (k !! a). Qed.

Lemma has_path_check (k : obj) :
  has_attr "name" k && has_attr "file_type" k = true → has_path k.
Proof. intros [??]%andb_true_iff. split; by apply has_attr_is_Some. Qed.

Lemma has_legends_check (k : obj) :
  has_attr "legends" k && has_attr "name" k = true → has_legends k.
Proof. intros [??]%andb_true_iff. split; by apply has_attr_is_Some. Qed.

Lemma named_check (k : obj) :
  has_str "name" k && has_attr "file_type" k = true → named k.
Proof.
  intros [Hn ?]%andb_true_iff. split; [|by apply has_attr_is_Some].
  unfold has_str in Hn. destruct (k !! "name") as [[]|]; try done. eauto.
Qed.

Lemma is_ok_eq {A} (r : result A) (d : A) :
  is_ok r = true → r = Ok (match r with Ok a => a | Raise _ => d end).
Proof. by destruct r. Qed.

Lemma pair_fst_eq {A B} (p : A * B) (a : A) : p.1 = a → p = (a, p.2).
Proof. destruct p. by intros <-. Qed.

Lemma texts_check (k : obj) :
  has_str "name" k && has_str "file_type" k = true → texts k.
Proof.
  intros [Hn Ht]%andb_true_iff. unfold has_str in *. split.
  - destruct (k !! "name") as [[]|]; try done. eauto.
  - destruct (k !! "file_type") as [[]|]; try done. eauto.
Qed.

Lemma catalog_checks :
  Forall (λ k, has_path k ∧ has_legends k ∧ named k ∧ texts k) sample_catalog.
Proof.
  apply (Forall_forallb _
           (λ k, has_str "name" k && has_str "file_type" k
                 && has_attr "legends" k)).
  - intros k [[Hn Hf]%andb_true_iff Hl]%andb_true_iff.
    assert (has_attr "name" k = true) as Hn'.
    { unfold has_str, has_attr in *. by destruct (k !! "name"). }
    assert (has_attr "file_type" k = true) as Hf'.
    { unfold has_str, has_attr in *. by destruct (k !! "file_type") as [[]|]. }
    split_and!.
    + apply has_path_check. by rewrite Hn', Hf'.
    + apply has_legends_check. by rewrite Hl, Hn'.
    + apply named_check. by rewrite Hn, Hf'.
    + apply texts_check. by rewrite Hn, Hf.
  - vm_compute. reflexivity.
Qed.

Lemma catalog_has_path : Forall has_path sample_catalog.
Proof. eapply Forall_impl; [apply catalog_checks|]. by intros k (? & ? & ? & ?). Qed.

Lemma catalog_has_legends : Forall has_legends sample_catalog.
Proof. eapply Forall_impl; [apply catalog_checks|]. by intros k (? & ? & ? & ?). Qed.

Lemma catalog_named : Forall named sample_catalog.
Proof. eapply Forall_impl; [apply catalog_checks|]. by intros k (? & ? & ? & ?). Qed.

Lemma catalog_texts : Forall texts sample_catalog.
Proof. eapply Forall_impl; [apply catalog_checks|]. by intros k (? & ? & ? & ?). Qed.

(** [ft-ergodox.py -o out -j 2] with three commands, two of them started. *)
Lemma in_flight_bounded_witness :
  Semaphore 2 = Ok 2%Z
  ∧ (Z.of_nat
       (in_flight
          (run_schedule sample_shell sample_fails [0; 1; 2; 0]%nat
             (run_all_commands (Some 2%Z) ["a"; "b"; "c"] []))) ≤ 2)%Z.
Proof.
  split; [reflexivity|].
  apply (in_flight_bounded sample_shell sample_fails 2 2 ["a"; "b"; "c"] []);
    [reflexivity|apply run_schedule_rtc].
Defined.

Ltac stuck_by_cases :=
  intros [|[|[|[|?]]]]; vm_compute; reflexivity.

(** A command line with a NUL character, and a command whose output is
    not text. *)
Lemma run_command_raises_ValueError :
  let cmd := "echo a" +:+ String Ascii.zero "b" in
  embedded_null cmd = true
  ∧ check_output sample_shell sample_fails cmd = Raise ValueError
  ∧ run_command sample_shell sample_fails cmd = Raise ValueError
  ∧ run_command sample_shell sample_fails "printf '\377'"
    = Raise UnicodeDecodeError
  ∧ run_command sample_shell sample_fails "false" = Ok "failed".
Proof. vm_compute. split_and!; reflexivity. Qed.

(** [ft-ergodox.py -o out L_ESC]: the block binds [SEM] and the runner
    reaches no state with a [NameError]. *)
Lemma runner_sees_SEM_bound_witness :
  let r := sample_generate 2 args_named sample_catalog [] in
  r.1 = Ok tt
  ∧ SEM r.2 = Some 8%Z
  ∧ (∀ s name, rtc (step sample_shell sample_fails) (start_runner r.2) s →
       r_raised s ≠ Some (NameError name)
       ∧ Forall (λ ct, ct.2 ≠ TFailed (NameError name)) (r_tasks s))
  ∧ (∀ s, COMMANDS r.2 ≠ [] →
          rtc (step sample_shell sample_fails)
              (run_all_commands None (COMMANDS r.2) (stdout r.2)) s →
          r_executed s = []
          ∧ (stuck sample_shell sample_fails s
             → r_raised s = Some (NameError "SEM"))).
Proof.
  assert ((sample_generate 2 args_named sample_catalog []).1 = Ok tt) as Hok
    by (vm_compute; reflexivity).
  split; [exact Hok|].
  exact (runner_sees_SEM_bound sample_shell sample_fails sample_str
           sample_py_str ascii_lower sample_help (list string) sample_exists
           sample_mkdir 2 args_named (module_loaded sample_catalog [])
           (sample_generate 2 args_named sample_catalog []).2
           (pair_fst_eq _ _ Hok)).
Defined.

(** [ft-ergodox.py -o out L_ESC] run to the end: the one command is
    executed and printed, and nothing is raised. *)
Lemma script_run_raises_no_NameError :
  let r := sample_generate 2 args_named sample_catalog [] in
  let s := run_schedule sample_shell sample_fails [0; 0; 0; 0; 0]%nat (start_runner r.2) in
  r.1 = Ok tt
  ∧ SEM r.2 = Some 8%Z
  ∧ COMMANDS r.2 = ["openscad -o l_esc.3mf"]
  ∧ stuck sample_shell sample_fails s
  ∧ r_raised s = None
  ∧ r_executed s = ["openscad -o l_esc.3mf"]
  ∧ r_tasks s = [("openscad -o l_esc.3mf", TPrinted)].
Proof.
  vm_compute. split_and!; try reflexivity. intros [|[|?]]; reflexivity.
Qed.

(** [ft-ergodox.py -o out -l]: the first record of the catalog before and
    after the commands were generated. *)
Lemma legends_run_rewrites_records :
  let r := sample_generate 2 args_legends sample_catalog [] in
  let before := sample_catalog !! 0%nat in
  let after := KEYCAPS r.2 !! 0%nat in
  r.1 = Ok tt
  ∧ before ≫= (.!! "name") = Some (VStr "l_esc")
  ∧ after ≫= (.!! "name") = Some (VStr "l_esc_legends")
  ∧ before ≫= (.!! "file_type") = Some (VStr "3mf")
  ∧ after ≫= (.!! "file_type") = Some (VStr "stl")
  ∧ before ≫= (.!! "render") = Some (strs ["keycap"; "stem"])
  ∧ after ≫= (.!! "render") = Some (strs ["legends"])
  ∧ before ≫= (.!! "output_path") = Some (VPath ".")
  ∧ after ≫= (.!! "output_path") = Some (VStr "out").
Proof. vm_compute. split_and!; reflexivity. Qed.

(** The legends pass of [ft-ergodox.py -o out -l] over the catalog. *)
Lemma legends_pass_makes_legend_commands_witness :
  let w := module_loaded sample_catalog ["out"] in
  ∃ w', legends_pass sample_str sample_py_str sample_exists args_legends w
        = (Ok tt, w')
    ∧ Forall2 (legend_made sample_py_str args_legends) (KEYCAPS w) (KEYCAPS w')
    ∧ COMMANDS w'
      = COMMANDS w
        ++ (sample_str
              <$> filter (λ k', legend_due sample_py_str (list string)
                                  sample_exists args_legends (fs w) k' = true)
                         (KEYCAPS w')).
Proof.
  apply (legends_pass_makes_legend_commands sample_str sample_py_str
           (list string) sample_exists args_legends
           (module_loaded sample_catalog ["out"])).
  exact catalog_has_legends.
Defined.

(** [ft-ergodox.py -o out -l] with [out/l_esc_legends.stl] on disk: the
    key has legends, and no legend command is made for it. *)
Lemma existing_legend_file_is_skipped :
  let r := sample_generate 2 args_legends sample_catalog
             ["out"; "out/l_esc_legends.stl"] in
  r.1 = Ok tt
  ∧ (no_legends <$> (sample_catalog !! 0%nat ≫= (.!! "legends"))) = Some false
  ∧ KEYCAPS r.2 !! 0%nat ≫= (.!! "name") = Some (VStr "l_esc_legends")
  ∧ bool_decide ("openscad -o l_esc.3mf" ∈ COMMANDS r.2) = true
  ∧ bool_decide ("openscad -o l_esc_legends.stl" ∈ COMMANDS r.2) = false
  ∧ bool_decide ("openscad -o l_1_legends.stl" ∈ COMMANDS r.2) = true
  ∧ bool_decide (skipping "out/l_esc_legends.stl" ∈ stdout r.2) = true.
Proof. vm_compute. split_and!; reflexivity. Qed.

(** [ergodox_ft_gem(name="l_W_gamer", legends=["W", "F7"])] and
    [ergodox_ft_wpm(name="r_H", legends=["H", "WPM ^"])], two entries of
    the catalog. *)
Lemma subclass_changes_only_listed_witness :
  let gamer := kw [("name", VStr "l_W_gamer"); ("legends", strs ["W"; "F7"])] in
  let wpm := kw [("name", VStr "r_H"); ("legends", strs ["H"; "WPM ^"])] in
  (∃ sp sc,
     construct sample_defaults C_base gamer = Ok sp
     ∧ construct sample_defaults C_gem gamer = Ok sc
     ∧ (∀ a, a ∉ ["key_profile"; "key_rotation"] → self sc !! a = self sp !! a)
     ∧ self sc = <["key_rotation" := VList [VFloat 108.6; VInt 0; VInt 0]]>
                   (<["key_profile" := VStr "gem"]> (self sp)))
  ∧ (∃ sp sc,
       construct sample_defaults C_base wpm = Ok sp
       ∧ construct sample_defaults C_wpm wpm = Ok sc
       ∧ (∀ a, a ∉ ["font_sizes"] → self sc !! a = self sp !! a)
       ∧ self sp !! "font_sizes" = Some (VList [VFloat 4.5; VFloat 3.5])
       ∧ self sc = <["font_sizes" := VList [VFloat 4.5; VInt 2]]> (self sp)).
Proof.
  split.
  - destruct (subclass_changes_only_listed sample_defaults C_gem C_base
                (kw [("name", VStr "l_W_gamer"); ("legends", strs ["W"; "F7"])]))
      as (sp & sc & Hsp & _ & Hsc & Hframe & Hgem & _).
    + reflexivity.
    + eexists. reflexivity.
    + right. apply list_elem_of_lookup_2 with 17%nat. reflexivity.
    + exists sp, sc. split_and!; [exact Hsp|exact Hsc|exact Hframe|].
      apply Hgem. reflexivity.
  - destruct (subclass_changes_only_listed sample_defaults C_wpm C_base
                (kw [("name", VStr "r_H"); ("legends", strs ["H"; "WPM ^"])]))
      as (sp & sc & Hsp & _ & Hsc & Hframe & _ & Hwpm).
    + reflexivity.
    + eexists. reflexivity.
    + left. solve_plain.
    + destruct (Hwpm eq_refl) as (_ & Hbase & Hself).
      exists sp, sc.
      exact (conj Hsp (conj Hsc (conj Hframe (conj Hbase Hself)))).
Defined.

(** Two commands under [--jobs 1], run to the end; and a run whose first
    command writes output that is not text. *)
Lemma run_all_commands_each_once_witness :
  let cmds := ["make a"; "false"] in
  let s := run_schedule sample_shell sample_fails
             [0; 1; 0; 0; 1; 1; 1; 0; 0; 1; 1]%nat
             (run_all_commands (Some 1%Z) cmds []) in
  let cmds' := ["printf '\377'"; "make a"] in
  let s' := run_schedule sample_shell sample_fails [0; 1; 0; 0]%nat
              (run_all_commands (Some 1%Z) cmds' []) in
  (Forall (returns sample_shell sample_fails) cmds
   ∧ stuck sample_shell sample_fails s
   ∧ r_raised s = None ∧ all_printed s ∧ r_executed s ≡ₚ cmds
   ∧ ∃ printed, r_stdout s = [] ++ printed
                ∧ printed ≡ₚ (λ c, (sample_shell c).2) <$> cmds)
  ∧ (stuck sample_shell sample_fails s'
     ∧ r_raised s' = Some UnicodeDecodeError
     ∧ r_stdout s' = []
     ∧ is_Some (r_raised s') ∧ ¬ all_printed s').
Proof.
  assert (stuck sample_shell sample_fails
            (run_schedule sample_shell sample_fails
               [0; 1; 0; 0; 1; 1; 1; 0; 0; 1; 1]%nat
               (run_all_commands (Some 1%Z) ["make a"; "false"] []))) as Hstuck
    by stuck_by_cases.
  assert (Forall (returns sample_shell sample_fails) ["make a"; "false"])
    as Hret by (repeat constructor).
  assert (stuck sample_shell sample_fails
            (run_schedule sample_shell sample_fails [0; 1; 0; 0]%nat
               (run_all_commands (Some 1%Z) ["printf '\377'"; "make a"] [])))
    as Hstuck' by stuck_by_cases.
  split.
  - split; [exact Hret|]. split; [exact Hstuck|].
    destruct (run_all_commands_each_once sample_shell sample_fails 1
                ["make a"; "false"] []
                (run_schedule sample_shell sample_fails
                   [0; 1; 0; 0; 1; 1; 1; 0; 0; 1; 1]%nat
                   (run_all_commands (Some 1%Z) ["make a"; "false"] [])))
      as (_ & _ & Hall & _); [lia|apply run_schedule_rtc|].
    destruct (Hall Hret) as [Hr Hs]. split; [exact Hr|]. exact (Hs Hstuck).
  - split; [exact Hstuck'|]. split; [reflexivity|]. split; [reflexivity|].
    destruct (run_all_commands_each_once sample_shell sample_fails 1
                ["printf '\377'"; "make a"] []
                (run_schedule sample_shell sample_fails [0; 1; 0; 0]%nat
                   (run_all_commands (Some 1%Z) ["printf '\377'"; "make a"] [])))
      as (_ & _ & _ & _ & Hfail); [lia|apply run_schedule_rtc|].
    apply (Hfail "printf '\377'"); [apply list_elem_of_here|reflexivity|exact Hstuck'].
Defined.

(** [ft-ergodox.py -o out -j 0 l_esc]: the one command waits for the
    semaphore for ever and is never executed. *)
Lemma jobs_zero_runs_nothing :
  let r := sample_generate 2 args_jobs0 sample_catalog [] in
  let s := run_schedule sample_shell sample_fails [0; 0]%nat (start_runner r.2) in
  r.1 = Ok tt
  ∧ SEM r.2 = Some 0%Z
  ∧ COMMANDS r.2 = ["openscad -o l_esc.3mf"]
  ∧ r_tasks s = [("openscad -o l_esc.3mf", TWaiting)]
  ∧ stuck sample_shell sample_fails s
  ∧ r_executed s = []
  ∧ r_stdout s = stdout r.2.
Proof.
  vm_compute. split_and!; try reflexivity. intros [|[|?]]; reflexivity.
Qed.

(** [ft-ergodox.py -o out foo bar]: only [bar] is reported. *)
Lemma unmatched_names_report_last_witness :
  let w := module_loaded sample_catalog ["out"] in
  any_match ascii_lower (names args_unmatched) (KEYCAPS w) = false
  ∧ names_branch sample_str sample_py_str ascii_lower sample_exists
      args_unmatched w
    = print "Cound not find a keycap named bar" w.
Proof.
  assert (any_match ascii_lower (names args_unmatched) sample_catalog = false)
    as Hany by (vm_compute; reflexivity).
  split; [exact Hany|].
  exact (proj2 (unmatched_names_report_last sample_str sample_py_str
                  ascii_lower (list string) sample_exists args_unmatched
                  (module_loaded sample_catalog ["out"]) catalog_named) Hany).
Defined.

(** [ft-ergodox.py] and [ft-ergodox.py -k]. *)
Lemma help_and_listing_exit_witness :
  let header := BRIGHT +:+ "Here's all the keycaps we can render:" +:+ NEWLINE
                +:+ RESET_ALL in
  sample_generate 1 default_args sample_catalog []
  = (Raise (SystemExit 1),
     {| SEM := Some 8%Z; COMMANDS := []; KEYCAPS := sample_catalog;
        stdout := [] ++ [sample_help; EmptyString; header; sample_listing];
        fs := [] |})
  ∧ sample_generate 2 args_listing sample_catalog []
    = (Raise (SystemExit 1),
       {| SEM := Some 8%Z; COMMANDS := []; KEYCAPS := sample_catalog;
          stdout := [] ++ [header; sample_listing]; fs := [] |}).
Proof.
  assert (keycap_names sample_catalog = Ok sample_listing) as Hnames.
  { unfold sample_listing, listing_of. apply is_ok_eq. vm_compute. reflexivity. }
  pose proof (help_and_listing_exit sample_str sample_py_str ascii_lower
                sample_help (list string) sample_exists sample_mkdir
                (module_loaded sample_catalog []) sample_listing Hnames)
    as (Hhelp & _ & Hlist).
  split; [exact Hhelp|].
  apply (Hlist 2%nat args_listing); [lia|reflexivity|simpl; lia].
Defined.

(** [ft-ergodox.py -k -j -1]: line 651 raises before anything is printed. *)
Lemma listing_with_negative_jobs_prints_nothing :
  let r := sample_generate 2 args_listing_neg sample_catalog [] in
  keycaps args_listing_neg = true
  ∧ r.1 = Raise ValueError
  ∧ stdout r.2 = []
  ∧ SEM r.2 = None.
Proof. vm_compute. split_and!; reflexivity. Qed.

(** * More facts *)

(** ** The runner: permits, the log and the cap *)

Lemma run_schedule_app (shell : string → Z * string)
    (popen_fails : string → option popen_error) (l1 l2 : list nat)
    (s : rstate) :
  run_schedule shell popen_fails (l1 ++ l2) s
  = run_schedule shell popen_fails l2 (run_schedule shell popen_fails l1 s).
Proof.
  revert s. induction l1 as [|i l1 IH]; intros s; simpl; [done|].
  by destruct (advance shell popen_fails i s).
Qed.

Section RunnerMore.
Variable shell : string → Z * string.
Variable popen_fails : string → option popen_error.

Local Abbreviation shown := (shown shell).
Local Abbreviation run_inv := (run_inv shell popen_fails).

Lemma all_printed_holders (s : rstate) : all_printed s → holders s = 0%nat.
Proof.
  unfold all_printed, holders. induction 1 as [|[c t] l Ht _ IH]; [done|].
  rewrite filter_cons. simpl in *. by subst t.
Qed.

(** X1: at every state of a run started with [jobs] permits, the counter of
    [SEM] lies between 0 and [jobs], and the counter plus the number of
    coroutines inside [async with SEM] is [jobs]; once every output has
    been printed, all permits are back. *)
Theorem permits_conserved (jobs : Z) (cmds out : list string) (s : rstate) :
  (0 ≤ jobs)%Z →
  rtc (step shell popen_fails) (run_all_commands (Some jobs) cmds out) s →
  ∃ v, r_SEM s = Some v ∧ (0 ≤ v ≤ jobs)%Z
       ∧ (v + Z.of_nat (holders s) = jobs)%Z
       ∧ (all_printed s → v = jobs).
Proof.
  intros Hjobs Hrtc.
  destruct (sem_inv_reachable shell popen_fails jobs cmds out s Hjobs Hrtc)
    as (v & Hv & Hpos & Hsum).
  exists v. split_and!; [done|lia..|].
  intros Hall. rewrite (all_printed_holders s Hall) in Hsum. lia.
Qed.

Lemma omap_ran_sublist (l : list (string * tstate)) : omap ran l `sublist_of` l.*1.
Proof.
  induction l as [|[c t] l IH]; simpl; [done|].
  unfold ran at 1. simpl. destruct (past_running t); simpl.
  - by apply sublist_skip.
  - by apply sublist_cons.
Qed.

Lemma omap_shown_sublist (l : list (string * tstate)) :
  omap shown l `sublist_of` ((λ c, (shell c).2) <$> omap ran l).
Proof.
  induction l as [|[c t] l IH]; simpl; [done|].
  unfold shown at 1, ran at 1. simpl.
  destruct t; simpl; try done; by constructor.
Qed.

(** X2: at every state of a run, the commands executed so far are commands
    of the list, none more often than the list has it, and what the runner
    has printed so far are outputs of commands that were executed. *)
Theorem executed_within_list (jobs : Z) (cmds out : list string) (s : rstate) :
  (0 ≤ jobs)%Z →
  rtc (step shell popen_fails) (run_all_commands (Some jobs) cmds out) s →
  r_executed s ⊆+ cmds
  ∧ ∃ printed, r_stdout s = out ++ printed
               ∧ printed ⊆+ (λ c, (shell c).2) <$> r_executed s.
Proof.
  intros Hjobs Hrtc.
  destruct (run_inv_reachable shell popen_fails jobs cmds out s Hjobs Hrtc)
    as [_ Hc _ He (l & Hl & Hs)].
  split.
  - rewrite He, <-Hc. apply sublist_submseteq, omap_ran_sublist.
  - exists l. split; [done|]. rewrite Hs, He.
    apply sublist_submseteq, omap_shown_sublist.
Qed.

(** X3: under [asyncio.Semaphore(0)] no command is ever executed and nothing
    is printed or raised: every coroutine is unstarted or waiting, and
    when nothing can move any more all of them wait for the semaphore. *)
Theorem zero_jobs_never_runs (cmds out : list string) (s : rstate) :
  rtc (step shell popen_fails) (run_all_commands (Some 0%Z) cmds out) s →
  r_SEM s = Some 0%Z ∧ r_executed s = [] ∧ r_stdout s = out
  ∧ r_raised s = None
  ∧ Forall (λ ct, ct.2 = TCreated ∨ ct.2 = TWaiting) (r_tasks s)
  ∧ (stuck shell popen_fails s → Forall (λ ct, ct.2 = TWaiting) (r_tasks s)).
Proof.
  intros Hrtc.
  assert (r_SEM s = Some 0%Z ∧ r_executed s = [] ∧ r_stdout s = out
          ∧ r_raised s = None
          ∧ Forall (λ ct, ct.2 = TCreated ∨ ct.2 = TWaiting) (r_tasks s))
    as (Hsem & He & Ho & Hr & Ht).
  { revert s Hrtc.
    apply (rtc_ind_r (R := step shell popen_fails)
             (λ s, r_SEM s = Some 0%Z ∧ r_executed s = [] ∧ r_stdout s = out
                   ∧ r_raised s = None
                   ∧ Forall (λ ct, ct.2 = TCreated ∨ ct.2 = TWaiting)
                            (r_tasks s))).
    - simpl. split_and!; try done. apply Forall_fmap, Forall_true. by left.
    - intros s s' _ [i Hadv] (Hsem & He & Ho & Hr & Ht).
      unfold advance in Hadv. rewrite Hr in Hadv.
      destruct (r_tasks s !! i) as [[c t]|] eqn:Hi; [|done].
      pose proof (Forall_lookup_1 _ _ _ _ Ht Hi) as [Hc|Hc]; simpl in Hc;
        subst t; rewrite Hsem in Hadv; simpl in Hadv; simplify_eq; simpl.
      split_and!; try done. apply Forall_insert; [done|by right]. }
  split_and!; try done. intros Hstuck.
  apply Forall_lookup_2. intros i [c t] Hi. simpl.
  pose proof (Forall_lookup_1 _ _ _ _ Ht Hi) as [Hc|Hc]; simpl in Hc; [|done].
  subst t. specialize (Hstuck i). unfold advance in Hstuck.
  rewrite Hr, Hi, Hsem in Hstuck. done.
Qed.

Lemma started_state (jobs : Z) (cmds out : list string) (n : nat) :
  (n ≤ length cmds)%nat → (Z.of_nat n ≤ jobs)%Z →
  run_schedule shell popen_fails (List.seq 0 n) (run_all_commands (Some jobs) cmds out)
  = {| r_SEM := Some (jobs - Z.of_nat n)%Z;
       r_tasks := ((λ c, (c, TRunning)) <$> take n cmds)
                  ++ ((λ c, (c, TCreated)) <$> drop n cmds);
       r_executed := []; r_stdout := out; r_raised := None |}.
Proof.
  induction n as [|n IH]; intros Hn Hj.
  - simpl. unfold run_all_commands. by rewrite Z.sub_0_r.
  - rewrite List.seq_S, run_schedule_app, IH by lia. simpl.
    destruct (lookup_lt_is_Some_2 cmds n) as [c Hc]; [lia|].
    assert (length ((λ c, (c, TRunning)) <$> take n cmds) = n) as Hlen.
    { rewrite length_fmap, length_take. lia. }
    unfold advance. simpl.
    rewrite lookup_app_r by lia. rewrite Hlen, Nat.sub_diag.
    rewrite (drop_S _ _ _ Hc). simpl.
    destruct (Z.ltb_spec 0 (jobs - Z.of_nat n)); [|lia].
    unfold set_task, set_sem. simpl. f_equal.
    + f_equal. lia.
    + rewrite insert_app_r_alt by lia. rewrite Hlen, Nat.sub_diag. simpl.
      rewrite (take_S_r _ _ _ Hc), fmap_app, <-app_assoc. done.
Qed.

Lemma in_flight_started (l1 l2 : list string) :
  length (filter (λ ct : string * tstate, is_running ct.2 = true)
            (((λ c, (c, TRunning)) <$> l1) ++ ((λ c, (c, TCreated)) <$> l2)))
  = length l1.
Proof.
  induction l1 as [|c l1 IH].
  - rewrite fmap_nil, app_nil_l. induction l2 as [|c l2 IH]; [done|].
    rewrite fmap_cons, filter_cons_False by done. exact IH.
  - rewrite fmap_cons, <-app_comm_cons, filter_cons_True by done.
    simpl. by rewrite IH.
Qed.

(** X4: the cap is attained: when the list has at least [jobs] commands,
    some run has [jobs] commands in the executor at once, with no permit
    left. *)
Theorem cap_is_reached (jobs : Z) (cmds out : list string) :
  (0 ≤ jobs)%Z → (jobs ≤ Z.of_nat (length cmds))%Z →
  ∃ s, rtc (step shell popen_fails) (run_all_commands (Some jobs) cmds out) s
       ∧ Z.of_nat (in_flight s) = jobs ∧ r_SEM s = Some 0%Z
       ∧ r_executed s = [].
Proof.
  intros Hpos Hle.
  exists (run_schedule shell popen_fails (List.seq 0 (Z.to_nat jobs))
            (run_all_commands (Some jobs) cmds out)).
  split; [apply run_schedule_rtc|].
  rewrite started_state by lia. unfold in_flight. simpl.
  split_and!; [|f_equal; lia|done].
  rewrite in_flight_started, length_take. lia.
Qed.

End RunnerMore.

(** ** The [__main__] block: what it queues, prints and touches *)

Lemma Forall2_compose {A} (P Q R : A → A → Prop) (l1 l2 l3 : list A) :
  (∀ x y z, P x y → Q y z → R x z) →
  Forall2 P l1 l2 → Forall2 Q l2 l3 → Forall2 R l1 l3.
Proof.
  intros HPQ H12. revert l3.
  induction H12 as [|x y l1 l2 Hxy _ IH]; intros l3 H23;
    inversion H23; subst; constructor; eauto.
Qed.

Lemma length_concat_count {A B} (f : A → list B) (b : A → bool) (l : list A) :
  Forall (λ x, length (f x) = if b x then 1%nat else 0%nat) l →
  length (concat (f <$> l)) = length (filter (λ x, b x = true) l).
Proof.
  induction 1 as [|x l Hx _ IH]; [done|].
  rewrite fmap_cons, filter_cons. simpl. rewrite length_app, Hx, IH.
  by destruct (b x).
Qed.

Ltac solve_elem :=
  repeat first [ apply list_elem_of_here | apply list_elem_of_further ].

Ltac solve_not_elem :=
  let H := fresh in
  intros H; repeat (apply elem_of_cons in H as [H|H]; [done|]);
  by apply elem_of_nil in H.

Ltac solve_sublist :=
  simpl;
  repeat first
    [ apply sublist_nil_l | apply sublist_skip | apply sublist_cons ].

Section ScriptMore.
Variable shell : string → Z * string.
Variable popen_fails : string → option popen_error.
Variable Keycap_str : obj → string.
Variable py_str : val → string.
Variable str_lower : string → string.
Variable argparse_help : string.
Variable FS : Type.
Variable path_exists : FS → string → bool.
Variable os_mkdir : FS → string → result FS.

Local Abbreviation renders := (renders py_str FS path_exists).
Local Abbreviation render_visit :=
  (render_visit Keycap_str py_str FS path_exists).
Local Abbreviation preserves := (preserves FS).
Local Abbreviation keycaps_changed_in := (keycaps_changed_in FS).
Local Abbreviation legend_made := (legend_made py_str).
Local Abbreviation legend_due := (legend_due py_str FS path_exists).
Local Abbreviation legend_visit :=
  (legend_visit Keycap_str py_str FS path_exists).
Local Abbreviation legend_object := (legend_object py_str).
Local Abbreviation legend_path := (legend_path py_str).
Local Abbreviation matches := (matches str_lower).
Local Abbreviation named_visit :=
  (named_visit Keycap_str py_str str_lower FS path_exists).
Local Abbreviation any_match := (any_match str_lower).
Local Abbreviation queued_and_printed := (queued_and_printed FS).
Local Abbreviation same_fs := (same_fs FS).

#[local] Instance queued_and_printed_refl : Reflexive queued_and_printed.
Proof. intros w. exists [], []. by rewrite !app_nil_r. Qed.

#[local] Instance queued_and_printed_trans : Transitive queued_and_printed.
Proof.
  intros w1 w2 w3 (n1 & p1 & Hc1 & Hs1 & H1) (n2 & p2 & Hc2 & Hs2 & H2).
  exists (n1 ++ n2), (p1 ++ p2).
  rewrite Hc2, Hc1, Hs2, Hs1, <-!app_assoc. split_and!; try done.
  by apply sublist_app.
Qed.

#[local] Instance same_fs_refl : Reflexive same_fs.
Proof. by intros w. Qed.

#[local] Instance same_fs_trans : Transitive same_fs.
Proof. intros w1 w2 w3 H12 H23. unfold same_fs in *. congruence. Qed.

#[local] Instance changed_in_refl S : Reflexive (keycaps_changed_in S).
Proof. intros w. apply Forall2_unchanged_refl. Qed.

#[local] Instance changed_in_trans S : Transitive (keycaps_changed_in S).
Proof. intros w1 w2 w3. apply Forall2_unchanged_trans. Qed.

(** *** Every queued command was printed *)

Lemma each_keycap_queued (body : FS → obj → result visit) (matched : bool) :
  (∀ files k v, body files k = Ok v → v_commands v `sublist_of` v_prints v) →
  preserves queued_and_printed (each_keycap body matched).
Proof.
  intros Hbody w r w' Hloop. unfold each_keycap in Hloop.
  apply for_keycaps_spec in Hloop
    as (seen & rest & vs & _ & Hvs & _ & _ & _ & Hc & Hs & _).
  exists (concat (v_commands <$> vs)), (concat (v_prints <$> vs)).
  split_and!; try done. clear -Hvs Hbody.
  induction Hvs as [|k v seen vs Hkv _ IH]; simpl; [done|].
  apply sublist_app; eauto.
Qed.

Lemma render_keycap_printed (args : Args) (files : FS) (k : obj) (v : visit) :
  render_keycap Keycap_str py_str path_exists args files k = Ok v →
  v_commands v `sublist_of` v_prints v.
Proof.
  unfold render_keycap. intros Hv.
  destruct (output_file _ _ _) as [p|]; simplify_eq/=.
  destruct (negb (force args) && path_exists files p); simplify_eq/=;
    solve_sublist.
Qed.

Lemma render_legend_printed (args : Args) (files : FS) (k : obj) (v : visit) :
  render_legend Keycap_str py_str path_exists args files k = Ok v →
  v_commands v `sublist_of` v_prints v.
Proof.
  unfold render_legend. intros Hv.
  destruct (attr k "legends") as [l|]; simplify_eq/=.
  destruct (no_legends l); simplify_eq/=; [solve_sublist|].
  destruct (attr k "name") as [n|]; simplify_eq/=.
  destruct (output_file _ _ _) as [p|]; simplify_eq/=.
  destruct (negb (force args) && path_exists files p); simplify_eq/=;
    solve_sublist.
Qed.

Lemma render_named_printed (args : Args) (files : FS) (name : string)
    (k : obj) (v : visit) :
  render_named Keycap_str py_str str_lower path_exists args files name k = Ok v →
  v_commands v `sublist_of` v_prints v.
Proof.
  unfold render_named. intros Hv.
  destruct (name_matches str_lower k name) as [[]|]; simplify_eq/=;
    [|solve_sublist].
  destruct (output_file _ _ _) as [p|]; simplify_eq/=.
  destruct (legends args); simplify_eq/=.
  - destruct (attr _ "name") as [n|]; simplify_eq/=.
    destruct (output_file _ _ _) as [lp|]; simplify_eq/=.
    destruct (path_exists files lp), (negb (force args) && path_exists files p);
      simplify_eq/=; solve_sublist.
  - destruct (negb (force args) && path_exists files p); simplify_eq/=;
      solve_sublist.
Qed.

Lemma print_queued (line : string) (w : world FS) :
  queued_and_printed w (print line w).2.
Proof.
  exists [], [line]. simpl. rewrite app_nil_r.
  split_and!; [done|done|solve_sublist].
Qed.

(** The two modes keep a relation that every loop and every [print]
    keeps. *)
Lemma modes_keep (Q : relation (world FS)) `{!Reflexive Q} `{!Transitive Q}
    (args : Args) :
  (∀ line w, Q w (print line w).2) →
  preserves Q (each_keycap (render_keycap Keycap_str py_str path_exists args)
                 false) →
  preserves Q (each_keycap (render_legend Keycap_str py_str path_exists args)
                 false) →
  (∀ name matched,
     preserves Q (each_keycap
                    (λ files, render_named Keycap_str py_str str_lower
                                path_exists args files name) matched)) →
  preserves Q (full_batch Keycap_str py_str path_exists args)
  ∧ preserves Q (names_branch Keycap_str py_str str_lower path_exists args).
Proof.
  intros Hprint Hk Hl Hn. split.
  - unfold full_batch. apply preserves_bind; [done| |intros ?].
    { unfold render_pass. apply preserves_bind; [done|done|intros ?].
      by apply preserves_ret. }
    destruct (legends args); [|by apply preserves_ret].
    unfold legends_pass. apply preserves_bind; [done|done|intros ?].
    by apply preserves_ret.
  - unfold names_branch. apply preserves_bind; [done| |intros matched].
    + generalize false. induction (names args) as [|name rest IH];
        intros matched; simpl; [by apply preserves_ret|].
      apply preserves_bind; [done|apply Hn|done].
    + destruct matched; [by apply preserves_ret|by apply print_keeps].
Qed.

(** X5: whatever the arguments and however the block ends, [COMMANDS] and
    standard output are only appended to, and every command appended to
    [COMMANDS] was printed, in the same order. *)
Theorem commands_are_printed (argc : nat) (args : Args) (w : world FS) :
  queued_and_printed w
    (generate Keycap_str py_str str_lower argparse_help path_exists os_mkdir
       argc args w).2.
Proof.
  destruct (generate _ _ _ _ _ _ argc args w) as [r w'] eqn:Hgen. simpl.
  revert w r w' Hgen.
  change (preserves queued_and_printed
            (generate Keycap_str py_str str_lower argparse_help path_exists
               os_mkdir argc args)).
  destruct (modes_keep queued_and_printed args) as [Hfull Hnames].
  { apply print_queued. }
  { apply each_keycap_queued. intros ???. apply render_keycap_printed. }
  { apply each_keycap_queued. intros ???. apply render_legend_printed. }
  { intros name matched. apply each_keycap_queued. intros ???.
    apply render_named_printed. }
  unfold generate.
  apply preserves_bind; [apply _|apply preserves_lift; apply _|intros sem].
  apply preserves_bind; [apply _| |intros ?].
  { intros w1 r1 w1' Hset. unfold set_SEM in Hset. simplify_eq.
    exists [], []. simpl. by rewrite !app_nil_r. }
  apply dispatch_keeps; try apply _; try done.
  - apply print_queued.
  - intros f w1. exists [], []. simpl. by rewrite !app_nil_r.
Qed.

(** *** The named-keycap branch *)

Lemma render_named_changes (args : Args) (files : FS) (name : string)
    (k : obj) (v : visit) :
  render_named Keycap_str py_str str_lower path_exists args files name k = Ok v →
  unchanged_except named_attrs k (v_keycap v).
Proof.
  unfold render_named, named_attrs. intros Hv.
  assert (∀ k', unchanged_except
                  ["output_path"; "use_colorscad"; "stem_color"; "name";
                   "file_type"] k k' →
                unchanged_except
                  ["output_path"; "use_colorscad"; "stem_color"; "name";
                   "file_type"] k (apply_flags args k')) as Hflags.
  { intros k' Hk'. apply unchanged_apply_flags; [solve_elem|solve_elem|done]. }
  destruct (name_matches str_lower k name) as [[]|]; simplify_eq/=;
    [|apply unchanged_refl].
  destruct (output_file _ _ _) as [p|]; simplify_eq/=.
  destruct (legends args); simplify_eq/=.
  - destruct (attr _ "name") as [n|]; simplify_eq/=.
    destruct (output_file _ _ _) as [lp|]; simplify_eq/=.
    destruct (path_exists files lp); simplify_eq/=.
    all: apply unchanged_insert; [solve_elem|].
    all: apply unchanged_insert; [solve_elem|].
    all: apply Hflags, unchanged_insert; [solve_elem|apply unchanged_refl].
  - apply Hflags, unchanged_insert; [solve_elem|apply unchanged_refl].
Qed.

(** X11: the named-keycap branch assigns to [output_path], [use_colorscad],
    [stem_color], [name] and [file_type] only.  Unlike the legends pass of
    the full batch it never sets [render]: with [--legends] the record
    still renders what it rendered before. *)
Theorem named_branch_keeps_render (args : Args) (w : world FS) :
  let w' := (names_branch Keycap_str py_str str_lower path_exists args w).2 in
  Forall2 (unchanged_except named_attrs) (KEYCAPS w) (KEYCAPS w')
  ∧ Forall2 (λ k k', k' !! "render" = k !! "render"
                     ∧ k' !! "legends" = k !! "legends")
            (KEYCAPS w) (KEYCAPS w').
Proof.
  assert (Forall2 (unchanged_except named_attrs) (KEYCAPS w)
            (KEYCAPS (names_branch Keycap_str py_str str_lower path_exists
                        args w).2)) as Hframe.
  { destruct (names_branch _ _ _ _ args w) as [r w'] eqn:Hrun. simpl.
    revert w r w' Hrun.
    change (preserves (keycaps_changed_in named_attrs)
              (names_branch Keycap_str py_str str_lower path_exists args)).
    unfold names_branch. apply preserves_bind; [apply _| |intros matched].
    - apply names_loop_changed_in. apply render_named_changes.
    - destruct matched; [apply preserves_ret; apply _|].
      apply print_keeps. intros w1. apply Forall2_unchanged_refl. }
  split; [done|].
  eapply Forall2_impl; [done|]. intros k k' Hk.
  split; apply Hk; unfold named_attrs; solve_not_elem.
Qed.

Lemma render_named_unmatched (args : Args) (files : FS) (name : string)
    (k : obj) (v : visit) :
  render_named Keycap_str py_str str_lower path_exists args files name k = Ok v →
  matches name k = false → v_keycap v = k.
Proof.
  unfold render_named, name_matches, matches, attr. intros Hv Hm.
  destruct (k !! "name") as [[]|]; simplify_eq/=.
  rewrite Hm in Hv. by simplify_eq/=.
Qed.

Lemma named_pass_leaves (args : Args) (name : string) (matched : bool)
    (w w' : world FS) (r : result bool) :
  each_keycap (λ files, render_named Keycap_str py_str str_lower path_exists
                          args files name) matched w = (r, w') →
  Forall2 (λ k k', matches name k = false → k' = k) (KEYCAPS w) (KEYCAPS w').
Proof.
  unfold each_keycap. intros Hloop.
  apply for_keycaps_spec in Hloop
    as (seen & rest & vs & Hks & Hvs & _ & _ & Hks' & _).
  rewrite Hks, Hks'. simpl. apply Forall2_app; [|by apply Forall_Forall2_diag, Forall_true].
  clear -Hvs. induction Hvs as [|k v seen vs Hkv _ IH]; simpl; constructor;
    [|done].
  intros Hm. by eapply render_named_unmatched.
Qed.

(** X10: however the named-keycap branch ends, a record whose name matches
    none of the requested names (compared in lower case) is exactly as it
    was. *)
Theorem named_branch_leaves_others (args : Args) (w : world FS) :
  Forall2 (λ k k', existsb (λ name, matches name k) (names args) = false →
                   k' = k)
    (KEYCAPS w)
    (KEYCAPS (names_branch Keycap_str py_str str_lower path_exists args w).2).
Proof.
  assert (∀ requested matched (w w' : world FS) r,
            names_loop Keycap_str py_str str_lower path_exists args requested
              matched w = (r, w') →
            Forall2 (λ k k', existsb (λ name, matches name k) requested = false
                             → k' = k) (KEYCAPS w) (KEYCAPS w')) as Hloop.
  { clear w. induction requested as [|name rest IH]; intros matched w w' r; simpl.
    - intros Hret. unfold mret, M_ret in Hret. simplify_eq.
      by apply Forall_Forall2_diag, Forall_true.
    - unfold mbind, M_bind.
      destruct (each_keycap _ matched w) as [[m|e] w1] eqn:Hpass; intros Hrun.
      + apply named_pass_leaves in Hpass. apply IH in Hrun.
        eapply Forall2_compose; [|exact Hpass|exact Hrun]. simpl.
        intros k k1 k' Hk Hk1 [Hm Hrest]%orb_false_elim.
        rewrite (Hk Hm) in *. by apply Hk1.
      + simplify_eq. apply named_pass_leaves in Hpass.
        eapply Forall2_impl; [done|]. simpl.
        intros k k' Hk [Hm _]%orb_false_elim. by apply Hk. }
  unfold names_branch, mbind, M_bind.
  destruct (names_loop _ _ _ _ args (names args) false w) as [[[]|e] w1] eqn:Hrun;
    simpl; by eapply Hloop.
Qed.

(** X12: in the named-keycap branch with [--legends], the record of a
    matched keycap is renamed [{name}_legends] with [file_type = "stl"],
    and its legend command is appended exactly when
    [{out}/{name}_legends.stl] does not exist: [--force] is not consulted.
    The command of the keycap itself follows the skip-unless-forced
    rule. *)
Theorem named_legend_ignores_force (args : Args) (files : FS) (name : string)
    (k : obj) (v : visit) :
  render_named Keycap_str py_str str_lower path_exists args files name k = Ok v →
  v_matched v = true → legends args = true →
  ∃ s, k !! "name" = Some (VStr s)
    ∧ let legend := <["file_type" := VStr "stl"]>
                      (<["name" := VStr (s +:+ "_legends")]> (configured args k)) in
      let lpath := out args +:+ "/" +:+ (s +:+ "_legends") +:+ "." +:+ "stl" in
      v_keycap v = legend
      ∧ legend !! "render" = k !! "render"
      ∧ v_commands v
        = (if renders args files k then [Keycap_str (configured args k)] else [])
          ++ (if path_exists files lpath then [] else [Keycap_str legend]).
Proof.
  unfold render_named, name_matches, attr. intros Hv Hm Hl.
  destruct (k !! "name") as [[| | | |s| |]|] eqn:Hs; simplify_eq/=.
  destruct (String.eqb (str_lower s) (str_lower name)); simplify_eq/=.
  rewrite output_file_insert in Hv by done. unfold renders.
  destruct (output_file py_str args k) as [p|] eqn:Hp; simplify_eq/=.
  fold (configured args k) in Hv. rewrite Hl in Hv.
  assert (configured args k !! "name" = Some (VStr s)) as Hcn.
  { unfold configured. by rewrite apply_flags_lookup, ?lookup_ins by done. }
  unfold attr in Hv. rewrite Hcn in Hv. simpl in Hv.
  unfold output_file at 1 in Hv. unfold attr in Hv.
  rewrite ?lookup_ins in Hv. simpl in Hv.
  exists s. split; [done|]. simpl.
  assert ((<["file_type" := VStr "stl"]>
             (<["name" := VStr (s +:+ "_legends")]> (configured args k)))
            !! "render" = k !! "render") as Hr.
  { unfold configured. by rewrite ?lookup_ins, apply_flags_lookup, ?lookup_ins by done. }
  destruct (path_exists files _); simplify_eq/=;
    (split_and!; [done|done|]);
    destruct (force args), (path_exists files p); simpl;
    by rewrite ?app_nil_r.
Qed.

(** *** The output directory *)

Lemma modes_same_fs (args : Args) :
  preserves same_fs (full_batch Keycap_str py_str path_exists args)
  ∧ preserves same_fs
      (names_branch Keycap_str py_str str_lower path_exists args).
Proof.
  assert (∀ body matched, preserves same_fs (each_keycap body matched))
    as Hloop.
  { intros body matched w r w' Hrun. unfold each_keycap in Hrun.
    by apply for_keycaps_spec in Hrun as (_ & _ & _ & _ & _ & _ & ? & _). }
  apply modes_keep; try apply _; try done.
Qed.

Lemma print_keycaps_same_fs : preserves same_fs (print_keycaps (FS := FS)).
Proof. apply print_keycaps_keeps; try apply _. done. Qed.

(** The mode chosen by the positional names, after the output directory
    was seen to. *)
Lemma modes_run_same_fs (args : Args) (line : string) (w w' : world FS)
    (r : result unit) :
  (_ ← print line;
   match names args with
   | [] => full_batch Keycap_str py_str path_exists args
   | _ :: _ => names_branch Keycap_str py_str str_lower path_exists args
   end) w = (r, w') →
  fs w' = fs w.
Proof.
  revert w r w'.
  change (preserves same_fs
            (_ ← print line;
             match names args with
             | [] => full_batch Keycap_str py_str path_exists args
             | _ :: _ =>
               names_branch Keycap_str py_str str_lower path_exists args
             end)).
  destruct (modes_same_fs args) as [Hfull Hnames].
  apply preserves_bind; [apply _|by apply print_keeps|intros ?].
  by destruct (names args).
Qed.

(** X6: the block changes the file system by at most one
    [os.mkdir(args.out)], made only when [args.out] does not exist; when
    that [mkdir] raises, the exception ends the script after the one
    message, with no command queued and no record changed. *)
Theorem only_the_output_directory_is_made (argc : nat) (args : Args)
    (w : world FS) :
  let run := generate Keycap_str py_str str_lower argparse_help path_exists
               os_mkdir argc args w in
  (fs run.2 = fs w
   ∨ (path_exists (fs w) (out args) = false
      ∧ os_mkdir (fs w) (out args) = Ok (fs run.2)))
  ∧ (∀ e, argc ≠ 1%nat → keycaps args = false → (0 ≤ jobs args)%Z →
          path_exists (fs w) (out args) = false →
          os_mkdir (fs w) (out args) = Raise e →
          run = (Raise e,
                 {| SEM := Some (jobs args); COMMANDS := COMMANDS w;
                    KEYCAPS := KEYCAPS w;
                    stdout := stdout w
                              ++ [BRIGHT +:+ "Output path, '" +:+ out args
                                  +:+ "' does not exist; making it..."
                                  +:+ RESET_ALL];
                    fs := fs w |})).
Proof.
  simpl. split.
  - unfold generate, mbind, M_bind, lift, set_SEM.
    destruct (Semaphore (jobs args)) as [sem|]; [|by left]. simpl.
    set (w1 := {| SEM := Some sem; COMMANDS := COMMANDS w;
                  KEYCAPS := KEYCAPS w; stdout := stdout w; fs := fs w |}).
    change (fs w) with (fs w1).
    destruct (dispatch _ _ _ _ _ _ argc args w1) as [r w'] eqn:Hd. simpl.
    unfold dispatch in Hd.
    assert (argc = 1%nat ∨ argc ≠ 1%nat) as [Hargc|Hargc] by lia;
      [rewrite decide_True in Hd by done|rewrite decide_False in Hd by done].
    { left. enough (same_fs w1 w') as Hfs by exact Hfs.
      revert Hd. generalize w1 r w'.
      change (preserves same_fs
                (_ ← print argparse_help; _ ← print EmptyString;
                 _ ← print_keycaps; raise (A := unit) (SystemExit 1))).
      apply preserves_bind; [apply _|by apply print_keeps|intros ?].
      apply preserves_bind; [apply _|by apply print_keeps|intros ?].
      apply preserves_bind; [apply _|apply print_keycaps_same_fs|intros ?].
      apply preserves_raise; apply _. }
    destruct (keycaps args).
    { left. enough (same_fs w1 w') as Hfs by exact Hfs.
      revert Hd. generalize w1 r w'.
      change (preserves same_fs (_ ← print_keycaps; raise (A := unit) (SystemExit 1))).
      apply preserves_bind; [apply _|apply print_keycaps_same_fs|intros ?].
      apply preserves_raise; apply _. }
    unfold mbind at 1, M_bind at 1 in Hd.
    unfold mbind at 1, M_bind at 1 in Hd.
    destruct (path_exists (fs w1) (out args)) eqn:Hex.
    + left. unfold mret, M_ret in Hd. by apply modes_run_same_fs in Hd.
    + unfold mbind at 1, M_bind at 1, print at 1 in Hd.
      unfold mbind at 1, M_bind at 1, lift at 1 in Hd. simpl in Hd.
      destruct (os_mkdir (fs w) (out args)) as [f'|e] eqn:Hmk.
      * right. split; [done|]. unfold set_fs in Hd.
        apply modes_run_same_fs in Hd. by rewrite Hd.
      * left. by simplify_eq.
  - intros e Hargc Hk Hjobs Hex Hmk.
    unfold generate, dispatch, mbind, M_bind, lift, print, set_SEM, Semaphore.
    destruct (Z.ltb_spec (jobs args) 0); [lia|].
    destruct (decide (argc = 1%nat)); [done|]. rewrite Hk. simpl.
    by rewrite Hex, Hmk.
Qed.

(** *** Runs over a well-formed catalog *)

Lemma named_has_path (k : obj) : named k → has_path k.
Proof. intros [[s Hs] Ht]. split; [by rewrite Hs|done]. Qed.

Lemma render_pass_run (args : Args) (w : world FS) :
  Forall has_path (KEYCAPS w) →
  ∃ w', render_pass Keycap_str py_str path_exists args w = (Ok tt, w')
    ∧ SEM w' = SEM w ∧ fs w' = fs w
    ∧ KEYCAPS w' = (λ k, v_keycap (render_visit args (fs w) k)) <$> KEYCAPS w
    ∧ COMMANDS w'
      = COMMANDS w
        ++ concat ((λ k, v_commands (render_visit args (fs w) k)) <$> KEYCAPS w)
    ∧ stdout w'
      = stdout w
        ++ concat ((λ k, v_prints (render_visit args (fs w) k)) <$> KEYCAPS w).
Proof.
  intros Hks.
  destruct (each_keycap_total FS
              (render_keycap Keycap_str py_str path_exists args)
              (render_visit args (fs w)) false w)
    as (w' & Hloop & Hrest).
  { eapply Forall_impl; [done|]. intros k Hk. by apply render_keycap_visit. }
  exists w'. unfold render_pass, mbind, M_bind. by rewrite Hloop.
Qed.

Lemma legends_pass_run (args : Args) (w : world FS) :
  Forall has_legends (KEYCAPS w) →
  ∃ w', legends_pass Keycap_str py_str path_exists args w = (Ok tt, w')
    ∧ SEM w' = SEM w ∧ fs w' = fs w
    ∧ KEYCAPS w' = (λ k, v_keycap (legend_visit args (fs w) k)) <$> KEYCAPS w
    ∧ COMMANDS w'
      = COMMANDS w
        ++ concat ((λ k, v_commands (legend_visit args (fs w) k)) <$> KEYCAPS w)
    ∧ stdout w'
      = stdout w
        ++ concat ((λ k, v_prints (legend_visit args (fs w) k)) <$> KEYCAPS w).
Proof.
  intros Hks.
  destruct (each_keycap_total FS
              (render_legend Keycap_str py_str path_exists args)
              (legend_visit args (fs w)) false w)
    as (w' & Hloop & Hrest).
  { eapply Forall_impl; [done|]. intros k Hk. by apply render_legend_visit. }
  exists w'. unfold legends_pass, mbind, M_bind. by rewrite Hloop.
Qed.

Lemma render_visit_keeps (args : Args) (files : FS) (k : obj) (a : string) :
  a ≠ "output_path" → a ≠ "use_colorscad" → a ≠ "stem_color" →
  v_keycap (render_visit args files k) !! a = k !! a.
Proof.
  intros H1 H2 H3. unfold render_visit, configured.
  destruct (output_file py_str args k); [|done].
  destruct (renders args files k); simpl;
    by rewrite ?apply_flags_lookup, ?lookup_insert_ne by done.
Qed.

Lemma render_visit_has_legends (args : Args) (files : FS) (k : obj) :
  has_legends k →
  has_legends (v_keycap (render_visit args files k))
  ∧ with_legends (v_keycap (render_visit args files k)) = with_legends k.
Proof.
  intros [Hl Hn]. unfold has_legends, with_legends.
  by rewrite !render_visit_keeps by done.
Qed.

Lemma full_batch_run (args : Args) (w : world FS) :
  Forall has_path (KEYCAPS w) → Forall has_legends (KEYCAPS w) →
  ∃ w1 w',
    render_pass Keycap_str py_str path_exists args w = (Ok tt, w1)
    ∧ full_batch Keycap_str py_str path_exists args w = (Ok tt, w')
    ∧ fs w1 = fs w
    ∧ KEYCAPS w1 = (λ k, v_keycap (render_visit args (fs w) k)) <$> KEYCAPS w
    ∧ COMMANDS w1
      = COMMANDS w
        ++ concat ((λ k, v_commands (render_visit args (fs w) k)) <$> KEYCAPS w)
    ∧ stdout w1
      = stdout w
        ++ concat ((λ k, v_prints (render_visit args (fs w) k)) <$> KEYCAPS w)
    ∧ (legends args = false → w' = w1)
    ∧ (legends args = true →
       fs w' = fs w
       ∧ COMMANDS w'
         = COMMANDS w1
           ++ concat ((λ k, v_commands (legend_visit args (fs w) k))
                        <$> KEYCAPS w1)).
Proof.
  intros Hp Hl.
  destruct (render_pass_run args w Hp) as (w1 & Hrun & _ & Hfs & Hks & Hc & Hs).
  assert (Forall has_legends (KEYCAPS w1)) as Hl1.
  { rewrite Hks. apply Forall_fmap. apply Forall_forall. intros k Hk. simpl.
    apply render_visit_has_legends. by eapply Forall_forall in Hl. }
  unfold full_batch, mbind, M_bind. rewrite Hrun.
  destruct (legends args).
  - destruct (legends_pass_run args w1 Hl1)
      as (w' & Hrun' & _ & Hfs' & _ & Hc' & _).
    exists w1, w'. rewrite Hfs in Hfs', Hc'. split_and!; done.
  - exists w1, w1. split_and!; done.
Qed.

Lemma names_branch_run (args : Args) (w : world FS) :
  Forall named (KEYCAPS w) →
  ∃ w', names_branch Keycap_str py_str str_lower path_exists args w
        = (Ok tt, w').
Proof.
  intros Hks.
  destruct (names_loop_matched Keycap_str py_str str_lower FS path_exists args
              (names args) false w Hks) as (w' & Hloop & _).
  unfold names_branch, mbind, M_bind. rewrite Hloop.
  destruct (false || any_match (names args) (KEYCAPS w)); eauto.
Qed.

Lemma mapM_Ok {A B} (f : A → result B) (l : list A) (k : list B) :
  Forall2 (λ x y, f x = Ok y) l k → mapM f l = Ok k.
Proof.
  induction 1 as [|x y l k Hxy _ IH]; [done|].
  unfold mapM in *. simpl. rewrite Hxy. simpl. by rewrite IH.
Qed.

(** The listing of a catalog whose names are strings. *)
Lemma named_listing (ks : list obj) :
  Forall named ks → ∃ listing, keycap_names ks = Ok listing.
Proof.
  intros Hks. unfold keycap_names.
  assert (∃ ss, Forall2 (λ k s, k !! "name" = Some (VStr s)) ks ss) as [ss Hss].
  { induction Hks as [|k ks [[s Hs] _] _ [ss IH]]; [by exists []|].
    exists (s :: ss). by constructor. }
  rewrite (mapM_Ok (λ a, attr a "name") ks (VStr <$> ss)).
  - simpl. rewrite (mapM_Ok as_str (VStr <$> ss) ss); [simpl; eauto|].
    clear. induction ss; simpl; by constructor.
  - clear -Hss. induction Hss as [|k s ks ss Hk _ IH]; simpl; constructor;
      [|done].
    unfold attr. by rewrite Hk.
Qed.

(** X7: over a catalog whose records have a string name, a file type and
    legends, the block ends in one of four ways only: [ValueError] for a
    negative [--jobs]; [SystemExit(1)] at the help and [--keycaps] exits;
    the exception of [os.mkdir] when the output directory cannot be made;
    and otherwise it reaches the runner without raising. *)
Theorem generation_outcome (argc : nat) (args : Args) (w : world FS) :
  Forall named (KEYCAPS w) → Forall has_legends (KEYCAPS w) →
  let r := (generate Keycap_str py_str str_lower argparse_help path_exists
              os_mkdir argc args w).1 in
  ((jobs args < 0)%Z → r = Raise ValueError)
  ∧ ((0 ≤ jobs args)%Z → argc = 1%nat ∨ keycaps args = true →
     r = Raise (SystemExit 1))
  ∧ ((0 ≤ jobs args)%Z → argc ≠ 1%nat → keycaps args = false →
     match path_exists (fs w) (out args), os_mkdir (fs w) (out args) with
     | false, Raise e => r = Raise e
     | _, _ => r = Ok tt
     end).
Proof.
  intros Hnamed Hlegends. simpl.
  assert (Forall has_path (KEYCAPS w)) as Hpath.
  { eapply Forall_impl; [exact Hnamed|]. apply named_has_path. }
  destruct (named_listing (KEYCAPS w) Hnamed) as [listing Hnames].
  split_and!.
  - intros Hneg. unfold generate, mbind, M_bind, lift, Semaphore.
    destruct (Z.ltb_spec (jobs args) 0); [done|lia].
  - intros Hpos Hexit.
    unfold generate, dispatch, print_keycaps, mbind, M_bind, lift, print,
      set_SEM, raise, Semaphore.
    destruct (Z.ltb_spec (jobs args) 0); [lia|].
    destruct (decide (argc = 1%nat)); [simpl; by rewrite Hnames|].
    destruct Hexit as [?|Hk]; [done|]. rewrite Hk. simpl. by rewrite Hnames.
  - intros Hpos Hargc Hk.
    assert (∀ w1 : world FS, KEYCAPS w1 = KEYCAPS w →
              (match names args with
               | [] => full_batch Keycap_str py_str path_exists args
               | _ :: _ =>
                 names_branch Keycap_str py_str str_lower path_exists args
               end w1).1 = Ok tt) as Hmodes.
    { intros w1 Hw1. destruct (names args).
      - destruct (full_batch_run args w1) as (? & w' & _ & -> & _);
          by rewrite ?Hw1.
      - destruct (names_branch_run args w1) as (w' & ->); by rewrite ?Hw1. }
    destruct (path_exists (fs w) (out args)) eqn:Hex;
      [|destruct (os_mkdir (fs w) (out args)) as [f'|e] eqn:Hmk].
    all: unfold generate, dispatch, mbind, M_bind, lift, set_SEM, Semaphore,
           print, set_fs, mret, M_ret.
    all: destruct (Z.ltb_spec (jobs args) 0); [lia|].
    all: rewrite decide_False, Hk by done; simpl; rewrite Hex; simpl.
    all: rewrite ?Hmk; simpl; try done.
    all: by apply Hmodes.
Qed.

Lemma length_concat_ones {A B} (f : A → list B) (l : list A) :
  Forall (λ x, length (f x) = 1%nat) l →
  length (concat (f <$> l)) = length l.
Proof.
  induction 1 as [|x l Hx _ IH]; [done|].
  rewrite fmap_cons. simpl. by rewrite length_app, Hx, IH.
Qed.

Lemma render_visit_forced (args : Args) (files : FS) (k : obj) :
  has_path k → force args = true →
  length (v_commands (render_visit args files k)) = 1%nat.
Proof.
  intros Hk Hf. destruct (has_path_output_file py_str args k Hk) as [p Hp].
  unfold render_visit, renders. by rewrite Hp, Hf.
Qed.

Lemma legend_visit_forced (args : Args) (files : FS) (k : obj) :
  has_legends k → force args = true →
  length (v_commands (legend_visit args files k))
  = if with_legends k then 1%nat else 0%nat.
Proof.
  intros [[l Hl] [n Hn]] Hf. unfold legend_visit, with_legends.
  rewrite (render_legend_eq Keycap_str py_str FS path_exists args files k l n
             Hl Hn), Hl, Hf.
  by destruct (no_legends l).
Qed.

(** X8: with [--force] the full batch queues one command per keycap and,
    under [--legends], one more for each keycap whose legends are not
    [[""]]. *)
Theorem forced_batch_count (args : Args) (w : world FS) :
  Forall has_path (KEYCAPS w) → Forall has_legends (KEYCAPS w) →
  force args = true →
  ∃ w', full_batch Keycap_str py_str path_exists args w = (Ok tt, w')
    ∧ length (COMMANDS w')
      = (length (COMMANDS w) + length (KEYCAPS w)
         + if legends args
           then length (filter (λ k, with_legends k = true) (KEYCAPS w))
           else 0)%nat.
Proof.
  intros Hp Hl Hf.
  destruct (full_batch_run args w Hp Hl)
    as (w1 & w' & _ & Hrun & _ & Hks & Hc & _ & Hoff & Hon).
  exists w'. split; [done|].
  assert (length (COMMANDS w1)
          = (length (COMMANDS w) + length (KEYCAPS w))%nat) as Hc1.
  { rewrite Hc, length_app, length_concat_ones; [done|].
    eapply Forall_impl; [exact Hp|]. intros k Hk.
    by apply render_visit_forced. }
  destruct (legends args).
  - destruct (Hon eq_refl) as [_ Hc']. rewrite Hc', length_app, Hc1, Hks.
    f_equal. rewrite <-list_fmap_compose.
    apply length_concat_count. apply Forall_forall. intros k Hk. simpl.
    assert (has_legends k) as Hlk by (by eapply Forall_forall in Hl).
    destruct (render_visit_has_legends args (fs w) k Hlk) as [Hl' <-].
    by apply legend_visit_forced.
  - rewrite (Hoff eq_refl), Hc1. lia.
Qed.

Lemma runner_without_commands (sem : option Z) (out : list string)
    (s : rstate) :
  rtc (step shell popen_fails) (run_all_commands sem [] out) s →
  s = run_all_commands sem [] out.
Proof.
  revert s.
  apply (rtc_ind_r (R := step shell popen_fails) (λ s, s = run_all_commands sem [] out));
    [done|].
  intros s s' _ [i Hadv] ->. unfold advance in Hadv. simpl in Hadv. done.
Qed.

(** X9: without [--force] and [--legends], when the file of every keycap
    exists the full batch queues nothing, prints one skipping line per
    keycap and leaves the file system alone; if [COMMANDS] was empty, the
    runner then has no step to take. *)
Theorem rerun_queues_nothing (args : Args) (w : world FS) :
  force args = false → legends args = false →
  Forall (λ k, ∃ p, output_file py_str args k = Ok p
                    ∧ path_exists (fs w) p = true) (KEYCAPS w) →
  ∃ w', full_batch Keycap_str py_str path_exists args w = (Ok tt, w')
    ∧ COMMANDS w' = COMMANDS w ∧ fs w' = fs w
    ∧ (∃ printed,
         stdout w' = stdout w ++ printed
         ∧ Forall2 (λ k line, ∃ p, output_file py_str args k = Ok p
                                   ∧ line = skipping p) (KEYCAPS w) printed)
    ∧ (COMMANDS w = [] →
       ∀ s, rtc (step shell popen_fails) (start_runner w') s → s = start_runner w').
Proof.
  intros Hf Hl Hks.
  assert (Forall has_path (KEYCAPS w)) as Hp.
  { eapply Forall_impl; [exact Hks|]. intros k (p & Hp & _).
    unfold output_file, attr in Hp. unfold has_path.
    destruct (k !! "name"), (k !! "file_type"); by simplify_eq/=. }
  destruct (render_pass_run args w Hp) as (w' & Hrun & _ & Hfs & _ & Hc & Hs).
  exists w'. unfold full_batch, mbind, M_bind. rewrite Hrun, Hl.
  assert (Forall (λ k, ∃ p, output_file py_str args k = Ok p
                            ∧ render_visit args (fs w) k
                              = {| v_keycap := <["output_path" := VStr (out args)]> k;
                                   v_commands := []; v_prints := [skipping p];
                                   v_matched := false |}) (KEYCAPS w)) as Hvisits.
  { eapply Forall_impl; [exact Hks|]. intros k (p & Hp' & Hex). exists p.
    split; [done|]. unfold render_visit, renders. by rewrite Hp', Hf, Hex. }
  assert (COMMANDS w' = COMMANDS w) as Hc'.
  { rewrite Hc. clear -Hvisits.
    induction Hvisits as [|k ks (p & _ & Hv) _ IH]; simpl;
      [by rewrite app_nil_r|by rewrite Hv]. }
  split_and!; try done.
  - eexists. split; [exact Hs|]. clear -Hvisits.
    induction Hvisits as [|k ks (p & Hp & Hv) _ IH]; simpl; [constructor|].
    rewrite Hv. simpl. constructor; eauto.
  - intros Hnone s. unfold start_runner. rewrite Hc', Hnone.
    apply runner_without_commands.
Qed.

End ScriptMore.

(** ** The skip rule and the records after a run *)

Lemma fmap_ext_Forall {A B} (f g : A → B) (l : list A) :
  Forall (λ x, f x = g x) l → f <$> l = g <$> l.
Proof. induction 1 as [|x l Hx _ IH]; [done|]. by rewrite !fmap_cons, Hx, IH. Qed.

Lemma apply_flags_use_colorscad (args : Args) (k : obj) :
  apply_flags args k !! "use_colorscad"
  = if skip_colorscad args then Some (VBool false) else k !! "use_colorscad".
Proof.
  unfold apply_flags.
  destruct (skip_colorscad args), (transparent args);
    by rewrite ?lookup_ins.
Qed.

Lemma apply_flags_stem_color (args : Args) (k : obj) :
  apply_flags args k !! "stem_color"
  = if transparent args then Some (VStr "#505050") else k !! "stem_color".
Proof.
  unfold apply_flags.
  destruct (skip_colorscad args), (transparent args);
    by rewrite ?lookup_ins.
Qed.

Section OutputFacts.
Variable Keycap_str : obj → string.
Variable py_str : val → string.
Variable str_lower : string → string.
Variable argparse_help : string.
Variable FS : Type.
Variable path_exists : FS → string → bool.
Variable os_mkdir : FS → string → result FS.

Local Abbreviation skipped := (skipped FS path_exists).
Local Abbreviation lines_for := (lines_for FS path_exists Keycap_str).
Local Abbreviation commands_for := (commands_for FS path_exists Keycap_str).
Local Abbreviation batch_record := (batch_record FS path_exists).
Local Abbreviation render_visit :=
  (render_visit Keycap_str py_str FS path_exists).
Local Abbreviation legend_visit :=
  (legend_visit Keycap_str py_str FS path_exists).
Local Abbreviation matches := (matches str_lower).

Lemma texts_output_file (args : Args) (k : obj) :
  texts k → output_file py_str args k = Ok (file_of args k).
Proof.
  intros [[n Hn] [t Ht]]. unfold output_file, attr, file_of, text.
  by rewrite Hn, Ht.
Qed.

Lemma texts_has_path (k : obj) : texts k → has_path k.
Proof. intros [[n Hn] [t Ht]]. split; eauto. Qed.

Lemma render_visit_texts (args : Args) (files : FS) (k : obj) :
  texts k →
  render_visit args files k
  = {| v_keycap := if skipped args files k
                   then <["output_path" := VStr (out args)]> k
                   else configured args k;
       v_commands := commands_for args files k;
       v_prints := lines_for args files k;
       v_matched := false |}.
Proof.
  intros Hk.
  unfold render_visit, renders, commands_for, lines_for, skipped.
  rewrite (texts_output_file args k Hk).
  by destruct (force args), (path_exists files (file_of args k)).
Qed.

Lemma commands_for_filter (args : Args) (files : FS) (ks : list obj) :
  concat (commands_for args files <$> ks)
  = (λ k, Keycap_str (configured args k))
      <$> filter (λ k, skipped args files k = false) ks.
Proof.
  induction ks as [|k ks IH]; [done|].
  rewrite fmap_cons, filter_cons. simpl. rewrite IH.
  unfold commands_for. by destruct (skipped args files k).
Qed.

Lemma render_named_texts (args : Args) (files : FS) (name : string) (k : obj) :
  texts k → matches name k = true →
  ∃ v rest shown,
    render_named Keycap_str py_str str_lower path_exists args files name k
    = Ok v
    ∧ v_matched v = true
    ∧ named_record args k (v_keycap v)
    ∧ v_commands v = commands_for args files k ++ rest
    ∧ v_prints v = lines_for args files k ++ shown
    ∧ (legends args = false → rest = [] ∧ shown = []).
Proof.
  clear argparse_help os_mkdir.
  intros Hk Hm. pose proof (texts_output_file args k Hk) as Hp.
  destruct Hk as [[n Hn] [t Ht]].
  unfold matches in Hm. rewrite Hn in Hm.
  unfold render_named, name_matches, attr. rewrite Hn. simpl. rewrite Hm. simpl.
  rewrite output_file_insert, Hp by done. simpl.
  fold (configured args k).
  assert (configured args k !! "name" = Some (VStr n)) as Hcn.
  { unfold configured. by rewrite apply_flags_lookup, ?lookup_ins by done. }
  assert (configured args k !! "file_type" = Some (VStr t)) as Hct.
  { unfold configured. by rewrite apply_flags_lookup, ?lookup_ins by done. }
  assert (configured args k !! "render" = k !! "render") as Hcr.
  { unfold configured. by rewrite apply_flags_lookup, ?lookup_ins by done. }
  assert (configured args k !! "output_path" = Some (VStr (out args))) as Hco.
  { unfold configured. by rewrite apply_flags_lookup, ?lookup_ins by done. }
  assert (flags_kept args k (configured args k)
          ∧ flags_set args (configured args k)) as [Hkept Hset].
  { unfold flags_kept, flags_set, configured.
    rewrite apply_flags_use_colorscad, apply_flags_stem_color, !lookup_ins.
    simpl. split; split; by intros ->. }
  assert (text "name" k = n) as Htext by (unfold text; by rewrite Hn).
  unfold commands_for, lines_for, skipped.
  destruct (legends args) eqn:Hl; simpl.
  - rewrite Hcn. simpl. unfold output_file at 1. unfold attr.
    rewrite ?lookup_ins. simpl.
    match goal with |- context [path_exists files ?q] =>
      destruct (path_exists files q) end; simpl.
    all: destruct (negb (force args) && path_exists files (file_of args k));
      simpl.
    all: eexists _, _, _; (split; [reflexivity|]); simpl.
    all: split; [done|].
    all: split;
      [ unfold named_record, flags_kept, flags_set in *;
        rewrite Hl, Htext, ?lookup_ins; simpl; tauto
      | split; [reflexivity|]; split; [reflexivity|]; done ].
  - destruct (negb (force args) && path_exists files (file_of args k)); simpl.
    all: eexists _, [], []; (split; [reflexivity|]); simpl.
    all: rewrite ?app_nil_r.
    all: split; [done|].
    all: split; [|done].
    all: unfold named_record; rewrite Hl, Hcn, Hct, Hn, Ht; tauto.
Qed.

(** The record after the render pass and, under [--legends], the legends
    pass. *)
Lemma batch_visits_record (args : Args) (files : FS) (k : obj) :
  texts k → has_legends k →
  let k1 := v_keycap (render_visit args files k) in
  has_legends k1
  ∧ batch_record args files k
      (if legends args then v_keycap (legend_visit args files k1) else k1).
Proof.
  clear str_lower argparse_help os_mkdir.
  intros Hk Hlk. simpl.
  split; [by apply render_visit_has_legends|].
  rewrite (render_visit_texts args files k Hk). simpl.
  destruct Hk as [[n Hn] [t Ht]]. destruct Hlk as [[l Hl] _].
  assert (text "name" k = n) as Htext by (unfold text; by rewrite Hn).
  assert (with_legends k = negb (no_legends l)) as Hwith
    by (unfold with_legends; by rewrite Hl).
  set (k1 := if skipped args files k
             then <["output_path" := VStr (out args)]> k
             else configured args k).
  assert (k1 !! "name" = Some (VStr n) ∧ k1 !! "file_type" = Some (VStr t)
          ∧ k1 !! "legends" = Some l ∧ k1 !! "render" = k !! "render"
          ∧ k1 !! "output_path" = Some (VStr (out args))
          ∧ flags_kept args k k1
          ∧ (skipped args files k = false → flags_set args k1))
    as (Hn1 & Ht1 & Hl1 & Hr1 & Ho1 & Hkept1 & Hset1).
  { unfold k1, configured, flags_kept, flags_set.
    destruct (skipped args files k);
      rewrite ?apply_flags_use_colorscad, ?apply_flags_stem_color,
        ?apply_flags_lookup, ?lookup_ins by done; simpl.
    - repeat split; done.
    - repeat split; try done; by intros ->. }
  unfold batch_record. rewrite Hwith, Htext.
  destruct (legends args) eqn:Hlegends; simpl.
  2: { split_and!; try done; by rewrite ?Hn1, ?Ht1, ?Hn, ?Ht. }
  unfold legend_visit.
  rewrite (render_legend_eq Keycap_str py_str FS path_exists args files k1 l
             (VStr n) Hl1 Hn1).
  destruct (no_legends l); simpl.
  { split_and!; try done; by rewrite ?Hn1, ?Ht1, ?Hn, ?Ht. }
  assert (∀ a, a ≠ "name" → a ≠ "output_path" → a ≠ "render" →
               a ≠ "file_type" →
               legend_object py_str args (VStr n) k1 !! a = k1 !! a) as Hobj.
  { intros a ????. unfold legend_object. by rewrite !lookup_insert_ne. }
  assert (legend_object py_str args (VStr n) k1 !! "name"
          = Some (VStr (n +:+ "_legends"))
          ∧ legend_object py_str args (VStr n) k1 !! "render"
            = Some (strs ["legends"])
          ∧ legend_object py_str args (VStr n) k1 !! "file_type"
            = Some (VStr "stl")
          ∧ legend_object py_str args (VStr n) k1 !! "output_path"
            = Some (VStr (out args))) as (Hon & Hor & Hot & Hoo).
  { unfold legend_object. by rewrite ?lookup_ins. }
  unfold flags_kept, flags_set in *.
  destruct (negb (force args) && path_exists files _); simpl.
  - rewrite !(Hobj "use_colorscad"), !(Hobj "stem_color") by done.
    split_and!; try done; tauto.
  - rewrite apply_flags_use_colorscad, apply_flags_stem_color,
      !apply_flags_lookup by done.
    rewrite !(Hobj "use_colorscad"), !(Hobj "stem_color") by done.
    split_and!; try done.
    + intros E. rewrite E. tauto.
    + intros E. rewrite E. tauto.
    + intros _. split; intros E; by rewrite E.
Qed.

Lemma full_batch_records (args : Args) (w : world FS) :
  Forall texts (KEYCAPS w) → Forall has_legends (KEYCAPS w) →
  ∃ w', full_batch Keycap_str py_str path_exists args w = (Ok tt, w')
    ∧ Forall2 (batch_record args (fs w)) (KEYCAPS w) (KEYCAPS w').
Proof.
  intros Hks Hls.
  destruct (render_pass_run Keycap_str py_str FS path_exists args w)
    as (w1 & Hrun & _ & Hfs & Hks1 & _).
  { eapply Forall_impl; [exact Hks|]. apply texts_has_path. }
  assert (Forall (λ k, let k1 := v_keycap (render_visit args (fs w) k) in
                       has_legends k1
                       ∧ batch_record args (fs w) k
                           (if legends args
                            then v_keycap (legend_visit args (fs w) k1)
                            else k1)) (KEYCAPS w)) as Hall.
  { apply Forall_forall. intros k Hin.
    apply batch_visits_record; by eapply Forall_forall. }
  unfold full_batch, mbind, M_bind. rewrite Hrun.
  destruct (legends args).
  - destruct (legends_pass_run Keycap_str py_str FS path_exists args w1)
      as (w' & Hrun' & _ & _ & Hks' & _).
    { rewrite Hks1. apply Forall_fmap. eapply Forall_impl; [exact Hall|].
      by intros k [? _]. }
    exists w'. split; [done|]. rewrite Hks', Hks1, Hfs.
    rewrite <-list_fmap_compose. apply Forall2_fmap_r, Forall_Forall2_diag.
    eapply Forall_impl; [exact Hall|]. by intros k [_ ?].
  - exists w1. split; [done|]. rewrite Hks1.
    apply Forall2_fmap_r, Forall_Forall2_diag.
    eapply Forall_impl; [exact Hall|]. by intros k [_ ?].
Qed.

(** A run of the block that returns has been through one of the two
    modes, entered with the catalog as it was and the file system it
    leaves. *)
Lemma generate_reaches_mode (argc : nat) (args : Args) (w w' : world FS) :
  generate Keycap_str py_str str_lower argparse_help path_exists os_mkdir
    argc args w = (Ok tt, w') →
  ∃ w1, KEYCAPS w1 = KEYCAPS w ∧ COMMANDS w1 = COMMANDS w ∧ fs w1 = fs w'
    ∧ match names args with
      | [] => full_batch Keycap_str py_str path_exists args
      | _ :: _ => names_branch Keycap_str py_str str_lower path_exists args
      end w1 = (Ok tt, w').
Proof.
  destruct (modes_same_fs Keycap_str py_str str_lower FS path_exists args)
    as [Hfull Hnames].
  assert (∀ w1 : world FS,
            match names args with
            | [] => full_batch Keycap_str py_str path_exists args
            | _ :: _ =>
              names_branch Keycap_str py_str str_lower path_exists args
            end w1 = (Ok tt, w') → fs w1 = fs w') as Hfs.
  { intros w1 Hrun. symmetry.
    destruct (names args); [by eapply Hfull|by eapply Hnames]. }
  unfold generate, dispatch, mbind, M_bind, lift, set_SEM, Semaphore, print,
    print_keycaps, set_fs, raise, mret, M_ret.
  destruct (jobs args <? 0)%Z; [done|].
  destruct (decide (argc = 1%nat)).
  { simpl.
    match goal with |- (let (_, _) := ?x in _) = _ → _ =>
      destruct x as [[] ?] end; done. }
  destruct (keycaps args).
  { simpl.
    match goal with |- (let (_, _) := ?x in _) = _ → _ =>
      destruct x as [[] ?] end; done. }
  simpl. destruct (path_exists (fs w) (out args)); simpl.
  - intros Hrun. eexists. split_and!; [| |by eapply Hfs|exact Hrun]; done.
  - destruct (os_mkdir (fs w) (out args)); simpl; [|done].
    intros Hrun. eexists. split_and!; [| |by eapply Hfs|exact Hrun]; done.
Qed.

(** C4: in full-batch mode the render loop appends, in catalog order, the
    command of exactly the keycaps that are not skipped, and a keycap is
    skipped when [--force] is not given and its file
    [{out}/{name}.{file_type}] exists: then the only thing printed for it
    is the line [{out}/{name}.{file_type} exists; skipping...], and
    otherwise [Rendering {out}/{name}.{file_type}...] and the command are
    printed.  With [--force] no keycap is skipped.  The named-keycap
    branch applies the same rule to the command of a keycap it matched
    (what follows it is the legend command and its lines, and only under
    [--legends]). *)
Theorem skip_unless_forced (args : Args) (w : world FS) :
  Forall texts (KEYCAPS w) →
  (∃ w', render_pass Keycap_str py_str path_exists args w = (Ok tt, w')
     ∧ COMMANDS w'
       = COMMANDS w
         ++ ((λ k, Keycap_str (configured args k))
               <$> filter (λ k, skipped args (fs w) k = false) (KEYCAPS w))
     ∧ stdout w'
       = stdout w ++ concat (lines_for args (fs w) <$> KEYCAPS w))
  ∧ (∀ name k, k ∈ KEYCAPS w → matches name k = true →
       ∃ v rest shown,
         render_named Keycap_str py_str str_lower path_exists args (fs w)
           name k = Ok v
         ∧ v_matched v = true
         ∧ v_commands v = commands_for args (fs w) k ++ rest
         ∧ v_prints v = lines_for args (fs w) k ++ shown
         ∧ (legends args = false → rest = [] ∧ shown = []))
  ∧ (∀ k, skipped args (fs w) k
          = negb (force args)
            && path_exists (fs w)
                 (out args +:+ "/" +:+ text "name" k +:+ "."
                  +:+ text "file_type" k))
  ∧ (∀ k, lines_for args (fs w) k
          = if skipped args (fs w) k
            then [BRIGHT +:+ file_of args k +:+ " exists; skipping..."
                  +:+ RESET_ALL]
            else [BRIGHT +:+ "Rendering " +:+ file_of args k +:+ "..."
                  +:+ RESET_ALL;
                  Keycap_str (configured args k)])
  ∧ (∀ k, commands_for args (fs w) k
          = if skipped args (fs w) k then []
            else [Keycap_str (configured args k)]).
Proof.
  intros Hks. split_and!; try done.
  - destruct (render_pass_run Keycap_str py_str FS path_exists args w)
      as (w' & Hrun & _ & _ & _ & Hc & Hs).
    { eapply Forall_impl; [exact Hks|]. apply texts_has_path. }
    exists w'. split; [done|].
    rewrite Hc, Hs. rewrite <-commands_for_filter. split; do 2 f_equal.
    + apply fmap_ext_Forall. eapply Forall_impl; [exact Hks|].
      intros k Hk. simpl. by rewrite (render_visit_texts args (fs w) k Hk).
    + apply fmap_ext_Forall. eapply Forall_impl; [exact Hks|].
      intros k Hk. simpl. by rewrite (render_visit_texts args (fs w) k Hk).
  - intros name k Hin Hm.
    pose proof (proj1 (Forall_forall _ _) Hks k Hin) as Hk.
    destruct (render_named_texts args (fs w) name k Hk Hm)
      as (v & rest & shown & Hv & Hmv & _ & Hc & Hp & Hl).
    by exists v, rest, shown.
Qed.

(** C5, amended: generating the commands changes the records of
    [KEYCAPS] in place.  Only these attributes change: [output_path],
    [use_colorscad] and [stem_color], and with [--legends] also [name],
    [render] and [file_type]; every other attribute of every record is
    the same before and after, and without [--legends] so are the name,
    the render list and the file type.  After a full batch every record
    has [output_path = args.out]; [use_colorscad] and [stem_color] are as
    before unless [--skip-colorscad] or [--transparent] is given, and a
    record that was not skipped then has [use_colorscad = False] or
    [stem_color = "#505050"]; under [--legends] a record whose legends
    are not [[""]] has its name suffixed [_legends],
    [render = ["legends"]] and [file_type = "stl"], and every other
    record keeps its name, render list and file type.  A pass of the
    named-keycap branch leaves a record it does not match as it is; a
    record it matches gets [output_path] and the flags, keeps [render],
    and under [--legends] is renamed and gets [file_type = "stl"]
    whatever its legends are. *)
Theorem generation_changes_only_output_attributes (argc : nat) (args : Args)
    (w : world FS) :
  let run := generate Keycap_str py_str str_lower argparse_help path_exists
               os_mkdir argc args w in
  Forall2 (unchanged_except legend_attrs) (KEYCAPS w) (KEYCAPS run.2)
  ∧ (legends args = false →
     Forall2 (unchanged_except flag_attrs) (KEYCAPS w) (KEYCAPS run.2))
  ∧ (run.1 = Ok tt → names args = [] →
     Forall texts (KEYCAPS w) → Forall has_legends (KEYCAPS w) →
     Forall2 (batch_record args (fs run.2)) (KEYCAPS w) (KEYCAPS run.2))
  ∧ (∀ files name k v,
       render_named Keycap_str py_str str_lower path_exists args files name k
       = Ok v →
       (matches name k = false → v_matched v = false ∧ v_keycap v = k)
       ∧ (matches name k = true → texts k →
          v_matched v = true ∧ named_record args k (v_keycap v))).
Proof.
  simpl. split_and!.
  - apply generation_changes; [|done]. unfold flag_attrs, legend_attrs.
    intros a. rewrite !elem_of_cons. tauto.
  - intros Hl. apply generation_changes; [done|]. by rewrite Hl.
  - destruct (generate _ _ _ _ _ _ argc args w) as [r w'] eqn:Hrun. simpl.
    intros -> Hnames Hks Hls.
    destruct (generate_reaches_mode argc args w w' Hrun)
      as (w1 & Hks1 & _ & Hfs & Hmode).
    rewrite Hnames in Hmode.
    destruct (full_batch_records args w1) as (w2 & Hrun2 & Hrec);
      [by rewrite Hks1..|].
    rewrite Hmode in Hrun2. simplify_eq. by rewrite <-Hks1, <-Hfs.
  - intros files name k v Hv. split.
    + intros Hm. split; [|by eapply render_named_unmatched].
      revert Hv. unfold render_named, name_matches, matches, attr in *.
      destruct (k !! "name") as [[]|]; simpl; try done.
      rewrite Hm. simpl. intros ?. by simplify_eq.
    + intros Hm Hk.
      destruct (render_named_texts args files name k Hk Hm)
        as (v' & rest & shown & Hv' & Hmv & Hrec & _).
      rewrite Hv in Hv'. by simplify_eq.
Qed.

End OutputFacts.

(** ** The catalog at module load *)

Lemma mapM_Forall {A B} (f : A → result B) (P : A → B → Prop) (l : list A) :
  Forall (λ x, ∃ y, f x = Ok y ∧ P x y) l →
  ∃ k, mapM f l = Ok k ∧ Forall2 P l k.
Proof.
  induction 1 as [|x l (y & Hxy & HP) _ (k & IH & HPk)]; [by exists []|].
  exists (y :: k). split; [|by constructor].
  unfold mapM in *. simpl. rewrite Hxy. simpl. by rewrite IH.
Qed.

(** What a constructor of the catalog builds over the smallest defaults. *)
Lemma closed_build (t2 : val) (c : cls) (kc : gmap string val) :
  extra_keywords c kc ∨ (c = C_base ∧ kc = {["homing_dot" := VBool true]}) →
  ∃ stc, construct {["trans2" := t2]} c kc = Ok stc
    ∧ self stc !! "name" = None ∧ self stc !! "legends" = None
    ∧ self stc !! "file_type" = Some (VStr FILE_TYPE)
    ∧ self stc !! "render" = Some (strs ["keycap"; "stem"]).
Proof.
  intros Hkc.
  assert ((λ st, (self st !! "name", self st !! "legends",
                  self st !! "file_type", self st !! "render"))
            <$> construct {["trans2" := t2]} c kc
          = Ok (None, None, Some (VStr FILE_TYPE),
                Some (strs ["keycap"; "stem"]))) as Hrun.
  { destruct c; destruct Hkc as [[->|[[? ->]|[? ->]]]|[? ->]]; simplify_eq;
      vm_compute; reflexivity. }
  destruct (construct _ c kc) as [stc|]; simplify_eq/=. eauto 10.
Qed.

Lemma table_entries :
  Forall (λ ck : cls * gmap string val,
            ∃ kc kwb s,
              ck.2 = kc ∪ kwb ∧ plain kwb ∧ kwb !! "name" = Some (VStr s)
              ∧ (extra_keywords ck.1 kc
                 ∨ (ck.1 = C_base ∧ kc = {["homing_dot" := VBool true]})))
         KEYCAP_TABLE.
Proof.
  unfold KEYCAP_TABLE.
  repeat (apply Forall_cons; split;
    [ first
        [ exists ∅; eexists _, _; split;
            [ symmetry; apply (left_id_L ∅ (∪))
            | split; [solve_plain | split; [reflexivity | left; by left] ] ]
        | eexists _, _, _; split;
            [ apply (kw_with_extra [_; _]); simpl;
              by intros [|[|[]%elem_of_nil]%elem_of_cons]%elem_of_cons
            | split; [solve_plain
                     | split; [reflexivity
                              | first [ left; right; by (left + right)
                                      | by right ] ] ] ] ]
    | ]).
  apply Forall_nil_2.
Qed.

(** X13: over any Keycap defaults that bind [trans2], every constructor call
    of the catalog returns: [KEYCAPS] has one record per entry, with the
    name and the legends the entry passes (the default legends where it
    passes none), [file_type = FILE_TYPE] and [render = ["keycap",
    "stem"]].  Every record has a string name and a file type, so
    [print_keycaps] and the loops find the attributes they read. *)
Theorem catalog_is_built (D : obj) :
  is_Some (D !! "trans2") →
  ∃ ks, build_KEYCAPS D = Ok ks
    ∧ Forall2 (λ ck k,
                 k !! "name" = ck.2 !! "name"
                 ∧ k !! "legends" = (ck.2 ∪ D) !! "legends"
                 ∧ k !! "file_type" = Some (VStr FILE_TYPE)
                 ∧ k !! "render" = Some (strs ["keycap"; "stem"]))
              KEYCAP_TABLE ks
    ∧ Forall named ks
    ∧ (is_Some (D !! "legends") → Forall has_legends ks).
Proof.
  intros [t2 Ht2].
  assert (({["trans2" := t2]} : obj) ⊆ D) as Hsub
    by (by apply map_singleton_subseteq_l).
  destruct (mapM_Forall (λ ck, self <$> construct D ck.1 ck.2)
              (λ ck k, k !! "name" = ck.2 !! "name"
                       ∧ k !! "legends" = (ck.2 ∪ D) !! "legends"
                       ∧ k !! "file_type" = Some (VStr FILE_TYPE)
                       ∧ k !! "render" = Some (strs ["keycap"; "stem"])
                       ∧ ∃ s, k !! "name" = Some (VStr s))
              KEYCAP_TABLE) as (ks & Hks & Hall).
  { eapply Forall_impl; [apply table_entries|].
    intros [c kws] (kc & kwb & s & Hkws & Hplain & Hname & Hextra).
    simpl in *. subst kws.
    destruct (closed_build t2 c kc Hextra)
      as (stc & Hstc & Hn & Hl & Hf & Hr).
    assert (∀ k, is_Some (kwb !! k) → kc !! k = None) as Hkc.
    { intros k Hk. destruct (Hplain k Hk) as [->| ->];
        destruct Hextra as [[->|[[_ ->]|[_ ->]]]|[_ ->]]; done. }
    assert (∀ k, is_Some (kwb !! k) → ({["trans2" := t2]} : obj) !! k = None)
      as Hfresh.
    { intros k Hk. destruct (Hplain k Hk) as [->| ->]; done. }
    destruct (sim_construct kwb D _ Hplain Hsub Hfresh c kc stc Hkc Hstc)
      as (st & Hst & Hsim).
    exists (self st). rewrite Hst. split; [done|].
    assert (kc !! "name" = None ∧ kc !! "legends" = None) as [Hkn Hkl].
    { destruct Hextra as [[->|[[_ ->]|[_ ->]]]|[_ ->]]; done. }
    rewrite (sim_self _ _ _ _ Hsim). unfold under.
    rewrite !lookup_union, Hn, Hl, Hkn, Hkl, Hf, Hr, Hname. simpl.
    clear.
    destruct (D !! "name"), (kwb !! "legends"), (D !! "legends"),
      (kwb !! "file_type"), (D !! "file_type"), (kwb !! "render"),
      (D !! "render"); cbn; split_and!; try reflexivity; by eexists. }
  exists ks. split; [exact Hks|]. split_and!.
  - eapply Forall2_impl; [exact Hall|].
    intros ck k (H1 & H2 & H3 & H4 & _).
    exact (conj H1 (conj H2 (conj H3 H4))).
  - clear Hks. induction Hall as [|ck k l ks (_ & _ & Hf & _ & Hs) _ IH];
      constructor; [|done].
    split; [done|by rewrite Hf].
  - intros [l0 Hl0]. clear Hks.
    induction Hall as [|ck k l ks (Hn & Hl & _ & _ & [s Hs]) _ IH];
      constructor; [|done].
    split; [|by rewrite Hs].
    rewrite Hl, lookup_union. rewrite Hl0. by destruct (ck.2 !! "legends").
Qed.

Lemma homing_checks (r0 r1 : result cstate) :
  is_ok r0 = true → is_ok r1 = true →
  (st0 ← r0; st ← r1;
   Ok (map_to_list (self st), self st !! "homing_dot"))
  = (st0 ← r0;
     Ok (map_to_list
           (<["homing_dot_z" := VFloat (-0.45)]>
              (<["homing_dot_y" := VInt (-3)]>
                 (<["homing_dot_x" := VInt 0]>
                    (<["homing_dot_width" := VFloat 1.5]>
                       (<["homing_dot_length" := VFloat 1.5]> (self st0)))))),
         None)) →
  ∃ stc0 stc,
    r0 = Ok stc0 ∧ r1 = Ok stc
    ∧ self stc
      = <["homing_dot_z" := VFloat (-0.45)]>
          (<["homing_dot_y" := VInt (-3)]>
             (<["homing_dot_x" := VInt 0]>
                (<["homing_dot_width" := VFloat 1.5]>
                   (<["homing_dot_length" := VFloat 1.5]> (self stc0)))))
    ∧ self stc !! "homing_dot" = None.
Proof.
  destruct r0 as [stc0|]; [|done]. destruct r1 as [stc|]; [|done].
  simpl. intros _ _ Hcmp. exists stc0, stc. simplify_eq.
  split_and!; try done.
  rewrite <-(list_to_map_to_list (self stc)).
  match goal with H : map_to_list _ = _ |- _ => rewrite H end.
  by rewrite list_to_map_to_list.
Qed.

(** X14: [ergodox_ft_base(homing_dot=True, ...)] builds the object of the
    same call without [homing_dot] plus the five [homing_dot_*]
    attributes; [homing_dot] itself is taken by the constructor and does
    not become an attribute. *)
Theorem homing_dot_adds_five (D : obj) (kwb : gmap string val) :
  plain kwb →
  ∃ st0 st,
    construct D C_base kwb = Ok st0
    ∧ construct D C_base ({["homing_dot" := VBool true]} ∪ kwb) = Ok st
    ∧ self st
      = <["homing_dot_z" := VFloat (-0.45)]>
          (<["homing_dot_y" := VInt (-3)]>
             (<["homing_dot_x" := VInt 0]>
                (<["homing_dot_width" := VFloat 1.5]>
                   (<["homing_dot_length" := VFloat 1.5]> (self st0)))))
    ∧ self st !! "homing_dot" = D !! "homing_dot".
Proof.
  intros Hplain.
  assert ((∅ : obj) ⊆ D) as Hsub by apply map_empty_subseteq.
  assert (∀ k, is_Some (kwb !! k) → (∅ : obj) !! k = None) as Hfresh.
  { intros k _. apply lookup_empty. }
  destruct (homing_checks (construct ∅ C_base ∅)
              (construct ∅ C_base {["homing_dot" := VBool true]}))
    as (stc0 & stc & Hstc0 & Hstc & Hself & Hnone);
    [vm_compute; reflexivity..|].
  assert (∀ k, is_Some (kwb !! k) → (∅ : obj) !! k = None) as Hkc0.
  { intros k _. apply lookup_empty. }
  assert (∀ k, is_Some (kwb !! k) →
               ({["homing_dot" := VBool true]} : obj) !! k = None) as Hkc.
  { intros k Hk. destruct (Hplain k Hk) as [->| ->]; reflexivity. }
  destruct (sim_construct kwb D ∅ Hplain Hsub Hfresh C_base ∅ stc0 Hkc0 Hstc0)
    as (st0 & Hst0 & Hsim0).
  destruct (sim_construct kwb D ∅ Hplain Hsub Hfresh C_base
              {["homing_dot" := VBool true]} stc Hkc Hstc)
    as (st & Hst & Hsim).
  rewrite (left_id_L ∅ (∪)) in Hst0.
  exists st0, st. split; [exact Hst0|]. split; [exact Hst|]. split.
  - rewrite (sim_self _ _ _ _ Hsim), (sim_self _ _ _ _ Hsim0), Hself.
    by rewrite <-!insert_union_l.
  - rewrite (sim_self _ _ _ _ Hsim). unfold under.
    rewrite !lookup_union, Hnone.
    destruct (kwb !! "homing_dot") eqn:Hk.
    + destruct (Hplain "homing_dot") as [?|?]; [by rewrite Hk|done..].
    + by destruct (D !! "homing_dot").
Qed.

(** ** More runs on the sample platform *)

(** Three commands under [--jobs 2], two started and one of them done
    with its command. *)
Lemma permits_conserved_witness :
  let s := run_schedule sample_shell sample_fails [0; 1; 2; 0]%nat
             (run_all_commands (Some 2%Z) ["a"; "b"; "c"] []) in
  ∃ v, r_SEM s = Some v ∧ (0 ≤ v ≤ 2)%Z
       ∧ (v + Z.of_nat (holders s) = 2)%Z
       ∧ (all_printed s → v = 2%Z).
Proof.
  apply (permits_conserved sample_shell sample_fails 2 ["a"; "b"; "c"] []);
    [lia|apply run_schedule_rtc].
Defined.

(** Two commands under [--jobs 1], the first one printed and the second
    one still waiting. *)
Lemma executed_within_list_witness :
  let cmds := ["make a"; "false"] in
  let s := run_schedule sample_shell sample_fails [0; 1; 0; 0; 0; 0]%nat
             (run_all_commands (Some 1%Z) cmds []) in
  r_executed s ⊆+ cmds
  ∧ ∃ printed, r_stdout s = [] ++ printed
               ∧ printed ⊆+ (λ c, (sample_shell c).2) <$> r_executed s.
Proof.
  apply (executed_within_list sample_shell sample_fails 1 ["make a"; "false"] []);
    [lia|apply run_schedule_rtc].
Defined.

(** Two commands under [--jobs 0]. *)
Lemma zero_jobs_never_runs_witness :
  let s := run_schedule sample_shell sample_fails [0; 1; 0]%nat
             (run_all_commands (Some 0%Z) ["a"; "b"] []) in
  r_SEM s = Some 0%Z ∧ r_executed s = [] ∧ r_stdout s = []
  ∧ r_raised s = None
  ∧ Forall (λ ct, ct.2 = TCreated ∨ ct.2 = TWaiting) (r_tasks s)
  ∧ (stuck sample_shell sample_fails s → Forall (λ ct, ct.2 = TWaiting) (r_tasks s)).
Proof.
  apply (zero_jobs_never_runs sample_shell sample_fails ["a"; "b"] []).
  apply run_schedule_rtc.
Defined.

(** Three commands under [--jobs 2]. *)
Lemma cap_is_reached_witness :
  ∃ s, rtc (step sample_shell sample_fails)
           (run_all_commands (Some 2%Z) ["a"; "b"; "c"] []) s
       ∧ Z.of_nat (in_flight s) = 2%Z ∧ r_SEM s = Some 0%Z
       ∧ r_executed s = [].
Proof.
  apply (cap_is_reached sample_shell sample_fails 2 ["a"; "b"; "c"] []); simpl; lia.
Defined.

(** [ft-ergodox.py -o out] after a full batch has left every file. *)
Lemma rerun_queues_nothing_witness :
  let w := module_loaded sample_catalog
             ("out" :: rendered_files args_batch sample_catalog) in
  ∃ w', full_batch sample_str sample_py_str sample_exists args_batch w
        = (Ok tt, w')
    ∧ COMMANDS w' = COMMANDS w ∧ fs w' = fs w
    ∧ (∃ printed,
         stdout w' = stdout w ++ printed
         ∧ Forall2 (λ k line, ∃ p, output_file sample_py_str args_batch k = Ok p
                                   ∧ line = skipping p) (KEYCAPS w) printed)
    ∧ (COMMANDS w = [] →
       ∀ s, rtc (step sample_shell sample_fails) (start_runner w') s → s = start_runner w').
Proof.
  apply (rerun_queues_nothing sample_shell sample_fails sample_str sample_py_str
           (list string) sample_exists args_batch
           (module_loaded sample_catalog
              ("out" :: rendered_files args_batch sample_catalog)));
    [reflexivity|reflexivity|].
  apply (Forall_forallb _
           (λ k, match output_file sample_py_str args_batch k with
                 | Ok p => sample_exists
                             ("out" :: rendered_files args_batch sample_catalog) p
                 | Raise _ => false
                 end)).
  - intros k Hk. destruct (output_file sample_py_str args_batch k) as [p|];
      [|done]. by exists p.
  - vm_compute. reflexivity.
Defined.

(** [ft-ergodox.py -o out -l] over the catalog, [out] not there yet. *)
Lemma generation_outcome_witness :
  (sample_generate 2 args_legends sample_catalog []).1 = Ok tt.
Proof.
  destruct (generation_outcome sample_str sample_py_str ascii_lower
              sample_help (list string) sample_exists sample_mkdir
              2 args_legends (module_loaded sample_catalog [])
              catalog_named catalog_has_legends) as (_ & _ & Hrun).
  assert (0 ≤ jobs args_legends)%Z as Hjobs by (simpl; lia).
  assert (2 ≠ 1)%nat as Hargc by lia.
  exact (Hrun Hjobs Hargc eq_refl).
Defined.

(** [ft-ergodox.py -o out -f -l L_ESC] with [out/l_esc_legends.stl] on
    disk: the keycap is rendered, its legends are not. *)
Lemma named_legend_ignores_force_witness :
  let files := ["out"; "out/l_esc_legends.stl"] in
  let k := default ∅ (sample_catalog !! 0%nat) in
  let v := named_visit sample_str sample_py_str ascii_lower (list string)
             sample_exists args_named_legends files "L_ESC" k in
  ∃ s, k !! "name" = Some (VStr s)
    ∧ let legend := <["file_type" := VStr "stl"]>
                      (<["name" := VStr (s +:+ "_legends")]>
                         (configured args_named_legends k)) in
      let lpath := out args_named_legends +:+ "/" +:+ (s +:+ "_legends")
                   +:+ "." +:+ "stl" in
      v_keycap v = legend
      ∧ legend !! "render" = k !! "render"
      ∧ v_commands v
        = (if renders sample_py_str (list string) sample_exists
                args_named_legends files k
           then [sample_str (configured args_named_legends k)] else [])
          ++ (if sample_exists files lpath then [] else [sample_str legend]).
Proof.
  apply (named_legend_ignores_force sample_str sample_py_str ascii_lower
           (list string) sample_exists args_named_legends
           ["out"; "out/l_esc_legends.stl"] "L_ESC"
           (default ∅ (sample_catalog !! 0%nat))
           (named_visit sample_str sample_py_str ascii_lower (list string)
              sample_exists args_named_legends
              ["out"; "out/l_esc_legends.stl"] "L_ESC"
              (default ∅ (sample_catalog !! 0%nat)))).
  - unfold named_visit. apply is_ok_eq. vm_compute. reflexivity.
  - vm_compute. reflexivity.
  - reflexivity.
Defined.

(** [ft-ergodox.py -o out -f -l]: 84 keycaps and 82 legends. *)
Lemma forced_batch_count_witness :
  ∃ w', full_batch sample_str sample_py_str sample_exists args_forced
          (module_loaded sample_catalog ["out"]) = (Ok tt, w')
    ∧ length (COMMANDS w') = 166%nat.
Proof.
  destruct (forced_batch_count sample_str sample_py_str (list string)
              sample_exists args_forced (module_loaded sample_catalog ["out"])
              catalog_has_path catalog_has_legends eq_refl)
    as (w' & Hrun & Hlen).
  exists w'. split; [exact Hrun|]. rewrite Hlen. vm_compute. reflexivity.
Defined.

(** The catalog over the sample defaults. *)
Lemma catalog_is_built_witness :
  ∃ ks, build_KEYCAPS sample_defaults = Ok ks
    ∧ Forall2 (λ ck k,
                 k !! "name" = ck.2 !! "name"
                 ∧ k !! "legends" = (ck.2 ∪ sample_defaults) !! "legends"
                 ∧ k !! "file_type" = Some (VStr FILE_TYPE)
                 ∧ k !! "render" = Some (strs ["keycap"; "stem"]))
              KEYCAP_TABLE ks
    ∧ Forall named ks
    ∧ (is_Some (sample_defaults !! "legends") → Forall has_legends ks).
Proof.
  apply (catalog_is_built sample_defaults). eexists. reflexivity.
Defined.

(** [ergodox_ft_base(name="r_J", legends=["J", "1"], homing_dot=True)],
    an entry of the catalog. *)
Lemma homing_dot_adds_five_witness :
  let kwargs := kw [("name", VStr "r_J"); ("legends", strs ["J"; "1"])] in
  ∃ st0 st,
    construct sample_defaults C_base kwargs = Ok st0
    ∧ construct sample_defaults C_base
        ({["homing_dot" := VBool true]} ∪ kwargs) = Ok st
    ∧ self st
      = <["homing_dot_z" := VFloat (-0.45)]>
          (<["homing_dot_y" := VInt (-3)]>
             (<["homing_dot_x" := VInt 0]>
                (<["homing_dot_width" := VFloat 1.5]>
                   (<["homing_dot_length" := VFloat 1.5]> (self st0)))))
    ∧ self st !! "homing_dot" = sample_defaults !! "homing_dot".
Proof.
  apply (homing_dot_adds_five sample_defaults
           (kw [("name", VStr "r_J"); ("legends", strs ["J"; "1"])])).
  solve_plain.
Defined.

(** [ft-ergodox.py -o out] with [out/l_esc.3mf] on disk: the first keycap
    of the catalog is skipped, the second is not. *)
Lemma skip_unless_forced_witness :
  let files := ["out"; "out/l_esc.3mf"] in
  let w := module_loaded sample_catalog files in
  (Forall texts sample_catalog
   ∧ sample_catalog !! 0%nat ≫= (.!! "name") = Some (VStr "l_esc")
   ∧ (skipped (list string) sample_exists args_batch files
        <$> sample_catalog !! 0%nat) = Some true
   ∧ (skipped (list string) sample_exists args_batch files
        <$> sample_catalog !! 1%nat) = Some false)
  ∧ (∃ w', render_pass sample_str sample_py_str sample_exists args_batch w
           = (Ok tt, w')
       ∧ COMMANDS w'
         = COMMANDS w
           ++ ((λ k, sample_str (configured args_batch k))
                 <$> filter (λ k, skipped (list string) sample_exists
                                    args_batch (fs w) k = false)
                            (KEYCAPS w))
       ∧ stdout w'
         = stdout w
           ++ concat (lines_for (list string) sample_exists sample_str
                        args_batch (fs w) <$> KEYCAPS w)).
Proof.
  split.
  - split; [exact catalog_texts|]. vm_compute. split_and!; reflexivity.
  - apply (skip_unless_forced sample_str sample_py_str ascii_lower
             (list string) sample_exists args_batch
             (module_loaded sample_catalog ["out"; "out/l_esc.3mf"])).
    exact catalog_texts.
Defined.

(** [ft-ergodox.py -o out -l]: the records the full batch leaves. *)
Lemma generation_changes_only_output_attributes_witness :
  let run := sample_generate 2 args_legends sample_catalog [] in
  run.1 = Ok tt
  ∧ Forall2 (unchanged_except legend_attrs) sample_catalog (KEYCAPS run.2)
  ∧ Forall2 (batch_record (list string) sample_exists args_legends (fs run.2))
            sample_catalog (KEYCAPS run.2).
Proof.
  assert ((sample_generate 2 args_legends sample_catalog []).1 = Ok tt) as Hok
    by (vm_compute; reflexivity).
  split; [exact Hok|].
  destruct (generation_changes_only_output_attributes sample_str sample_py_str
              ascii_lower sample_help (list string) sample_exists sample_mkdir
              2 args_legends (module_loaded sample_catalog []))
    as (Hframe & _ & Hrec & _).
  split; [exact Hframe|].
  exact (Hrec Hok eq_refl catalog_texts catalog_has_legends).
Defined.
